(** * Roll & Write Foundry core: a shallow embedding in Rocq

    The development follows the TypeScript sources of [packages/core]:
    - [Rng]: the xorshift128+ generator of [rng/xorshift128plus.ts]
      (64-bit words as [Z] with the wrap-around written out);
    - [Expr]: the mini-expression language of [expr] (lexer, parser,
      evaluator, [listIdentifiers]);
    - [Session]: the turn-phase state machine and [autoplay] of
      [session.ts].

    JavaScript exceptions become the [Exn] outcome of a state/exception
    monad in which the state reached at the [throw] survives, as a
    mutated object does in the source. *)

From Stdlib Require Import ZArith List String Ascii Bool Lia QArith Qround Qabs Qminmax Lqa.
Import ListNotations.

Open Scope Z_scope.

(** Errors thrown by the sources.  [OutOfFuel] stands for a loop that did
    not finish within the iteration budget of the model (the source would
    keep running). *)
Inductive Exn :=
| RangeError (msg : string)
| SyntaxError (msg : string)            (* thrown by BigInt(string) *)
| TypeError (msg : string)              (* property read on undefined *)
| PlainError (msg : string)             (* new Error(...) *)
| MiniExprSyntaxError (msg : string) (start stop : nat)
| MiniExprEvaluationError (msg : string)
| OutOfFuel.

(** ** JavaScript numbers

    The code computes with IEEE doubles.  The model is generic in the
    carrier: every operation the sources use on [number] is a field of
    this class. *)
(** Decimal rendering of integers, as [String(n)] prints them. *)
Fixpoint decimal_digits (fuel : nat) (n : Z) (acc : string) : string :=
  match fuel with
  | O => acc
  | S f =>
    let acc' := String (ascii_of_nat (48 + Z.to_nat (n mod 10))) acc in
    if n <? 10 then acc' else decimal_digits f (n / 10) acc'
  end.

Definition Z_to_decimal (z : Z) : string :=
  let a := Z.abs z in
  let s := decimal_digits (S (Pos.size_nat (Z.to_pos a))) a EmptyString in
  if z <? 0 then String "-" s else s.

Class JsNumber (num : Type) := {
  js_of_Z : Z -> num;                   (* Number(bigint) / integer literal *)
  js_to_integer : num -> option Z;      (* Some z iff Number.isInteger(x) *)
  js_literal : string -> num;           (* Number(text) on a lexed literal *)
  js_nan : num;
  js_pos_inf : num;
  js_neg_inf : num;
  js_add : num -> num -> num;
  js_sub : num -> num -> num;
  js_mul : num -> num -> num;
  js_div : num -> num -> num;
  js_mod : num -> num -> num;
  js_pow : num -> num -> num;           (* a ** b *)
  js_neg : num -> num;
  js_lt : num -> num -> bool;           (* a < b *)
  js_le : num -> num -> bool;           (* a <= b *)
  js_eqb : num -> num -> bool;          (* a === b on numbers *)
  js_is_finite : num -> bool;           (* Number.isFinite *)
  js_is_nan : num -> bool;              (* Number.isNaN *)
  js_truthy : num -> bool;              (* Boolean(x) *)
  js_min : num -> num -> num;           (* Math.min(a, b) *)
  js_max : num -> num -> num;           (* Math.max(a, b) *)
  js_abs : num -> num;
  js_floor : num -> num;
  js_ceil : num -> num;
  js_round : num -> num;
  js_to_string : num -> string          (* String(x) *)
}.

(** ** An executable instance: exact rationals with NaN and infinities

    Used for concrete runs.  Finite values are exact rationals instead of
    rounded doubles, so the instance agrees with the code wherever the
    doubles are exact (small integers, as in every concrete run below);
    a power with a non-integer exponent is not computed (NaN). *)
Module QNum.
Inductive jsq := JFin (q : Q) | JNaN | JInf (positive_sign : bool).

Definition q_is_zero (q : Q) : bool := Qeq_bool q 0.

Definition cmp (a b : jsq) : option comparison :=
  match a, b with
  | JNaN, _ | _, JNaN => None
  | JFin x, JFin y => Some (Qcompare x y)
  | JInf s, JInf t => Some (if Bool.eqb s t then Eq else if s then Gt else Lt)
  | JInf s, JFin _ => Some (if s then Gt else Lt)
  | JFin _, JInf t => Some (if t then Lt else Gt)
  end.

Definition neg (a : jsq) : jsq :=
  match a with JFin q => JFin (Qopp q) | JInf s => JInf (negb s) | JNaN => JNaN end.

Definition add (a b : jsq) : jsq :=
  match a, b with
  | JFin x, JFin y => JFin (x + y)%Q
  | JInf s, JFin _ | JFin _, JInf s => JInf s
  | JInf s, JInf t => if Bool.eqb s t then JInf s else JNaN
  | _, _ => JNaN
  end.

Definition sign_pos (q : Q) : bool := Qle_bool 0 q.

Definition mul (a b : jsq) : jsq :=
  match a, b with
  | JFin x, JFin y => JFin (x * y)%Q
  | JInf s, JFin q | JFin q, JInf s =>
      if q_is_zero q then JNaN else JInf (Bool.eqb s (sign_pos q))
  | JInf s, JInf t => JInf (Bool.eqb s t)
  | _, _ => JNaN
  end.

Definition div (a b : jsq) : jsq :=
  match a, b with
  | JFin x, JFin y =>
      if q_is_zero y then (if q_is_zero x then JNaN else JInf (sign_pos x))
      else JFin (x / y)%Q
  | JFin _, JInf _ => JFin 0
  | JInf s, JFin q => JInf (Bool.eqb s (sign_pos q))
  | _, _ => JNaN
  end.

Definition trunc (q : Q) : Z := if Qle_bool 0 q then Qfloor q else - Qfloor (Qopp q).

Definition modulo (a b : jsq) : jsq :=
  match a, b with
  | JFin x, JFin y => if q_is_zero y then JNaN else JFin (x - y * inject_Z (trunc (x / y)))%Q
  | JFin x, JInf _ => JFin x
  | _, _ => JNaN
  end.

Definition to_integer (a : jsq) : option Z :=
  match a with
  | JFin q => let r := Qred q in if (Zpos (Qden r) =? 1)%Z then Some (Qnum r) else None
  | _ => None
  end.

Definition pow (a b : jsq) : jsq :=
  match a, to_integer b with
  | JFin x, Some z => if q_is_zero x && (z <? 0)%Z then JInf true else JFin (Qpower x z)
  | _, _ => JNaN
  end.

(** Number(text) for the literals the lexer produces: digits with at most
    one decimal point. *)
Fixpoint literal_digits (l : list ascii) (int frac : Z) (scale : positive) (dot : bool) : option Q :=
  match l with
  | [] => Some (Qmake (int * Zpos scale + frac) scale)
  | c :: r =>
      if (c =? "."%char)%char then (if dot then None else literal_digits r int frac scale true)
      else let n := Z.of_nat (nat_of_ascii c) - 48 in
           if (0 <=? n) && (n <=? 9) then
             (if dot then literal_digits r int (frac * 10 + n) (scale * 10) dot
              else literal_digits r (int * 10 + n) frac scale dot)
           else None
  end.

Definition literal (s : string) : jsq :=
  match literal_digits (list_ascii_of_string s) 0 0 1 false with
  | Some q => JFin q
  | None => JNaN
  end.

Definition lift1 (f : Q -> Q) (a : jsq) : jsq :=
  match a with JFin q => JFin (f q) | x => x end.

Definition minmax (pick_left : comparison -> bool) (a b : jsq) : jsq :=
  match cmp a b with
  | Some c => if pick_left c then a else b
  | None => JNaN
  end.

(** [String(x)]: exact for integers, infinities and NaN; any other
    rational is printed as a fraction (no double formatting). *)
Definition to_string (a : jsq) : string :=
  match a with
  | JFin q => let q' := Qred q in
              if (Zpos (Qden q') =? 1)%Z then Z_to_decimal (Qnum q')
              else String.append (Z_to_decimal (Qnum q')) (String "/" (Z_to_decimal (Zpos (Qden q'))))
  | JNaN => "NaN"
  | JInf true => "Infinity"
  | JInf false => "-Infinity"
  end.

#[global] Instance jsq_number : JsNumber jsq := {
  js_of_Z z := JFin (inject_Z z);
  js_to_integer := to_integer;
  js_literal := literal;
  js_nan := JNaN;
  js_pos_inf := JInf true;
  js_neg_inf := JInf false;
  js_add := add;
  js_sub a b := add a (neg b);
  js_mul := mul;
  js_div := div;
  js_mod := modulo;
  js_pow := pow;
  js_neg := neg;
  js_lt a b := match cmp a b with Some Lt => true | _ => false end;
  js_le a b := match cmp a b with Some Lt | Some Eq => true | _ => false end;
  js_eqb a b := match cmp a b with Some Eq => true | _ => false end;
  js_is_finite a := match a with JFin _ => true | _ => false end;
  js_is_nan a := match a with JNaN => true | _ => false end;
  js_truthy a := match a with JFin q => negb (q_is_zero q) | JNaN => false | JInf _ => true end;
  js_min := minmax (fun c => match c with Gt => false | _ => true end);
  js_max := minmax (fun c => match c with Lt => false | _ => true end);
  js_abs := lift1 Qabs;
  js_floor := lift1 (fun q => inject_Z (Qfloor q));
  js_ceil := lift1 (fun q => inject_Z (Qceiling q));
  js_round := lift1 (fun q => inject_Z (Qfloor (q + (1 # 2))));
  js_to_string := to_string
}.
End QNum.

(** ** The state/exception monad of the sources *)
Module StEx.
Definition M (S A : Type) : Type := S -> (Exn + A) * S.
Definition ret {S A} (a : A) : M S A := fun s => (inr a, s).
Definition throw {S A} (e : Exn) : M S A := fun s => (inl e, s).
Definition bind {S A B} (m : M S A) (k : A -> M S B) : M S B :=
  fun s => match m s with
           | (inl e, s') => (inl e, s')
           | (inr a, s') => k a s'
           end.
Definition get {S} : M S S := fun s => (inr s, s).
Definition put {S} (s : S) : M S unit := fun _ => (inr tt, s).
Definition modify {S} (f : S -> S) : M S unit := fun s => (inr tt, f s).
Definition liftE {S A} (x : Exn + A) : M S A := fun s => (x, s).
End StEx.

Notation "x <- m ;; k" := (StEx.bind m (fun x => k))
  (at level 61, m at next level, right associativity).
Notation "m ;;; k" := (StEx.bind m (fun _ => k))
  (at level 61, right associativity).

(** ** [rng/xorshift128plus.ts] *)
Module Rng.

Definition UINT64_MASK : Z := Z.shiftl 1 64 - 1.

Definition toUint64 (value : Z) : Z := Z.land value UINT64_MASK.

(** The closure returned by [splitmix64(seed)]: its captured [state]
    and one call of it. *)
Definition splitmix64 (seed : Z) : Z := toUint64 seed.

Definition splitmix64_next (state : Z) : Z * Z :=
  let state := toUint64 (state + 0x9e3779b97f4a7c15) in
  let z := state in
  let z := toUint64 (Z.lxor z (Z.shiftr z 30) * 0xbf58476d1ce4e5b9) in
  let z := toUint64 (Z.lxor z (Z.shiftr z 27) * 0x94d049bb133111eb) in
  (toUint64 (Z.lxor z (Z.shiftr z 31)), state).

(** JS strings are read through [charCodeAt]; the model's strings are
    ASCII, whose code units are the ASCII codes. *)
Fixpoint hashString_from (hash : Z) (s : string) : Z :=
  match s with
  | EmptyString => hash
  | String c rest =>
      let hash := Z.lxor hash (Z.of_nat (nat_of_ascii c)) in
      hashString_from (toUint64 (hash * 0x100000001b3)) rest
  end.

Definition hashString (seed : string) : Z := hashString_from 0xcbf29ce484222325 seed.

(** [generator()] twice, [generator() || 1n] for the second word. *)
Definition two_words (seed : Z) : Z * Z :=
  let g := splitmix64 seed in
  let (w0, g) := splitmix64_next g in
  let (w1, _) := splitmix64_next g in
  (w0, if w1 =? 0 then 1 else w1).

(** *** BigInt(string) *)

Definition is_js_space (c : ascii) : bool :=
  let n := nat_of_ascii c in ((9 <=? n) && (n <=? 13))%nat || (n =? 32)%nat.

Fixpoint drop_spaces (l : list ascii) : list ascii :=
  match l with
  | c :: r => if is_js_space c then drop_spaces r else l
  | [] => []
  end.

Definition trim (l : list ascii) : list ascii := rev (drop_spaces (rev (drop_spaces l))).

(** Digit value of a character in a given radix (2, 8, 10 or 16). *)
Definition digit_value (radix : Z) (c : ascii) : option Z :=
  let n := Z.of_nat (nat_of_ascii c) in
  let d := if (48 <=? n) && (n <=? 57) then Some (n - 48)
           else if (97 <=? n) && (n <=? 102) then Some (n - 87)
           else if (65 <=? n) && (n <=? 70) then Some (n - 55)
           else None in
  match d with
  | Some v => if v <? radix then Some v else None
  | None => None
  end.

Fixpoint digits_value (radix acc : Z) (l : list ascii) : option Z :=
  match l with
  | [] => Some acc
  | c :: r => match digit_value radix c with
              | Some d => digits_value radix (acc * radix + d) r
              | None => None
              end
  end.

Definition nonempty_digits (radix : Z) (l : list ascii) : option Z :=
  match l with [] => None | _ => digits_value radix 0 l end.

Definition is_x (c : ascii) : bool := (c =? "x"%char)%char || (c =? "X"%char)%char.
Definition is_o (c : ascii) : bool := (c =? "o"%char)%char || (c =? "O"%char)%char.
Definition is_b (c : ascii) : bool := (c =? "b"%char)%char || (c =? "B"%char)%char.

(** StringToBigInt: surrounding white space is ignored, the empty string
    is [0n], [0x]/[0o]/[0b] prefixes select a radix, a sign is allowed
    in decimal only; anything else throws a SyntaxError. *)
Definition parse_bigint (s : string) : Exn + Z :=
  let err := inl (SyntaxError "Cannot convert string to a BigInt") in
  let l := trim (list_ascii_of_string s) in
  let r := match l with
           | [] => Some 0
           | "0"%char :: x :: rest =>
               if is_x x then nonempty_digits 16 rest
               else if is_o x then nonempty_digits 8 rest
               else if is_b x then nonempty_digits 2 rest
               else nonempty_digits 10 l
           | "-"%char :: rest => option_map Z.opp (nonempty_digits 10 rest)
           | "+"%char :: rest => nonempty_digits 10 rest
           | _ => nonempty_digits 10 l
           end in
  match r with Some v => inr v | None => err end.

(** *** Seeds *)

Record SerializedRngState := { algorithm : string; state : string * string }.

Section Seeds.
Context {num : Type} `{JsNumber num}.

Inductive SeedInput :=
| SeedNumber (n : num)
| SeedBigInt (b : Z)
| SeedString (s : string)
| SeedPair (s0 s1 : Z)
| SeedSerialized (s : SerializedRngState).

Definition fix_zero (s0 s1 : Z) : Z * Z :=
  if (s0 =? 0) && (s1 =? 0) then (s0, 1) else (s0, s1).

Definition normalizeSeed (seed : option SeedInput) : Exn + (Z * Z) :=
  match seed with
  | Some (SeedNumber n) =>
      match js_to_integer n with
      | Some b => inr (two_words b)
      | None => inl (RangeError "The number cannot be converted to a BigInt because it is not an integer")
      end
  | Some (SeedBigInt b) => inr (two_words b)
  | Some (SeedString s) => inr (two_words (hashString s))
  | Some (SeedPair s0 s1) => inr (fix_zero (toUint64 s0) (toUint64 s1))
  | Some (SeedSerialized ser) =>
      if String.eqb (algorithm ser) "xorshift128+" then
        match parse_bigint (fst (state ser)), parse_bigint (snd (state ser)) with
        | inr a, inr b => inr (fix_zero (toUint64 a) (toUint64 b))
        | inl e, _ => inl e
        | _, inl e => inl e
        end
      else inl (PlainError (String.append "Unsupported RNG algorithm: " (algorithm ser)))
  | None => inr (two_words 1)
  end.
End Seeds.

Record Xorshift128Plus := { state0 : Z; state1 : Z }.

(** [new Xorshift128Plus(seed)] *)
Definition create {num : Type} `{JsNumber num} (seed : option (@SeedInput num)) : Exn + Xorshift128Plus :=
  match normalizeSeed seed with
  | inr (s0, s1) =>
      inr (if (s0 =? 0) && (s1 =? 0) then {| state0 := s0; state1 := 1 |}
           else {| state0 := s0; state1 := s1 |})
  | inl e => inl e
  end.

(** *** value.toString(16) and [toHex] *)

Definition hex_char (d : Z) : ascii :=
  if d <? 10 then ascii_of_nat (Z.to_nat (48 + d)) else ascii_of_nat (Z.to_nat (87 + d)).

Fixpoint digits16 (fuel : nat) (v : Z) (acc : list Z) : list Z :=
  match fuel with
  | O => acc
  | S f => if v <? 16 then (v mod 16) :: acc else digits16 f (v / 16) ((v mod 16) :: acc)
  end.

Definition toString16 (v : Z) : list ascii :=
  map hex_char (digits16 (S (Z.to_nat (Z.log2 v))) v []).

Definition padStart16 (l : list ascii) : list ascii :=
  app (repeat "0"%char (16 - List.length l)) l.

Definition toHex (value : Z) : string :=
  string_of_list_ascii ("0"%char :: "x"%char :: padStart16 (toString16 value)).

Definition serialize (r : Xorshift128Plus) : SerializedRngState :=
  {| algorithm := "xorshift128+"; state := (toHex (state0 r), toHex (state1 r)) |}.

Definition deserialize {num : Type} `{JsNumber num} (s : SerializedRngState) : Exn + Xorshift128Plus :=
  create (num := num) (Some (SeedSerialized s)).

(** *** Drawing *)

Definition nextBigInt (r : Xorshift128Plus) : Z * Xorshift128Plus :=
  let s1 := state0 r in
  let s0 := state1 r in
  let st0 := s0 in
  let s1 := Z.lxor s1 (Z.land (Z.shiftl s1 23) UINT64_MASK) in
  let s1 := Z.lxor s1 (Z.shiftr s1 17) in
  let s1 := Z.lxor s1 s0 in
  let s1 := Z.lxor s1 (Z.shiftr s0 26) in
  let st1 := toUint64 s1 in
  let result := toUint64 (st1 + s0) in
  (result, {| state0 := st0; state1 := st1 |}).

(** The [while (true)] rejection loop of [nextInt], with at most [fuel]
    draws. *)
Fixpoint nextInt_loop (fuel : nat) (bound threshold : Z) : StEx.M Xorshift128Plus Z :=
  match fuel with
  | O => StEx.throw OutOfFuel
  | S f => fun r =>
      let (value, r') := nextBigInt r in
      if value <? threshold then (inr (value mod bound), r')
      else nextInt_loop f bound threshold r'
  end.

Definition nextInt {num : Type} `{JsNumber num} (fuel : nat) (maxExclusive : num)
  : StEx.M Xorshift128Plus num :=
  match js_to_integer maxExclusive with
  | Some bound =>
      if bound <=? 0 then StEx.throw (RangeError "maxExclusive must be a positive integer")
      else let threshold := UINT64_MASK - (UINT64_MASK mod bound) in
           (* [return Number(value % bound)] *)
           StEx.bind (nextInt_loop fuel bound threshold) (fun v => StEx.ret (js_of_Z v))
  | None => StEx.throw (RangeError "maxExclusive must be a positive integer")
  end.

(** [nextFloat()] *)
Definition nextFloat {num : Type} `{JsNumber num} (r : Xorshift128Plus) : num * Xorshift128Plus :=
  let (value, r') := nextBigInt r in
  (js_div (js_of_Z (Z.shiftr value 11)) (js_pow (js_of_Z 2) (js_of_Z 53)), r').

(** [nextRange(minInclusive, maxExclusive)] *)
Definition nextRange {num : Type} `{JsNumber num} (fuel : nat) (minInclusive maxExclusive : num)
  : StEx.M Xorshift128Plus num :=
  match js_to_integer minInclusive, js_to_integer maxExclusive with
  | Some _, Some _ =>
      if js_le maxExclusive minInclusive
      then StEx.throw (RangeError "maxExclusive must be greater than minInclusive")
      else let delta := js_sub maxExclusive minInclusive in
           StEx.bind (nextInt fuel delta) (fun v => StEx.ret (js_add minInclusive v))
  | _, _ => StEx.throw (RangeError "Range boundaries must be integers")
  end.

(** [next()] *)
Definition next {num : Type} `{JsNumber num} (r : Xorshift128Plus) : num * Xorshift128Plus :=
  nextFloat r.

(** [k] draws in a row, and the value of the draw after [j] draws. *)
Fixpoint advance (k : nat) (r : Xorshift128Plus) : Xorshift128Plus :=
  match k with
  | O => r
  | S k => advance k (snd (nextBigInt r))
  end.

Definition draw (j : nat) (r : Xorshift128Plus) : Z := fst (nextBigInt (advance j r)).

(** States an [Xorshift128Plus] object can hold: built by the
    constructor (or [deserialize]) from any seed, then advanced by draws
    ([nextInt], [nextRange] and [nextFloat] are all made of
    [nextBigInt] steps). *)
Inductive reachable {num : Type} `{JsNumber num} : Xorshift128Plus -> Prop :=
| reachable_create (seed : option (@SeedInput num)) r :
    create seed = inr r -> reachable r
| reachable_step r : reachable r -> reachable (snd (nextBigInt r)).

End Rng.

(** The step of [nextBigInt] as the spec words it, on the state
    (word0, word1) = (state0, state1). *)
Module SpecRng.
Definition spec_nextBigInt (r : Rng.Xorshift128Plus) : Z * Rng.Xorshift128Plus :=
  let word0 := Rng.state0 r in
  let word1 := Rng.state1 r in
  let w := Z.lxor word1 (Z.land (Z.shiftl word1 23) Rng.UINT64_MASK) in
  let w := Z.lxor w (Z.shiftr w 17) in
  let w := Z.lxor w word0 in
  let w := Z.lxor w (Z.shiftr word0 26) in
  ((w + word0) mod 2 ^ 64, {| Rng.state0 := word1; Rng.state1 := w |}).

(** The spec's rejection threshold 2^64 - (2^64 mod m). *)
Definition spec_threshold (m : Z) : Z := 2 ^ 64 - (2 ^ 64 mod m).
End SpecRng.

(** ** Plain JS objects used as records ([Record<string, V>]): an
    association list in insertion order; assigning an existing key keeps
    its position, a new key goes last (the order [Object.entries] sees). *)
Module Obj.
Definition t (V : Type) : Type := list (string * V).

Fixpoint lookup {V} (k : string) (o : t V) : option V :=
  match o with
  | [] => None
  | (k', v) :: r => if String.eqb k k' then Some v else lookup k r
  end.

Fixpoint set {V} (k : string) (v : V) (o : t V) : t V :=
  match o with
  | [] => [(k, v)]
  | (k', v') :: r => if String.eqb k k' then (k', v) :: r else (k', v') :: set k v r
  end.
End Obj.

(** ** [expr]: the mini-expression language *)
Module Expr.

Local Open Scope nat_scope.
Local Set Warnings "-register-all".

Record SourceSpan := { start : nat; stop : nat }.

Inductive UnaryOperator := UNot | UMinus.

Inductive BinaryOperator :=
| BOr | BAnd | BEq | BNe | BLt | BLe | BGt | BGe
| BAdd | BSub | BMul | BDiv | BMod | BPow.

Section Syntax.
Context {num : Type}.

Inductive ExpressionNode :=
| NumberLiteral (value : num) (span : SourceSpan)
| BooleanLiteral (value : bool) (span : SourceSpan)
| NullLiteral (span : SourceSpan)
| Identifier (name : string) (span : SourceSpan)
| UnaryExpression (operator : UnaryOperator) (argument : ExpressionNode) (span : SourceSpan)
| BinaryExpression (operator : BinaryOperator) (left_ right_ : ExpressionNode) (span : SourceSpan)
| CallExpression (callee : string) (callee_span : SourceSpan)
                 (arguments : list ExpressionNode) (span : SourceSpan).

Definition span_of (e : ExpressionNode) : SourceSpan :=
  match e with
  | NumberLiteral _ s | BooleanLiteral _ s | NullLiteral s | Identifier _ s
  | UnaryExpression _ _ s | BinaryExpression _ _ _ s | CallExpression _ _ _ s => s
  end.

Record CompiledExpression := { source : string; ast : ExpressionNode }.
End Syntax.

Arguments ExpressionNode : clear implicits.
Arguments CompiledExpression : clear implicits.

(** *** Lexer *)

Inductive TokenType := TNumber | TIdentifier | TOperator | TParen | TComma | TEof.

Record Token := { ttype : TokenType; tvalue : string; tspan : SourceSpan }.

Definition code (c : ascii) : nat := nat_of_ascii c.

(** [/\s/] on ASCII: tab, line feed, vertical tab, form feed, carriage
    return and space. *)
Definition is_space (c : ascii) : bool :=
  ((9 <=? code c) && (code c <=? 13))%nat || (code c =? 32)%nat.
Definition is_digit (c : ascii) : bool := ((48 <=? code c) && (code c <=? 57))%nat.
Definition is_alpha_ (c : ascii) : bool :=
  ((65 <=? code c) && (code c <=? 90))%nat || ((97 <=? code c) && (code c <=? 122))%nat
  || (code c =? 95)%nat.
Definition is_alnum_ (c : ascii) : bool := is_alpha_ c || is_digit c.

Definition operatorTokens : list string :=
  ["||"; "&&"; "=="; "!="; "<="; ">="; "+"; "-"; "*"; "/"; "%"; "^"; "<"; ">"; "!"]%string.

Definition is_operator (s : string) : bool := existsb (String.eqb s) operatorTokens.

(** The inner loop over a number: digits and at most one '.'. *)
Fixpoint lex_number (l : list ascii) (hasDot : bool) : list ascii * list ascii :=
  match l with
  | [] => ([], [])
  | c :: r =>
      if (c =? "."%char)%char then
        (if hasDot then ([], l) else let (a, b) := lex_number r true in (c :: a, b))
      else if is_digit c then let (a, b) := lex_number r hasDot in (c :: a, b)
      else ([], l)
  end.

Fixpoint lex_identifier (l : list ascii) : list ascii * list ascii :=
  match l with
  | c :: r => if is_alnum_ c then let (a, b) := lex_identifier r in (c :: a, b) else ([], l)
  | [] => ([], [])
  end.

Definition mk_token (ty : TokenType) (v : list ascii) (s e : nat) : Token :=
  {| ttype := ty; tvalue := string_of_list_ascii v; tspan := {| start := s; stop := e |} |}.

(** One iteration of the [while (index < length)] loop on the character
    [c] at [index], [r] being the rest of the source: the token pushed
    (if any), the new [index] and the source from there on. *)
Inductive LexStep := Skip | Emit (tok : Token).

Definition lex_one (index : nat) (c : ascii) (r : list ascii)
  : Exn + (LexStep * nat * list ascii) :=
  if is_space c then inr (Skip, S index, r)
  else if is_digit c then
    let (v, rest) := lex_number (c :: r) false in
    inr (Emit (mk_token TNumber v index (index + List.length v)),
         index + List.length v, rest)
  else if is_alpha_ c then
    let (v, rest) := lex_identifier r in
    inr (Emit (mk_token TIdentifier (c :: v) index (index + S (List.length v))),
         index + S (List.length v), rest)
  else if (c =? "("%char)%char || (c =? ")"%char)%char then
    inr (Emit (mk_token TParen [c] index (S index)), S index, r)
  else if (c =? ","%char)%char then
    inr (Emit (mk_token TComma [c] index (S index)), S index, r)
  else
    (* source.slice(index, index + 2): one character at the end *)
    let twoChar := firstn 2 (c :: r) in
    if is_operator (string_of_list_ascii twoChar) then
      inr (Emit (mk_token TOperator twoChar index (index + 2)), index + 2, skipn 1 r)
    else if is_operator (String c EmptyString) then
      inr (Emit (mk_token TOperator [c] index (S index)), S index, r)
    else inl (MiniExprSyntaxError
                (String.append "Unexpected character '" (String c "'"))
                index (S index)).

(** The loop itself; [l] is [source] from [index] on.  Every iteration
    consumes a character, so [length source + 1] is enough fuel. *)
Fixpoint tokenize_from (fuel : nat) (index : nat) (l : list ascii) : Exn + list Token :=
  match fuel with
  | O => inl OutOfFuel
  | S f =>
    match l with
    | [] => inr []
    | c :: r =>
      match lex_one index c r with
      | inl e => inl e
      | inr (Skip, index', rest) => tokenize_from f index' rest
      | inr (Emit tok, index', rest) =>
        match tokenize_from f index' rest with
        | inr ts => inr (tok :: ts)
        | inl e => inl e
        end
      end
    end
  end.

Definition tokenize (source : string) : Exn + list Token :=
  let l := list_ascii_of_string source in
  let n := List.length l in
  match tokenize_from (S n) 0 l with
  | inr ts => inr (app ts [mk_token TEof [] n n])
  | inl e => inl e
  end.

(** *** Parser

    The binary levels of the recursive descent share one shape
    ([expr = sub(); while (next is one of ops) { right = sub(); ... }]):
    [parseLogicalOr] (||) over [parseLogicalAnd] (&&) over
    [parseEquality] (== !=) over [parseComparison] (< <= > >=) over
    [parseAdditive] (+ -) over [parseMultiplicative] (times, / and %) over
    [parseExponent] (^) over [parseUnary] over [parsePrimary]. *)

Inductive Level := LOr | LAnd | LEquality | LComparison | LAdditive
                 | LMultiplicative | LExponent | LUnary | LPrimary.

Definition level_ops (lv : Level) : list (string * BinaryOperator) :=
  match lv with
  | LOr => [("||", BOr)]
  | LAnd => [("&&", BAnd)]
  | LEquality => [("==", BEq); ("!=", BNe)]
  | LComparison => [("<", BLt); ("<=", BLe); (">", BGt); (">=", BGe)]
  | LAdditive => [("+", BAdd); ("-", BSub)]
  | LMultiplicative => [("*", BMul); ("/", BDiv); ("%", BMod)]
  | LExponent => [("^", BPow)]
  | _ => []
  end%string.

Definition next_level (lv : Level) : Level :=
  match lv with
  | LOr => LAnd | LAnd => LEquality | LEquality => LComparison
  | LComparison => LAdditive | LAdditive => LMultiplicative
  | LMultiplicative => LExponent | LExponent => LUnary | _ => LPrimary
  end.

(** The binary operator the token stands for at this level, if any. *)
Definition level_operator (lv : Level) (t : Token) : option BinaryOperator :=
  match ttype t with
  | TOperator =>
      match find (fun p => String.eqb (fst p) (tvalue t)) (level_ops lv) with
      | Some (_, op) => Some op
      | None => None
      end
  | _ => None
  end.

Definition is_paren (p : string) (t : Token) : bool :=
  match ttype t with TParen => String.eqb (tvalue t) p | _ => false end.

Definition undefined_read : Exn := TypeError "Cannot read properties of undefined".

Section Parser.
Context {num : Type} `{JsNumber num}.

Definition PResult A := (Exn + (A * list Token))%type.

Definition unexpected (t : Token) : Exn :=
  MiniExprSyntaxError (String.append "Unexpected token '" (String.append (tvalue t) "'"))
    (start (tspan t)) (stop (tspan t)).

Definition closing_expected (t : Token) : Exn :=
  MiniExprSyntaxError "Expected closing parenthesis" (start (tspan t)) (stop (tspan t)).

Fixpoint parse_level (fuel : nat) (lv : Level) (ts : list Token)
  : PResult (ExpressionNode num) :=
  match fuel with
  | O => inl OutOfFuel
  | S f =>
    match lv with
    | LPrimary =>
      match ts with
      | [] => inl undefined_read
      | tok :: rest =>
        match ttype tok with
        | TNumber => inr (NumberLiteral (js_literal (tvalue tok)) (tspan tok), rest)
        | TIdentifier =>
          if String.eqb (tvalue tok) "true" then inr (BooleanLiteral true (tspan tok), rest)
          else if String.eqb (tvalue tok) "false" then inr (BooleanLiteral false (tspan tok), rest)
          else if String.eqb (tvalue tok) "null" then inr (NullLiteral (tspan tok), rest)
          else
            match rest with
            | p :: rest' =>
              if is_paren "(" p then
                let args_result :=
                  match rest' with
                  | q :: _ => if is_paren ")" q then inr ([], rest') else parse_args f rest' []
                  | [] => inl undefined_read
                  end in
                match args_result with
                | inl e => inl e
                | inr (args, rest'') =>
                  match rest'' with
                  | q :: rest3 =>
                    if is_paren ")" q then
                      inr (CallExpression (tvalue tok) (tspan tok) args
                             {| start := start (tspan tok); stop := stop (tspan q) |}, rest3)
                    else inl (closing_expected q)
                  | [] => inl undefined_read
                  end
                end
              else inr (Identifier (tvalue tok) (tspan tok), rest)
            | [] => inl undefined_read
            end
        | TParen =>
          if negb (String.eqb (tvalue tok) "(") then inl (unexpected tok)
          else
            match parse_level f LOr rest with
            | inl e => inl e
            | inr (e, rest') =>
              match rest' with
              | closing :: rest'' =>
                if is_paren ")" closing then inr (e, rest'') else inl (closing_expected closing)
              | [] => inl undefined_read
              end
            end
        | _ => inl (unexpected tok)
        end
      end
    | LUnary =>
      match ts with
      | [] => inl undefined_read
      | tok :: rest =>
        let op := match ttype tok with
                  | TOperator => if String.eqb (tvalue tok) "!" then Some UNot
                                 else if String.eqb (tvalue tok) "-" then Some UMinus
                                 else None
                  | _ => None
                  end in
        match op with
        | Some o =>
          match parse_level f LUnary rest with
          | inl e => inl e
          | inr (arg, rest') =>
            inr (UnaryExpression o arg
                   {| start := start (tspan tok); stop := stop (span_of arg) |}, rest')
          end
        | None => parse_level f LPrimary ts
        end
      end
    | _ =>
      match parse_level f (next_level lv) ts with
      | inl e => inl e
      | inr (expr, rest) => parse_loop f lv expr rest
      end
    end
  end
(** the [while] loop of a binary level *)
with parse_loop (fuel : nat) (lv : Level) (expr : ExpressionNode num) (ts : list Token)
  : PResult (ExpressionNode num) :=
  match fuel with
  | O => inl OutOfFuel
  | S f =>
    match ts with
    | [] => inl undefined_read
    | tok :: rest =>
      match level_operator lv tok with
      | Some op =>
        match parse_level f (next_level lv) rest with
        | inl e => inl e
        | inr (right_expr, rest') =>
          parse_loop f lv
            (BinaryExpression op expr right_expr
               {| start := start (span_of expr); stop := stop (span_of right_expr) |}) rest'
        end
      | None => inr (expr, ts)
      end
    end
  end
(** [do { args.push(parseExpressionInner()); } while (match('comma'))] *)
with parse_args (fuel : nat) (ts : list Token) (acc : list (ExpressionNode num))
  : PResult (list (ExpressionNode num)) :=
  match fuel with
  | O => inl OutOfFuel
  | S f =>
    match parse_level f LOr ts with
    | inl e => inl e
    | inr (arg, rest) =>
      match rest with
      | t :: rest' =>
        match ttype t with
        | TComma => parse_args f rest' (app acc [arg])
        | _ => inr (app acc [arg], rest)
        end
      | [] => inl undefined_read
      end
    end
  end.

Definition parse_fuel (ts : list Token) : nat := 16 * S (List.length ts).

Definition parseExpression (src : string) : Exn + ExpressionNode num :=
  match tokenize src with
  | inl e => inl e
  | inr ts =>
    match parse_level (parse_fuel ts) LOr ts with
    | inl e => inl e
    | inr (e, rest) =>
      match rest with
      | t :: _ =>
        match ttype t with
        | TEof => inr e
        | _ => inl (MiniExprSyntaxError "Unexpected input after expression"
                      (start (tspan t)) (stop (tspan t)))
        end
      | [] => inl undefined_read
      end
    end
  end.

Definition compileExpression (src : string) : Exn + CompiledExpression num :=
  match parseExpression src with
  | inr e => inr {| source := src; ast := e |}
  | inl e => inl e
  end.
End Parser.

(** *** Evaluator *)

Section Eval.
Context {num : Type} `{JsNumber num}.

Inductive MiniValue := VNum (n : num) | VBool (b : bool) | VNull.

(** [EvaluationContext]; its [rng] (an [Xorshift128Plus], the only RNG
    of the repository) is the state of the evaluation monad, [None]
    when the context has none.  [rng_fuel] bounds the rejection loop of
    each [nextInt]. *)
Record EvaluationContext := {
  variables : option (Obj.t MiniValue);
  functions : option (Obj.t (list MiniValue -> Exn + MiniValue))
}.

Definition EvalM (A : Type) : Type := StEx.M (option Rng.Xorshift128Plus) A.

Definition eval_error {A} (msg : string) : EvalM A :=
  StEx.throw (MiniExprEvaluationError msg).

Definition asNumber (value : MiniValue) (message : string) : EvalM num :=
  match value with
  | VNum n => if js_is_finite n then StEx.ret n else eval_error message
  | _ => eval_error message
  end.

Definition asBoolean (value : MiniValue) (message : string) : EvalM bool :=
  match value with
  | VBool b => StEx.ret b
  | _ => eval_error message
  end.

(** [Boolean(value)] *)
Definition truthy (value : MiniValue) : bool :=
  match value with VNum n => js_truthy n | VBool b => b | VNull => false end.

(** [left === right] *)
Definition strict_equals (a b : MiniValue) : bool :=
  match a, b with
  | VNum x, VNum y => js_eqb x y
  | VBool x, VBool y => Bool.eqb x y
  | VNull, VNull => true
  | _, _ => false
  end.

Variable rng_fuel : nat.

(** [context.rng.nextInt(sides)] *)
Definition rng_nextInt (sides : num) : EvalM num :=
  fun s => match s with
           | None => (inl undefined_read, None)
           | Some r =>
             let (res, r') := Rng.nextInt rng_fuel sides r in
             (res, Some r')
           end.

Fixpoint dice_loop (n : nat) (sides total : num) : EvalM num :=
  match n with
  | O => StEx.ret total
  | S k => roll <- rng_nextInt sides ;;
           dice_loop k sides (js_add total (js_add roll (js_of_Z 1)))
  end.

Definition rollDice (sides count : num) : EvalM num :=
  s <- StEx.get ;;
  match s with
  | None => eval_error "Dice functions require an RNG in the evaluation context"
  | Some _ =>
    match js_to_integer sides with
    | Some zs => if (zs <? 1)%Z then eval_error "Dice sides must be a positive integer" else
      match js_to_integer count with
      | Some zc => if (zc <? 1)%Z then eval_error "Dice count must be a positive integer"
                   else dice_loop (Z.to_nat zc) sides (js_of_Z 0)
      | None => eval_error "Dice count must be a positive integer"
      end
    | None => eval_error "Dice sides must be a positive integer"
    end
  end.

(** The builtins receive their arguments unevaluated ([evaluate(arg)]
    is called by the builtin): each argument is an evaluation thunk. *)
Definition Thunk := EvalM MiniValue.

Definition number_arg (a : Thunk) (message : string) : EvalM num :=
  v <- a ;; asNumber v message.

Fixpoint min_loop (args : list Thunk) (m : num) : EvalM num :=
  match args with
  | [] => StEx.ret m
  | a :: r => value <- number_arg a "MIN arguments must be numbers" ;;
              min_loop r (if js_lt value m then value else m)
  end.

Fixpoint max_loop (args : list Thunk) (m : num) : EvalM num :=
  match args with
  | [] => StEx.ret m
  | a :: r => value <- number_arg a "MAX arguments must be numbers" ;;
              max_loop r (if js_lt m value then value else m)
  end.

Definition ret_num (m : EvalM num) : EvalM MiniValue := n <- m ;; StEx.ret (VNum n).

Definition builtinFunctions (name : string) : option (list Thunk -> EvalM MiniValue) :=
  if String.eqb name "IF" then Some (fun args =>
    match args with
    | [a0; a1; a2] => condition <- a0 ;; if truthy condition then a1 else a2
    | _ => eval_error "IF expects exactly three arguments"
    end)
  else if String.eqb name "MIN" then Some (fun args =>
    match args with
    | [] => eval_error "MIN expects at least one argument"
    | _ => ret_num (min_loop args js_pos_inf)
    end)
  else if String.eqb name "MAX" then Some (fun args =>
    match args with
    | [] => eval_error "MAX expects at least one argument"
    | _ => ret_num (max_loop args js_neg_inf)
    end)
  else if String.eqb name "CLAMP" then Some (fun args =>
    match args with
    | [a0; a1; a2] =>
      value <- number_arg a0 "CLAMP value must be a number" ;;
      min <- number_arg a1 "CLAMP minimum must be a number" ;;
      max <- number_arg a2 "CLAMP maximum must be a number" ;;
      if js_lt max min then eval_error "CLAMP minimum cannot exceed maximum"
      else StEx.ret (VNum (js_min (js_max value min) max))
    | _ => eval_error "CLAMP expects exactly three arguments"
    end)
  else if String.eqb name "ABS" then Some (fun args =>
    match args with
    | [a0] => ret_num (v <- number_arg a0 "ABS argument must be a number" ;; StEx.ret (js_abs v))
    | _ => eval_error "ABS expects exactly one argument"
    end)
  else if String.eqb name "FLOOR" then Some (fun args =>
    match args with
    | [a0] => ret_num (v <- number_arg a0 "FLOOR argument must be a number" ;; StEx.ret (js_floor v))
    | _ => eval_error "FLOOR expects exactly one argument"
    end)
  else if String.eqb name "CEIL" then Some (fun args =>
    match args with
    | [a0] => ret_num (v <- number_arg a0 "CEIL argument must be a number" ;; StEx.ret (js_ceil v))
    | _ => eval_error "CEIL expects exactly one argument"
    end)
  else if String.eqb name "ROUND" then Some (fun args =>
    match args with
    | [a0] => ret_num (v <- number_arg a0 "ROUND value must be a number" ;; StEx.ret (js_round v))
    | [a0; a1] =>
      value <- number_arg a0 "ROUND value must be a number" ;;
      precision <- number_arg a1 "ROUND precision must be a number" ;;
      let factor := js_pow (js_of_Z 10) precision in
      StEx.ret (VNum (js_div (js_round (js_mul value factor)) factor))
    | _ => eval_error "ROUND expects one or two arguments"
    end)
  else if String.eqb name "D6" then Some (fun args =>
    count <- match args with
             | [] => StEx.ret (js_of_Z 1)
             | a0 :: _ => number_arg a0 "D6 argument must be a number"
             end ;;
    ret_num (rollDice (js_of_Z 6) count))
  else if String.eqb name "D" then Some (fun args =>
    match args with
    | [] => eval_error "D expects at least one argument"
    | a0 :: rest =>
      sides <- number_arg a0 "D sides must be a number" ;;
      count <- match rest with
               | [] => StEx.ret (js_of_Z 1)
               | a1 :: _ => number_arg a1 "D count must be a number"
               end ;;
      ret_num (rollDice sides count)
    end)
  else None.

Fixpoint all_values (ms : list Thunk) : EvalM (list MiniValue) :=
  match ms with
  | [] => StEx.ret []
  | m :: r => v <- m ;; vs <- all_values r ;; StEx.ret (v :: vs)
  end.

Section Node.
Variable vars : Obj.t MiniValue.
Variable funcs : Obj.t (list MiniValue -> Exn + MiniValue).

Definition numeric_args (l r : Thunk) (message : string) : EvalM (num * num) :=
  x <- number_arg l message ;; y <- number_arg r message ;; StEx.ret (x, y).

Definition binary (op : BinaryOperator) (l r : Thunk) : EvalM MiniValue :=
  match op with
  | BOr => left_ <- l ;; if truthy left_ then StEx.ret (VBool true)
                         else right_ <- r ;; StEx.ret (VBool (truthy right_))
  | BAnd => left_ <- l ;; if negb (truthy left_) then StEx.ret (VBool false)
                          else right_ <- r ;; StEx.ret (VBool (truthy right_))
  | BEq => left_ <- l ;; right_ <- r ;; StEx.ret (VBool (strict_equals left_ right_))
  | BNe => left_ <- l ;; right_ <- r ;; StEx.ret (VBool (negb (strict_equals left_ right_)))
  | BLt => p <- numeric_args l r "Comparison operands must be numbers" ;;
           StEx.ret (VBool (js_lt (fst p) (snd p)))
  | BLe => p <- numeric_args l r "Comparison operands must be numbers" ;;
           StEx.ret (VBool (js_le (fst p) (snd p)))
  | BGt => p <- numeric_args l r "Comparison operands must be numbers" ;;
           StEx.ret (VBool (js_lt (snd p) (fst p)))
  | BGe => p <- numeric_args l r "Comparison operands must be numbers" ;;
           StEx.ret (VBool (js_le (snd p) (fst p)))
  | BAdd => p <- numeric_args l r "Addition operands must be numbers" ;;
            StEx.ret (VNum (js_add (fst p) (snd p)))
  | BSub => p <- numeric_args l r "Subtraction operands must be numbers" ;;
            StEx.ret (VNum (js_sub (fst p) (snd p)))
  | BMul => p <- numeric_args l r "Multiplication operands must be numbers" ;;
            StEx.ret (VNum (js_mul (fst p) (snd p)))
  | BDiv => p <- numeric_args l r "Division operands must be numbers" ;;
            if js_eqb (snd p) (js_of_Z 0) then eval_error "Division by zero"
            else StEx.ret (VNum (js_div (fst p) (snd p)))
  | BMod => p <- numeric_args l r "Modulo operands must be numbers" ;;
            if js_eqb (snd p) (js_of_Z 0) then eval_error "Modulo by zero"
            else StEx.ret (VNum (js_mod (fst p) (snd p)))
  | BPow => p <- numeric_args l r "Exponentiation operands must be numbers" ;;
            StEx.ret (VNum (js_pow (fst p) (snd p)))
  end.

Fixpoint evaluateNode (node : ExpressionNode num) : EvalM MiniValue :=
  match node with
  | NumberLiteral v _ => StEx.ret (VNum v)
  | BooleanLiteral b _ => StEx.ret (VBool b)
  | NullLiteral _ => StEx.ret VNull
  | Identifier name _ =>
    match Obj.lookup name vars with
    | Some v => StEx.ret v
    | None => eval_error (String.append "Unknown identifier '" (String.append name "'"))
    end
  | UnaryExpression op arg _ =>
    argument <- evaluateNode arg ;;
    match op with
    | UNot => b <- asBoolean argument "Logical not expects a boolean operand" ;;
              StEx.ret (VBool (negb b))
    | UMinus => n <- asNumber argument "Unary minus expects a numeric operand" ;;
                StEx.ret (VNum (js_neg n))
    end
  | BinaryExpression op l r _ => binary op (evaluateNode l) (evaluateNode r)
  | CallExpression name _ args _ =>
    let arg_thunks :=
      (fix thunks (l : list (ExpressionNode num)) : list Thunk :=
         match l with [] => [] | a :: rest => evaluateNode a :: thunks rest end) args in
    match Obj.lookup name funcs with
    | Some userHandler =>
      values <- all_values arg_thunks ;; StEx.liftE (userHandler values)
    | None =>
      match builtinFunctions name with
      | Some builtin => builtin arg_thunks
      | None => eval_error (String.append "Unknown function '" (String.append name "'"))
      end
    end
  end.
End Node.

Definition evaluateExpression (compiled : CompiledExpression num)
    (context : EvaluationContext) : EvalM MiniValue :=
  evaluateNode (match variables context with Some v => v | None => [] end)
               (match functions context with Some f => f | None => [] end)
               (ast compiled).
End Eval.

Arguments MiniValue : clear implicits.
Arguments EvaluationContext : clear implicits.

(** [listIdentifiers(node, identifiers)]: the [Set] as a list in
    insertion order. *)
Definition set_add (x : string) (s : list string) : list string :=
  if existsb (String.eqb x) s then s else app s [x].

Fixpoint listIdentifiers {num : Type} (node : ExpressionNode num) (identifiers : list string)
  : list string :=
  match node with
  | Identifier name _ => set_add name identifiers
  | UnaryExpression _ arg _ => listIdentifiers arg identifiers
  | BinaryExpression _ l r _ => listIdentifiers r (listIdentifiers l identifiers)
  | CallExpression _ _ args _ =>
    (fix each (l : list (ExpressionNode num)) (acc : list string) : list string :=
       match l with [] => acc | a :: rest => each rest (listIdentifiers a acc) end) args identifiers
  | _ => identifiers
  end.

End Expr.

(** ** [session.ts]: the game session state machine *)
Module Session.
Import Expr.
Local Open Scope string_scope.

Inductive GamePhase := PSetup | PRoll | PChoose | PApply | PEnd | PComplete.

Definition phase_name (p : GamePhase) : string :=
  match p with
  | PSetup => "setup" | PRoll => "roll" | PChoose => "choose"
  | PApply => "apply" | PEnd => "end" | PComplete => "complete"
  end.

Definition phase_eqb (p q : GamePhase) : bool := String.eqb (phase_name p) (phase_name q).

Inductive ThresholdComparison := CmpGt | CmpGe | CmpLt | CmpLe | CmpEq | CmpNe.

Section Types.
Context {num : Type}.

(** [ResourceDefinition] (label and description left out) *)
Record ResourceDefinition := {
  resource_id : string; initial : num; min : option num; max : option num }.

Record DiceDefinition := { dice_id : string; sides : num; count : num }.

Record CompiledActionEffect := {
  effect_resource : string; effect_clamp : option bool; effect_ast : CompiledExpression num }.

Record CompiledAction := {
  action_id : string; priority : num; effects : list CompiledActionEffect;
  conditionAst : option (CompiledExpression num) }.

Inductive EndConditionDefinition :=
| TurnLimit (limit : num)
| ResourceThreshold (resource : string) (comparison : ThresholdComparison) (value : num).

(** [CompiledTemplate]; [scoring_total] is [scoring.total]. *)
Record CompiledTemplate := {
  template_id : string; version : string;
  resources_of : list ResourceDefinition; dice : list DiceDefinition;
  actions : list CompiledAction; scoring_total : CompiledExpression num;
  endConditions : list EndConditionDefinition;
  resourceMap : Obj.t ResourceDefinition }.

Definition ResourceSnapshot := Obj.t num.

Record RollResult := {
  diceId : string; values : list num; total : num; highest : num; lowest : num }.

Inductive GameEvent :=
| SetupEvent (turn : num) (resources : ResourceSnapshot) (timestamp : nat)
| RollEvent (turn : num) (roll : RollResult) (timestamp : nat)
| ChooseEvent (turn : num) (actionId : string) (timestamp : nat)
| ApplyEvent (turn : num) (deltas resulting : Obj.t num) (timestamp : nat)
| EndTurnEvent (turn : num) (resources : ResourceSnapshot) (timestamp : nat)
| CompleteEvent (turn : num) (finalScore : num) (resources : ResourceSnapshot) (timestamp : nat).

Definition event_timestamp (e : GameEvent) : nat :=
  match e with
  | SetupEvent _ _ t | RollEvent _ _ t | ChooseEvent _ _ t | ApplyEvent _ _ _ t
  | EndTurnEvent _ _ t | CompleteEvent _ _ _ t => t
  end.

Definition event_phase (e : GameEvent) : GamePhase :=
  match e with
  | SetupEvent _ _ _ => PSetup | RollEvent _ _ _ => PRoll | ChooseEvent _ _ _ => PChoose
  | ApplyEvent _ _ _ _ => PApply | EndTurnEvent _ _ _ => PEnd | CompleteEvent _ _ _ _ => PComplete
  end.

Record ReplayTurn := {
  rt_turn : num; rt_roll : RollResult; rt_actionId : string; rt_resources : ResourceSnapshot }.

(** [Partial<ReplayTurn>] as built during a turn *)
Record PartialReplayTurn := {
  pt_turn : num; pt_roll : option RollResult; pt_actionId : option string;
  pt_resources : option ResourceSnapshot }.

Record ReplayRecord := {
  templateId : string; templateVersion : string; seed : Rng.SerializedRngState;
  turns : list ReplayTurn; replay_finalScore : num }.

(** The fields of a [GameSession] object. *)
Record GameSession := {
  template : CompiledTemplate;
  rng : Rng.Xorshift128Plus;
  initialSeed : Rng.SerializedRngState;
  phase : GamePhase;
  turn : num;
  resources : ResourceSnapshot;
  history : list GameEvent;
  rollResult : option RollResult;
  chosenAction : option CompiledAction;
  replayTurns : list ReplayTurn;
  currentReplayTurn : option PartialReplayTurn;
  finalScore : option num;
  timestampCounter : nat }.

Record ApplyOutcome := { deltas : Obj.t num; resulting : ResourceSnapshot }.

Record GameSnapshot := {
  snap_template : CompiledTemplate; snap_phase : GamePhase; snap_turn : num;
  snap_resources : ResourceSnapshot; snap_roll : option RollResult;
  availableActions : list CompiledAction }.

Record DecisionPolicyContext := { session : GameSnapshot; context_actions : list CompiledAction }.
End Types.

Arguments ResourceDefinition : clear implicits.
Arguments ResourceSnapshot : clear implicits.
Arguments DiceDefinition : clear implicits.
Arguments CompiledActionEffect : clear implicits.
Arguments CompiledAction : clear implicits.
Arguments EndConditionDefinition : clear implicits.
Arguments CompiledTemplate : clear implicits.
Arguments RollResult : clear implicits.
Arguments GameEvent : clear implicits.
Arguments ReplayTurn : clear implicits.
Arguments PartialReplayTurn : clear implicits.
Arguments ReplayRecord : clear implicits.
Arguments GameSession : clear implicits.
Arguments ApplyOutcome : clear implicits.
Arguments GameSnapshot : clear implicits.
Arguments DecisionPolicyContext : clear implicits.

(** Assignments to one field of the session object. *)
Section Setters.
Context {num : Type}.

Definition set_template (v : CompiledTemplate num) (s : GameSession num) : GameSession num :=
  {| template := v; rng := rng s; initialSeed := initialSeed s; phase := phase s;
     turn := turn s; resources := resources s; history := history s;
     rollResult := rollResult s; chosenAction := chosenAction s; replayTurns := replayTurns s;
     currentReplayTurn := currentReplayTurn s; finalScore := finalScore s;
     timestampCounter := timestampCounter s |}.

Definition set_rng (v : Rng.Xorshift128Plus) (s : GameSession num) : GameSession num :=
  {| template := template s; rng := v; initialSeed := initialSeed s; phase := phase s;
     turn := turn s; resources := resources s; history := history s;
     rollResult := rollResult s; chosenAction := chosenAction s; replayTurns := replayTurns s;
     currentReplayTurn := currentReplayTurn s; finalScore := finalScore s;
     timestampCounter := timestampCounter s |}.

Definition set_initialSeed (v : Rng.SerializedRngState) (s : GameSession num) : GameSession num :=
  {| template := template s; rng := rng s; initialSeed := v; phase := phase s; turn := turn s;
     resources := resources s; history := history s; rollResult := rollResult s;
     chosenAction := chosenAction s; replayTurns := replayTurns s;
     currentReplayTurn := currentReplayTurn s; finalScore := finalScore s;
     timestampCounter := timestampCounter s |}.

Definition set_phase (v : GamePhase) (s : GameSession num) : GameSession num :=
  {| template := template s; rng := rng s; initialSeed := initialSeed s; phase := v;
     turn := turn s; resources := resources s; history := history s;
     rollResult := rollResult s; chosenAction := chosenAction s; replayTurns := replayTurns s;
     currentReplayTurn := currentReplayTurn s; finalScore := finalScore s;
     timestampCounter := timestampCounter s |}.

Definition set_turn (v : num) (s : GameSession num) : GameSession num :=
  {| template := template s; rng := rng s; initialSeed := initialSeed s; phase := phase s;
     turn := v; resources := resources s; history := history s; rollResult := rollResult s;
     chosenAction := chosenAction s; replayTurns := replayTurns s;
     currentReplayTurn := currentReplayTurn s; finalScore := finalScore s;
     timestampCounter := timestampCounter s |}.

Definition set_resources (v : ResourceSnapshot num) (s : GameSession num) : GameSession num :=
  {| template := template s; rng := rng s; initialSeed := initialSeed s; phase := phase s;
     turn := turn s; resources := v; history := history s; rollResult := rollResult s;
     chosenAction := chosenAction s; replayTurns := replayTurns s;
     currentReplayTurn := currentReplayTurn s; finalScore := finalScore s;
     timestampCounter := timestampCounter s |}.

Definition set_history (v : list (GameEvent num)) (s : GameSession num) : GameSession num :=
  {| template := template s; rng := rng s; initialSeed := initialSeed s; phase := phase s;
     turn := turn s; resources := resources s; history := v; rollResult := rollResult s;
     chosenAction := chosenAction s; replayTurns := replayTurns s;
     currentReplayTurn := currentReplayTurn s; finalScore := finalScore s;
     timestampCounter := timestampCounter s |}.

Definition set_rollResult (v : option (RollResult num)) (s : GameSession num) : GameSession num :=
  {| template := template s; rng := rng s; initialSeed := initialSeed s; phase := phase s;
     turn := turn s; resources := resources s; history := history s; rollResult := v;
     chosenAction := chosenAction s; replayTurns := replayTurns s;
     currentReplayTurn := currentReplayTurn s; finalScore := finalScore s;
     timestampCounter := timestampCounter s |}.

Definition set_chosenAction (v : option (CompiledAction num)) (s : GameSession num) : GameSession num :=
  {| template := template s; rng := rng s; initialSeed := initialSeed s; phase := phase s;
     turn := turn s; resources := resources s; history := history s;
     rollResult := rollResult s; chosenAction := v; replayTurns := replayTurns s;
     currentReplayTurn := currentReplayTurn s; finalScore := finalScore s;
     timestampCounter := timestampCounter s |}.

Definition set_replayTurns (v : list (ReplayTurn num)) (s : GameSession num) : GameSession num :=
  {| template := template s; rng := rng s; initialSeed := initialSeed s; phase := phase s;
     turn := turn s; resources := resources s; history := history s;
     rollResult := rollResult s; chosenAction := chosenAction s; replayTurns := v;
     currentReplayTurn := currentReplayTurn s; finalScore := finalScore s;
     timestampCounter := timestampCounter s |}.

Definition set_currentReplayTurn (v : option (PartialReplayTurn num)) (s : GameSession num) : GameSession num :=
  {| template := template s; rng := rng s; initialSeed := initialSeed s; phase := phase s;
     turn := turn s; resources := resources s; history := history s;
     rollResult := rollResult s; chosenAction := chosenAction s; replayTurns := replayTurns s;
     currentReplayTurn := v; finalScore := finalScore s;
     timestampCounter := timestampCounter s |}.

Definition set_finalScore (v : option num) (s : GameSession num) : GameSession num :=
  {| template := template s; rng := rng s; initialSeed := initialSeed s; phase := phase s;
     turn := turn s; resources := resources s; history := history s;
     rollResult := rollResult s; chosenAction := chosenAction s; replayTurns := replayTurns s;
     currentReplayTurn := currentReplayTurn s; finalScore := v;
     timestampCounter := timestampCounter s |}.

Definition set_timestampCounter (v : nat) (s : GameSession num) : GameSession num :=
  {| template := template s; rng := rng s; initialSeed := initialSeed s; phase := phase s;
     turn := turn s; resources := resources s; history := history s;
     rollResult := rollResult s; chosenAction := chosenAction s; replayTurns := replayTurns s;
     currentReplayTurn := currentReplayTurn s; finalScore := finalScore s;
     timestampCounter := v |}.

End Setters.

Section Ops.
Context {num : Type} `{JsNumber num}.

Definition SessionM (A : Type) : Type := StEx.M (GameSession num) A.

Definition str (l : list string) : string := String.concat EmptyString l.

Definition phase_mismatch (current expected : GamePhase) : string :=
  str ["Cannot perform action in phase '"; phase_name current; "'. Expected '";
       phase_name expected; "'."].

Definition ensurePhase (expected : GamePhase) : SessionM unit :=
  fun s => if phase_eqb (phase s) expected then (inr tt, s)
           else (inl (PlainError (phase_mismatch (phase s) expected)), s).

Definition nextTimestamp : SessionM nat :=
  fun s => let c := S (timestampCounter s) in (inr c, set_timestampCounter c s).

Definition recordEvent (event : GameEvent num) : SessionM unit :=
  StEx.modify (fun s => set_history (app (history s) [event]) s).

(** [recordEvent({..., timestamp: this.nextTimestamp()})] *)
Definition record (mk : nat -> GameEvent num) : SessionM unit :=
  ts <- nextTimestamp ;; recordEvent (mk ts).

Definition startTurnLog : SessionM unit :=
  StEx.modify (fun s => set_currentReplayTurn
    (Some {| pt_turn := turn s; pt_roll := None; pt_actionId := None; pt_resources := None |}) s).

(** [this.currentReplayTurn.f = v] when [currentReplayTurn] is set *)
Definition update_turn_log (f : PartialReplayTurn num -> PartialReplayTurn num) : SessionM unit :=
  StEx.modify (fun s => set_currentReplayTurn (option_map f (currentReplayTurn s)) s).

Definition finalizeTurnLog : SessionM unit :=
  StEx.modify (fun s =>
    let s := match currentReplayTurn s with
             | Some {| pt_turn := t; pt_roll := Some r; pt_actionId := Some (String c l);
                       pt_resources := Some res |} =>
                 set_replayTurns (app (replayTurns s) [{| rt_turn := t; rt_roll := r;
                   rt_actionId := String c l; rt_resources := res |}]) s
             | _ => s
             end in
    set_currentReplayTurn None s).

(** [createVariables()] *)
Fixpoint set_roll_values (index : nat) (vs : list num) (acc : Obj.t (MiniValue num))
  : Obj.t (MiniValue num) :=
  match vs with
  | [] => acc
  | v :: rest =>
    set_roll_values (S index) rest
      (Obj.set (String.append "roll_" (Z_to_decimal (Z.of_nat (S index)))) (VNum v) acc)
  end.

Definition createVariables (s : GameSession num) : Obj.t (MiniValue num) :=
  let variables := [("turn"%string, VNum (turn s))] in
  let variables := fold_left (fun acc kv => Obj.set (fst kv) (VNum (snd kv)) acc)
                             (resources s) variables in
  match rollResult s with
  | None => variables
  | Some r =>
    let variables := Obj.set "roll_total" (VNum (total r)) variables in
    let variables := Obj.set "roll_high" (VNum (highest r)) variables in
    let variables := Obj.set "roll_low" (VNum (lowest r)) variables in
    set_roll_values 0 (values r) variables
  end.

(** [evaluateExpression(ast, { variables })]: no RNG in the context, so
    the evaluation state stays [None] and no draw is made. *)
Definition session_eval (c : CompiledExpression num) (variables : Obj.t (MiniValue num))
  : Exn + MiniValue num :=
  fst (evaluateExpression 0 c {| Expr.variables := Some variables; functions := None |} None).

(** *** [roll()] *)

Definition rng_nextInt (fuel : nat) (sides : num) : SessionM num :=
  fun s => let (res, r') := Rng.nextInt fuel sides (rng s) in (res, set_rng r' s).

Fixpoint roll_loop (fuel : nat) (count sides : num) (i : Z) : SessionM (list num) :=
  match fuel with
  | O => StEx.throw OutOfFuel
  | S f =>
    if js_lt (js_of_Z i) count then
      v <- rng_nextInt fuel sides ;;
      rest <- roll_loop f count sides (i + 1) ;;
      StEx.ret (js_add v (js_of_Z 1) :: rest)
    else StEx.ret []
  end.

Definition roll (fuel : nat) : SessionM (RollResult num) :=
  ensurePhase PRoll ;;;
  s <- StEx.get ;;
  match dice (template s) with
  | [] => StEx.throw undefined_read
  | d :: _ =>
    vs <- roll_loop fuel (count d) (sides d) 0 ;;
    let r := {| diceId := dice_id d; values := vs;
                total := fold_left js_add vs (js_of_Z 0);
                highest := fold_left js_max vs js_neg_inf;
                lowest := fold_left js_min vs js_pos_inf |} in
    StEx.modify (set_rollResult (Some r)) ;;;
    StEx.modify (set_phase PChoose) ;;;
    startTurnLog ;;;
    update_turn_log (fun p => {| pt_turn := pt_turn p; pt_roll := Some r;
      pt_actionId := pt_actionId p; pt_resources := pt_resources p |}) ;;;
    s <- StEx.get ;;
    record (RollEvent (turn s) r) ;;;
    StEx.ret r
  end.

(** *** [listAvailableActions()] *)

Fixpoint available_loop (s : GameSession num) (l : list (CompiledAction num))
  : Exn + list (CompiledAction num) :=
  match l with
  | [] => inr []
  | action :: rest =>
    let keep (b : bool) :=
      match available_loop s rest with
      | inl e => inl e
      | inr r => inr (if b then action :: r else r)
      end in
    match conditionAst action with
    | None => keep true
    | Some c =>
      match session_eval c (createVariables s) with
      | inl e => inl e
      | inr (VBool b) => keep b
      | inr _ => inl (MiniExprEvaluationError
                       (str ["Condition for action '"; action_id action; "' must evaluate to a boolean"]))
      end
    end
  end.

Definition listAvailableActions (s : GameSession num) : Exn + list (CompiledAction num) :=
  match rollResult s with
  | None => inr []
  | Some _ => available_loop s (actions (template s))
  end.

Definition getSnapshot (s : GameSession num) : Exn + GameSnapshot num :=
  match listAvailableActions s with
  | inl e => inl e
  | inr available =>
    inr {| snap_template := template s; snap_phase := phase s; snap_turn := turn s;
           snap_resources := resources s; snap_roll := rollResult s;
           availableActions := available |}
  end.

(** *** [choose(actionId)] *)

Definition choose (actionId : string) : SessionM (CompiledAction num) :=
  ensurePhase PChoose ;;;
  s <- StEx.get ;;
  available <- StEx.liftE (listAvailableActions s) ;;
  match find (fun candidate => String.eqb (action_id candidate) actionId) available with
  | None => StEx.throw (PlainError (str ["Action '"; actionId; "' is not available during turn ";
                                          js_to_string (turn s)]))
  | Some action =>
    StEx.modify (set_chosenAction (Some action)) ;;;
    StEx.modify (set_phase PApply) ;;;
    update_turn_log (fun p => {| pt_turn := pt_turn p; pt_roll := pt_roll p;
      pt_actionId := Some (action_id action); pt_resources := pt_resources p |}) ;;;
    record (ChooseEvent (turn s) (action_id action)) ;;;
    StEx.ret action
  end.

(** *** [apply()] *)

(** The locals [deltas], [resulting] and [variables] of
    [applyChosenAction]. *)
Record ApplyState := {
  acc_deltas : Obj.t num; acc_resulting : ResourceSnapshot num;
  acc_variables : Obj.t (MiniValue num) }.

Definition lookup_or {V} (k : string) (o : Obj.t V) (d : V) : V :=
  match Obj.lookup k o with Some v => v | None => d end.

(** One iteration of the [for (const effect of ...)] loop. *)
Definition effect_step (t : CompiledTemplate num) (action : CompiledAction num)
    (effect : CompiledActionEffect num) (acc : ApplyState) : Exn + ApplyState :=
  let r := effect_resource effect in
  let not_number := MiniExprEvaluationError
                      (str ["Effect for resource '"; r; "' must evaluate to a number"]) in
  match session_eval (effect_ast effect) (acc_variables acc) with
  | inl e => inl e
  | inr (VNum value) =>
    if js_is_nan value then inl not_number else
    match Obj.lookup r (resourceMap t) with
    | None => inl (PlainError (str ["Unknown resource '"; r; "' referenced by action '";
                                    action_id action; "'"]))
    | Some definition =>
      let previous := lookup_or r (acc_resulting acc) js_nan in
      let updated := js_add previous value in
      let below := match min definition with Some m => js_lt updated m | None => false end in
      if below then
        inl (PlainError (str ["Resource '"; r; "' cannot drop below ";
                              match min definition with Some m => js_to_string m | None => EmptyString end]))
      else
      match max definition with
      | Some m =>
        if js_lt m updated then
          if match effect_clamp effect with Some true => true | _ => false end then
            inr {| acc_deltas := Obj.set r (js_sub m previous) (acc_deltas acc);
                   acc_resulting := Obj.set r m (acc_resulting acc);
                   acc_variables := Obj.set r (VNum m) (acc_variables acc) |}
          else inl (PlainError (str ["Resource '"; r; "' cannot exceed "; js_to_string m]))
        else
          inr {| acc_deltas := Obj.set r (js_add (lookup_or r (acc_deltas acc) (js_of_Z 0)) value)
                                       (acc_deltas acc);
                 acc_resulting := Obj.set r updated (acc_resulting acc);
                 acc_variables := Obj.set r (VNum updated) (acc_variables acc) |}
      | None =>
          inr {| acc_deltas := Obj.set r (js_add (lookup_or r (acc_deltas acc) (js_of_Z 0)) value)
                                       (acc_deltas acc);
                 acc_resulting := Obj.set r updated (acc_resulting acc);
                 acc_variables := Obj.set r (VNum updated) (acc_variables acc) |}
      end
    end
  | inr _ => inl not_number
  end.

Fixpoint apply_effects (t : CompiledTemplate num) (action : CompiledAction num)
    (effs : list (CompiledActionEffect num)) (acc : ApplyState) : Exn + ApplyState :=
  match effs with
  | [] => inr acc
  | effect :: rest =>
    match effect_step t action effect acc with
    | inl e => inl e
    | inr acc' => apply_effects t action rest acc'
    end
  end.

Definition apply_start (s : GameSession num) : ApplyState :=
  {| acc_deltas := []; acc_resulting := resources s; acc_variables := createVariables s |}.

Definition applyChosenAction : SessionM (ApplyOutcome num) :=
  s <- StEx.get ;;
  match chosenAction s with
  | None => StEx.throw (PlainError "No action has been chosen.")
  | Some action =>
    match apply_effects (template s) action (effects action) (apply_start s) with
    | inl e => StEx.throw e
    | inr acc =>
      StEx.modify (set_resources (acc_resulting acc)) ;;;
      StEx.ret {| deltas := acc_deltas acc; resulting := acc_resulting acc |}
    end
  end.

Definition apply : SessionM (ApplyOutcome num) :=
  ensurePhase PApply ;;;
  outcome <- applyChosenAction ;;
  s <- StEx.get ;;
  record (ApplyEvent (turn s) (deltas outcome) (resources s)) ;;;
  update_turn_log (fun p => {| pt_turn := pt_turn p; pt_roll := pt_roll p;
    pt_actionId := pt_actionId p; pt_resources := Some (resources s) |}) ;;;
  StEx.modify (set_chosenAction None) ;;;
  StEx.modify (set_phase PEnd) ;;;
  StEx.ret outcome.

(** *** [endTurn()] *)

Definition threshold_satisfied (c : ThresholdComparison) (value target : num) : bool :=
  match c with
  | CmpGt => js_lt target value
  | CmpGe => js_le target value
  | CmpLt => js_lt value target
  | CmpLe => js_le value target
  | CmpEq => js_eqb value target
  | CmpNe => negb (js_eqb value target)
  end.

Definition shouldEndGame (s : GameSession num) : bool :=
  existsb (fun condition =>
             match condition with
             | TurnLimit limit => js_le limit (turn s)
             | ResourceThreshold r c v => threshold_satisfied c (lookup_or r (resources s) js_nan) v
             end) (endConditions (template s)).

Definition evaluateScore (s : GameSession num) : Exn + num :=
  let err := MiniExprEvaluationError "Scoring expression must resolve to a number" in
  match session_eval (scoring_total (template s)) (createVariables s) with
  | inl e => inl e
  | inr (VNum n) => if js_is_nan n then inl err else inr n
  | inr _ => inl err
  end.

Definition endTurn : SessionM unit :=
  ensurePhase PEnd ;;;
  s <- StEx.get ;;
  record (EndTurnEvent (turn s) (resources s)) ;;;
  finalizeTurnLog ;;;
  s <- StEx.get ;;
  if shouldEndGame s then
    score <- StEx.liftE (evaluateScore s) ;;
    StEx.modify (set_finalScore (Some score)) ;;;
    StEx.modify (set_phase PComplete) ;;;
    record (CompleteEvent (turn s) score (resources s))
  else
    StEx.modify (set_turn (js_add (turn s) (js_of_Z 1))) ;;;
    StEx.modify (set_rollResult None) ;;;
    StEx.modify (set_chosenAction None) ;;;
    StEx.modify (set_phase PRoll).

(** *** The constructor, [getReplay] and [autoplay] *)

Definition new_session (t : CompiledTemplate num) (seed : option (@Rng.SeedInput num))
  : Exn + GameSession num :=
  match Rng.create seed with
  | inl e => inl e
  | inr r =>
    let res := fold_left (fun acc d => Obj.set (resource_id d) (initial d) acc)
                         (resources_of t) [] in
    inr {| template := t; rng := r; initialSeed := Rng.serialize r; phase := PRoll;
           turn := js_of_Z 1; resources := res;
           history := [SetupEvent (js_of_Z 0) res 1];
           rollResult := None; chosenAction := None; replayTurns := [];
           currentReplayTurn := None; finalScore := None; timestampCounter := 1 |}
  end.

Definition getReplay (s : GameSession num) : option (ReplayRecord num) :=
  match finalScore s with
  | None => None
  | Some score =>
    Some {| templateId := template_id (template s); templateVersion := version (template s);
            seed := initialSeed s; turns := replayTurns s; replay_finalScore := score |}
  end.

(** [isComplete()] and [getScore()] *)
Definition isComplete (s : GameSession num) : bool := phase_eqb (phase s) PComplete.
Definition getScore (s : GameSession num) : option num := finalScore s.

Definition DecisionPolicy : Type := DecisionPolicyContext num -> Exn + string.

Definition when_phase {A} (p : GamePhase) (m : SessionM A) : SessionM unit :=
  s <- StEx.get ;;
  if phase_eqb (phase s) p then m ;;; StEx.ret tt else StEx.ret tt.

(** One pass of the body of the [while (!session.isComplete())] loop. *)
Definition autoplay_step (fuel : nat) (policy : DecisionPolicy) : SessionM unit :=
  when_phase PRoll (roll fuel) ;;;
  when_phase PChoose
    (s <- StEx.get ;;
     snapshot <- StEx.liftE (getSnapshot s) ;;
     actionId <- StEx.liftE (policy {| session := snapshot;
                                       context_actions := availableActions snapshot |}) ;;
     choose actionId) ;;;
  when_phase PApply apply ;;;
  when_phase PEnd endTurn.

Fixpoint autoplay_loop (fuel : nat) (policy : DecisionPolicy) : SessionM unit :=
  match fuel with
  | O => StEx.throw OutOfFuel
  | S f =>
    s <- StEx.get ;;
    if phase_eqb (phase s) PComplete then StEx.ret tt
    else autoplay_step fuel policy ;;; autoplay_loop f policy
  end.

Definition autoplay (fuel : nat) (t : CompiledTemplate num) (policy : DecisionPolicy)
    (seed : option (@Rng.SeedInput num)) : Exn + ReplayRecord num :=
  match new_session t seed with
  | inl e => inl e
  | inr s =>
    match autoplay_loop fuel policy s with
    | (inl e, _) => inl e
    | (inr _, s') =>
      match getReplay s' with
      | None => inl (PlainError "Replay generation failed")
      | Some replay => inr replay
      end
    end
  end.

(** [highestPriorityPolicy]: [[...actions].sort((a, b) => b.priority - a.priority)]
    (a stable sort) and its first element. *)
Fixpoint insert_sorted (a : CompiledAction num) (l : list (CompiledAction num))
  : list (CompiledAction num) :=
  match l with
  | [] => [a]
  | b :: rest =>
    if js_lt (js_sub (priority b) (priority a)) (js_of_Z 0) then a :: b :: rest
    else b :: insert_sorted a rest
  end.

Definition highestPriorityPolicy : DecisionPolicy :=
  fun context =>
    match fold_left (fun sorted a => insert_sorted a sorted) (context_actions context) [] with
    | [] => inl (PlainError "No actions available to choose")
    | first :: _ => inr (action_id first)
    end.
End Ops.

Arguments ApplyState : clear implicits.
Arguments DecisionPolicy : clear implicits.

End Session.

(** ** Inputs the claims about [expr] speak of *)
Module SpecExpr.
Import Expr.

Fixpoint dots (l : list ascii) : nat :=
  match l with
  | [] => 0
  | c :: r => ((if (c =? "."%char)%char then 1 else 0) + dots r)%nat
  end.

Definition number_chars (l : list ascii) : bool :=
  forallb (fun c => is_digit c || (c =? "."%char)%char) l.

(** A numeric literal as the lexer reads it: a digit, then digits and at
    most one dot. *)
Definition is_number_literal (s : string) : bool :=
  let l := list_ascii_of_string s in
  match l with
  | d :: _ => is_digit d && number_chars l && (dots l <=? 1)%nat
  | [] => false
  end.

(** ["a^b^c"] and ["(a^b)^c"] *)
Definition pow_chain (a b c : string) : string :=
  String.append a (String "^" (String.append b (String "^" c))).
Definition pow_grouped (a b c : string) : string :=
  String "(" (String.append a (String "^" (String.append b (String ")" (String "^" c))))).

Definition empty_context {num : Type} : EvaluationContext num :=
  {| variables := None; functions := None |}.

(** [evaluateExpression(compileExpression(src), context)] with the
    context's RNG (or none) as state. *)
Definition eval_source {num : Type} `{JsNumber num} (rng_fuel : nat) (src : string)
    (context : EvaluationContext num) : EvalM (MiniValue num) :=
  fun st => match compileExpression src with
            | inl e => (inl e, st)
            | inr compiled => evaluateExpression rng_fuel compiled context st
            end.
(** Identifier nodes occurring in an AST outside the callee position of
    a call: the callee's name is not an expression; the arguments are. *)
Inductive occurs_identifier {num : Type} (x : string) : ExpressionNode num -> Prop :=
| occurs_here sp : occurs_identifier x (Identifier x sp)
| occurs_unary op arg sp : occurs_identifier x arg -> occurs_identifier x (UnaryExpression op arg sp)
| occurs_left op l r sp : occurs_identifier x l -> occurs_identifier x (BinaryExpression op l r sp)
| occurs_right op l r sp : occurs_identifier x r -> occurs_identifier x (BinaryExpression op l r sp)
| occurs_argument callee csp args sp a :
    In a args -> occurs_identifier x a -> occurs_identifier x (CallExpression callee csp args sp).

End SpecExpr.

(** ** Inputs the claims about [session] speak of *)
Module SpecSession.
Import Expr Session.
Local Open Scope string_scope.

(** Session objects a program can hold: built by the constructor, then
    changed by the four public operations, whether the call returns or
    throws (the object survives a throw).  [getSnapshot],
    [listAvailableActions] and [getReplay] change nothing. *)
Inductive session_reachable {num : Type} `{JsNumber num} : GameSession num -> Prop :=
| reachable_new t seed s : new_session t seed = inr s -> session_reachable s
| reachable_roll fuel s : session_reachable s -> session_reachable (snd (roll fuel s))
| reachable_choose actionId s : session_reachable s -> session_reachable (snd (choose actionId s))
| reachable_apply s : session_reachable s -> session_reachable (snd (apply s))
| reachable_endTurn s : session_reachable s -> session_reachable (snd (endTurn s)).

(** Concrete templates over the executable number type. *)
Definition n (z : Z) : QNum.jsq := js_of_Z z.

Definition compiled (src : string) : CompiledExpression QNum.jsq :=
  match compileExpression src with
  | inr c => c
  | inl _ => {| source := src; ast := NullLiteral {| start := 0; stop := 0 |} |}
  end.

(** One resource [ore] (initial 0), one 2d6 die, one always available
    action [mine] adding [roll_total] to [ore], a turn limit of 3 and the
    score [ore]. *)
Definition ore_def : ResourceDefinition QNum.jsq :=
  {| resource_id := "ore"; initial := n 0; min := None; max := None |}.

Definition mine : CompiledAction QNum.jsq :=
  {| action_id := "mine"; priority := n 1;
     effects := [{| effect_resource := "ore"; effect_clamp := None;
                    effect_ast := compiled "roll_total" |}];
     conditionAst := None |}.

Definition ore_template : CompiledTemplate QNum.jsq :=
  {| template_id := "ore-miner"; version := "1.0.0"; resources_of := [ore_def];
     dice := [{| dice_id := "2d6"; sides := n 6; count := n 2 |}];
     actions := [mine]; scoring_total := compiled "ore";
     endConditions := [TurnLimit (n 3)]; resourceMap := [("ore", ore_def)] |}.

Definition seed42 : option (@Rng.SeedInput QNum.jsq) := Some (Rng.SeedNumber (n 42)).

(** A resource [gold] (initial 0) with bounds [lo] and [hi], one 1d6 die
    and one action [trade] whose effects on [gold] are the given
    expressions with their [clamp] flags. *)
Definition gold_def (lo hi : Z) : ResourceDefinition QNum.jsq :=
  {| resource_id := "gold"; initial := n 0; min := Some (n lo); max := Some (n hi) |}.

Definition gold_effect (e : string * option bool) : CompiledActionEffect QNum.jsq :=
  {| effect_resource := "gold"; effect_clamp := snd e; effect_ast := compiled (fst e) |}.

Definition trade (effs : list (string * option bool)) : CompiledAction QNum.jsq :=
  {| action_id := "trade"; priority := n 0; effects := map gold_effect effs; conditionAst := None |}.

Definition gold_template (lo hi : Z) (effs : list (string * option bool)) : CompiledTemplate QNum.jsq :=
  {| template_id := "gold"; version := "1.0.0"; resources_of := [gold_def lo hi];
     dice := [{| dice_id := "1d6"; sides := n 6; count := n 1 |}];
     actions := [trade effs]; scoring_total := compiled "gold";
     endConditions := [TurnLimit (n 3)]; resourceMap := [("gold", gold_def lo hi)] |}.

(** The session of [new GameSession(t, { seed: 42 })] (the constructor
    does not throw on this seed; the second branch is never taken). *)
Definition started (t : CompiledTemplate QNum.jsq) : GameSession QNum.jsq :=
  match new_session t seed42 with
  | inr s => s
  | inl _ => {| template := t; rng := {| Rng.state0 := 0; Rng.state1 := 1 |};
                initialSeed := Rng.serialize {| Rng.state0 := 0; Rng.state1 := 1 |};
                phase := PSetup; turn := n 0; resources := []; history := [];
                rollResult := None; chosenAction := None; replayTurns := [];
                currentReplayTurn := None; finalScore := None; timestampCounter := 0 |}
  end.

(** After [roll()] and [choose(actionId)]: in phase [apply]. *)
Definition rolled (t : CompiledTemplate QNum.jsq) : GameSession QNum.jsq :=
  snd (roll 10 (started t)).

Definition chosen (t : CompiledTemplate QNum.jsq) (actionId : string) : GameSession QNum.jsq :=
  snd (choose actionId (rolled t)).

(** After [apply()]: in phase [end]. *)
Definition applied (t : CompiledTemplate QNum.jsq) (actionId : string) : GameSession QNum.jsq :=
  snd (apply (chosen t actionId)).

(** [trade] adds 3 to [gold] and then subtracts 5, with [gold] in
    [[0, 10]] and initially 0: the second effect undercuts the minimum. *)
Definition undercut_effects : list (string * option bool) := [("3", None); ("0 - 5", None)].

Definition undercut_session : GameSession QNum.jsq :=
  chosen (gold_template 0 10 undercut_effects) "trade".

(** The locals of [applyChosenAction] after the first effect. *)
Definition undercut_acc : ApplyState QNum.jsq :=
  Eval vm_compute in
    match apply_effects (template undercut_session) (trade undercut_effects)
                        [gold_effect ("3", None)] (apply_start undercut_session) with
    | inr acc => acc
    | inl _ => apply_start undercut_session
    end.

(** [gold] at 5 in [[0, 10]], and an effect adding 20. *)
Definition gold_at_5 : ApplyState QNum.jsq :=
  {| acc_deltas := []; acc_resulting := [("gold", n 5)]; acc_variables := [("gold", VNum (n 5))] |}.

End SpecSession.

(* ================================================================== *)
(** ** Further concrete inputs *)
Module MoreInputs.
Import Expr Session SpecSession.
Local Open Scope string_scope.

(** [ore_template] with a one-turn limit and the boolean score
    [ore > 100], which is not a number. *)
Definition bool_score_template : CompiledTemplate QNum.jsq :=
  {| template_id := "ore-miner"; version := "1.0.0"; resources_of := [ore_def];
     dice := [{| dice_id := "2d6"; sides := n 6; count := n 2 |}];
     actions := [mine]; scoring_total := compiled "ore > 100";
     endConditions := [TurnLimit (n 1)]; resourceMap := [("ore", ore_def)] |}.

(** The first roll of [started ore_template]. *)
Definition first_roll : RollResult QNum.jsq :=
  Eval vm_compute in
    match fst (roll 10 (started ore_template)) with
    | inr r => r
    | inl _ => {| diceId := EmptyString; values := []; total := n 0; highest := n 0; lowest := n 0 |}
    end.

(** Actions without effects, of the given priority. *)
Definition prio_action (id : string) (p : Z) : CompiledAction QNum.jsq :=
  {| action_id := id; priority := n p; effects := []; conditionAst := None |}.

Definition prio_context : DecisionPolicyContext QNum.jsq :=
  {| session := {| snap_template := ore_template; snap_phase := PChoose; snap_turn := n 1;
                   snap_resources := [("ore", n 0)]; snap_roll := None; availableActions := [] |};
     context_actions := [prio_action "low" 1; prio_action "high" 5; prio_action "tie" 5] |}.


Definition nospan : SourceSpan := {| start := 0; stop := 0 |}.

Definition lit (z : Z) : ExpressionNode QNum.jsq := NumberLiteral (n z) nospan.
End MoreInputs.

(** * Proofs *)
(* ================================================================== *)

Module RngProofs.
Import Rng.

Lemma mask_ones : UINT64_MASK = Z.ones 64.
Proof. reflexivity. Qed.

Lemma toUint64_mod v : toUint64 v = v mod 2 ^ 64.
Proof. unfold toUint64. rewrite mask_ones, Z.land_ones; lia. Qed.

Lemma toUint64_range v : 0 <= toUint64 v < 2 ^ 64.
Proof. rewrite toUint64_mod. apply Z.mod_pos_bound. lia. Qed.

Lemma toUint64_id v : 0 <= v < 2 ^ 64 -> toUint64 v = v.
Proof. intros H. rewrite toUint64_mod. apply Z.mod_small. exact H. Qed.

Lemma range_bits x n i : 0 <= n -> 0 <= x < 2 ^ n -> n <= i -> Z.testbit x i = false.
Proof.
  intros Hn Hx Hi. rewrite <- (Z.mod_small x (2 ^ n)) by lia.
  rewrite Z.testbit_mod_pow2 by lia.
  destruct (i <? n) eqn:E; [apply Z.ltb_lt in E; lia | reflexivity].
Qed.

Lemma bits_range x n : 0 <= n -> 0 <= x ->
  (forall i, n <= i -> Z.testbit x i = false) -> x < 2 ^ n.
Proof.
  intros Hn Hx Hb.
  assert (E : x = x mod 2 ^ n).
  { apply Z.bits_inj'. intros i Hi. rewrite Z.testbit_mod_pow2 by lia.
    destruct (i <? n) eqn:E; [reflexivity|]. apply Z.ltb_ge in E. auto. }
  rewrite E. apply Z.mod_pos_bound. lia.
Qed.

Lemma lxor_range a b : 0 <= a < 2 ^ 64 -> 0 <= b < 2 ^ 64 -> 0 <= Z.lxor a b < 2 ^ 64.
Proof.
  intros Ha Hb. assert (0 <= Z.lxor a b) by (apply Z.lxor_nonneg; lia).
  split; [assumption|]. apply bits_range; try lia.
  intros i Hi. rewrite Z.lxor_spec, (range_bits a 64), (range_bits b 64); auto; lia.
Qed.

Lemma shiftr_range a k : 0 <= k -> 0 <= a < 2 ^ 64 -> 0 <= Z.shiftr a k < 2 ^ 64.
Proof.
  intros Hk Ha. rewrite Z.shiftr_div_pow2 by lia.
  assert (0 < 2 ^ k) by lia. split; [apply Z.div_pos; lia|].
  apply (Z.le_lt_trans _ a); [apply Z.div_le_upper_bound; nia | lia].
Qed.

Lemma land_mask_range a : 0 <= Z.land a UINT64_MASK < 2 ^ 64.
Proof. apply toUint64_range. Qed.

(** x ^ ((x << 23) & MASK) vanishes only at 0 on 64-bit words. *)
Lemma xorshl_zero x : 0 <= x < 2 ^ 64 ->
  Z.lxor x (Z.land (Z.shiftl x 23) UINT64_MASK) = 0 -> x = 0.
Proof.
  intros Hx H. apply (proj1 (Z.lxor_eq_0_iff _ _)) in H.
  apply Z.bits_inj_0. intros i.
  destruct (Z.lt_ge_cases i 0) as [Hneg|Hpos]; [apply Z.testbit_neg_r; exact Hneg|].
  pattern i. apply (Z.strong_right_induction _ 0); [| exact Hpos].
  clear i Hpos. intros i Hi IH.
  rewrite H, mask_ones, Z.land_spec.
  destruct (Z.lt_ge_cases i 23) as [Hl|Hg].
  - rewrite Z.shiftl_spec_low by lia. reflexivity.
  - rewrite Z.shiftl_spec_high by lia. rewrite IH by lia. reflexivity.
Qed.

Lemma xorshr_zero y k : 0 < k -> 0 <= y -> Z.lxor y (Z.shiftr y k) = 0 -> y = 0.
Proof.
  intros Hk Hy H. apply (proj1 (Z.lxor_eq_0_iff _ _)) in H. rewrite Z.shiftr_div_pow2 in H by lia.
  destruct (Z.eq_dec y 0) as [|Hne]; [assumption|].
  assert (y / 2 ^ k < y) by (apply Z.div_lt; [lia | apply Z.pow_gt_1; lia]). lia.
Qed.

(** Words of a reachable state are 64-bit and never both zero. *)
Definition good (r : Xorshift128Plus) : Prop :=
  0 <= state0 r < 2 ^ 64 /\ 0 <= state1 r < 2 ^ 64 /\ ~ (state0 r = 0 /\ state1 r = 0).

Lemma splitmix64_next_range s : 0 <= fst (splitmix64_next s) < 2 ^ 64.
Proof. apply toUint64_range. Qed.

Lemma two_words_good seed : 0 <= fst (two_words seed) < 2 ^ 64 /\
  0 <= snd (two_words seed) < 2 ^ 64 /\ snd (two_words seed) <> 0.
Proof.
  unfold two_words.
  destruct (splitmix64_next (splitmix64 seed)) as [w0 g] eqn:E1.
  destruct (splitmix64_next g) as [w1 g'] eqn:E2. simpl.
  pose proof (splitmix64_next_range (splitmix64 seed)) as H0.
  pose proof (splitmix64_next_range g) as H1.
  rewrite E1 in H0. rewrite E2 in H1. simpl in H0, H1.
  destruct (Z.eqb_spec w1 0); lia.
Qed.

Lemma fix_zero_range a b : 0 <= a < 2 ^ 64 -> 0 <= b < 2 ^ 64 ->
  0 <= fst (fix_zero a b) < 2 ^ 64 /\ 0 <= snd (fix_zero a b) < 2 ^ 64.
Proof. intros Ha Hb. unfold fix_zero. destruct ((a =? 0) && (b =? 0)); simpl; lia. Qed.

Lemma normalizeSeed_range {num : Type} `{JsNumber num} (seed : option (@SeedInput num)) a b :
  normalizeSeed seed = inr (a, b) -> 0 <= a < 2 ^ 64 /\ 0 <= b < 2 ^ 64.
Proof.
  unfold normalizeSeed. intros E.
  destruct seed as [[n|z|s|s0 s1|ser]|].
  - destruct (js_to_integer n) as [z|]; [|discriminate].
    pose proof (two_words_good z) as G.
    destruct (two_words z) as [x y]. simpl in *. injection E. lia.
  - pose proof (two_words_good z) as G.
    destruct (two_words z) as [x y]. simpl in *. injection E. lia.
  - pose proof (two_words_good (hashString s)) as G.
    destruct (two_words (hashString s)) as [x y]. simpl in *. injection E. lia.
  - pose proof (fix_zero_range _ _ (toUint64_range s0) (toUint64_range s1)) as G.
    injection E as E. rewrite E in G. simpl in G. exact G.
  - destruct (String.eqb _ _); [|discriminate].
    destruct (parse_bigint (fst (state ser))) as [e|x];
      destruct (parse_bigint (snd (state ser))) as [e'|y]; try discriminate.
    pose proof (fix_zero_range _ _ (toUint64_range x) (toUint64_range y)) as G.
    injection E as E. rewrite E in G. simpl in G. exact G.
  - pose proof (two_words_good 1) as G.
    destruct (two_words 1) as [x y]. simpl in *. injection E. lia.
Qed.

Lemma create_good {num : Type} `{JsNumber num} (seed : option (@SeedInput num)) r :
  create seed = inr r -> good r.
Proof.
  unfold create. destruct (normalizeSeed seed) as [e|[a b]] eqn:E; [discriminate|].
  apply normalizeSeed_range in E. intros R. injection R as <-.
  unfold good. destruct ((a =? 0) && (b =? 0)) eqn:Z0; simpl.
  - lia.
  - apply andb_false_iff in Z0. destruct Z0 as [Z0|Z0]; apply Z.eqb_neq in Z0; lia.
Qed.

Lemma step_good r : good r -> good (snd (nextBigInt r)).
Proof.
  intros (H0 & H1 & Hnz). unfold nextBigInt, good. simpl.
  split; [exact H1|]. split; [apply toUint64_range|].
  intros [Hs1 Hs0]. destruct (Z.eq_dec (state1 r) 0) as [E1|E1]; [|lia].
  apply Hnz. split; [|exact E1].
  rewrite E1, Z.shiftr_0_l, !Z.lxor_0_r in Hs0.
  set (x := state0 r) in *.
  assert (Hy : 0 <= Z.lxor x (Z.land (Z.shiftl x 23) UINT64_MASK) < 2 ^ 64)
    by (apply lxor_range; [lia | apply land_mask_range]).
  assert (Hz : 0 <= Z.lxor (Z.lxor x (Z.land (Z.shiftl x 23) UINT64_MASK))
                (Z.shiftr (Z.lxor x (Z.land (Z.shiftl x 23) UINT64_MASK)) 17) < 2 ^ 64)
    by (apply lxor_range; [lia | apply shiftr_range; lia]).
  rewrite toUint64_id in Hs0 by exact Hz.
  apply xorshr_zero in Hs0; [| lia | exact (proj1 Hy)].
  apply xorshl_zero; [lia | exact Hs0].
Qed.

Lemma reachable_good {num : Type} `{JsNumber num} r : reachable r -> good r.
Proof.
  induction 1 as [seed r E | r _ IH].
  - eapply create_good. exact E.
  - apply step_good. exact IH.
Qed.

(** *** Hexadecimal round trip *)

Definition horner (acc : Z) (ds : list Z) : Z := fold_left (fun a d => a * 16 + d) ds acc.

Lemma enumerate16 d : 0 <= d < 16 ->
  d = 0 \/ d = 1 \/ d = 2 \/ d = 3 \/ d = 4 \/ d = 5 \/ d = 6 \/ d = 7 \/
  d = 8 \/ d = 9 \/ d = 10 \/ d = 11 \/ d = 12 \/ d = 13 \/ d = 14 \/ d = 15.
Proof. lia. Qed.

Lemma hex_char_digit d : 0 <= d < 16 -> digit_value 16 (hex_char d) = Some d.
Proof. intros H. apply enumerate16 in H. repeat destruct H as [-> | H]; [reflexivity ..|]. subst. reflexivity. Qed.

Lemma hex_char_not_space d : 0 <= d < 16 -> is_js_space (hex_char d) = false.
Proof. intros H. apply enumerate16 in H. repeat destruct H as [-> | H]; [reflexivity ..|]. subst. reflexivity. Qed.

Lemma digits_value_map acc ds : Forall (fun d => 0 <= d < 16) ds ->
  digits_value 16 acc (map hex_char ds) = Some (horner acc ds).
Proof.
  revert acc. induction ds as [|d ds IH]; intros acc F; [reflexivity|].
  inversion F as [|? ? Hd Hds]; subst. simpl. rewrite hex_char_digit by exact Hd.
  apply IH. exact Hds.
Qed.

Lemma digits16_horner f v acc : 0 <= v < 16 ^ Z.of_nat f ->
  horner 0 (digits16 f v acc) = horner v acc.
Proof.
  revert v acc. induction f as [|f IH]; intros v acc Hv; simpl.
  - replace v with 0 by (simpl in Hv; lia). reflexivity.
  - destruct (v <? 16) eqn:Lt.
    + apply Z.ltb_lt in Lt. unfold horner. simpl. rewrite Z.mod_small by lia. reflexivity.
    + apply Z.ltb_ge in Lt. rewrite IH.
      * unfold horner. simpl. f_equal. pose proof (Z.div_mod v 16). lia.
      * rewrite Nat2Z.inj_succ, Z.pow_succ_r in Hv by lia.
        split; [apply Z.div_pos; lia|]. apply Z.div_lt_upper_bound; lia.
Qed.

Lemma digits16_bounded f v acc : 0 <= v -> Forall (fun d => 0 <= d < 16) acc ->
  Forall (fun d => 0 <= d < 16) (digits16 f v acc).
Proof.
  revert v acc. induction f as [|f IH]; intros v acc Hv F; simpl; [exact F|].
  assert (Hm : 0 <= v mod 16 < 16) by (apply Z.mod_pos_bound; lia).
  destruct (v <? 16).
  - constructor; assumption.
  - apply IH; [apply Z.div_pos; lia | constructor; assumption].
Qed.

Lemma digits16_nonempty f v acc : acc <> [] -> digits16 f v acc <> [].
Proof.
  revert v acc. induction f as [|f IH]; intros v acc Hacc; simpl; [exact Hacc|].
  destruct (v <? 16); [discriminate | apply IH; discriminate].
Qed.

Lemma toString16_digits v : 0 <= v ->
  exists ds, toString16 v = map hex_char ds /\ ds <> [] /\
    Forall (fun d => 0 <= d < 16) ds /\ horner 0 ds = v.
Proof.
  intros Hv. exists (digits16 (S (Z.to_nat (Z.log2 v))) v []).
  split; [reflexivity|]. split.
  { simpl. destruct (v <? 16); [discriminate | apply digits16_nonempty; discriminate]. }
  split; [apply digits16_bounded; [exact Hv | constructor]|].
  rewrite digits16_horner; [reflexivity|]. split; [exact Hv|].
  rewrite Nat2Z.inj_succ, Z2Nat.id by (apply Z.log2_nonneg).
  destruct (Z.eq_dec v 0) as [->|Hne]; [simpl; lia|].
  pose proof (Z.log2_spec v ltac:(lia)) as [_ Hlt].
  apply (Z.lt_le_trans _ _ _ Hlt).
  replace 16 with (2 ^ 4) by reflexivity. rewrite <- Z.pow_mul_r by (pose proof (Z.log2_nonneg v); lia).
  apply Z.pow_le_mono_r; pose proof (Z.log2_nonneg v); lia.
Qed.

Lemma digits_value_zeros k l : digits_value 16 0 (app (repeat "0"%char k) l) = digits_value 16 0 l.
Proof. induction k as [|k IH]; [reflexivity|]. simpl. exact IH. Qed.

Lemma drop_spaces_id l : Forall (fun c => is_js_space c = false) l -> drop_spaces l = l.
Proof. intros F. destruct F as [|c l Hc _]; [reflexivity|]. simpl. rewrite Hc. reflexivity. Qed.

Lemma trim_id l : Forall (fun c => is_js_space c = false) l -> trim l = l.
Proof.
  intros F. unfold trim. rewrite (drop_spaces_id l F).
  rewrite drop_spaces_id; [apply rev_involutive|]. apply Forall_rev. exact F.
Qed.

Lemma parse_toHex v : 0 <= v -> parse_bigint (toHex v) = inr v.
Proof.
  intros Hv. destruct (toString16_digits v Hv) as (ds & E & Hne & F & Hh).
  unfold parse_bigint, toHex. rewrite list_ascii_of_string_of_list_ascii.
  unfold padStart16. rewrite E.
  remember (app (repeat "0"%char (16 - List.length (map hex_char ds))) (map hex_char ds)) as P eqn:HP.
  assert (FP : Forall (fun c => is_js_space c = false) P).
  { subst P. apply Forall_app. split.
    - apply Forall_forall. intros c Hc. apply repeat_spec in Hc. subst. reflexivity.
    - apply Forall_map. eapply Forall_impl; [|exact F]. intros d Hd. apply hex_char_not_space. exact Hd. }
  rewrite trim_id by (repeat constructor; exact FP).
  cbn -[nonempty_digits].
  destruct P as [|c P'] eqn:EP.
  - symmetry in HP. apply app_eq_nil in HP. destruct HP as [_ HP]. apply map_eq_nil in HP. contradiction.
  - change (nonempty_digits 16 (c :: P')) with (digits_value 16 0 (c :: P')).
    rewrite HP, digits_value_zeros, digits_value_map by exact F.
    rewrite Hh. reflexivity.
Qed.

End RngProofs.

Module RngClaims.
Import Rng RngProofs.

Definition range_msg : string := "maxExclusive must be a positive integer".

(** C2 (amended).  On 64-bit words (state0, state1) = (s0, s1), one call
    of [nextBigInt] computes t from the OLD state0:
    a = s0 ^ ((s0 * 2^23) mod 2^64), b = a ^ (a div 2^17),
    t = b ^ s1 ^ (s1 div 2^26); the new state is (s1, t) and the
    returned value is (t + s1) mod 2^64 (s1 being the old state1). *)
Theorem nextBigInt_step (r : Xorshift128Plus)
  (H0 : 0 <= state0 r < 2 ^ 64) (H1 : 0 <= state1 r < 2 ^ 64) :
  let s0 := state0 r in
  let s1 := state1 r in
  let a := Z.lxor s0 ((s0 * 2 ^ 23) mod 2 ^ 64) in
  let b := Z.lxor a (a / 2 ^ 17) in
  let t := Z.lxor (Z.lxor b s1) (s1 / 2 ^ 26) in
  nextBigInt r = ((t + s1) mod 2 ^ 64, {| state0 := s1; state1 := t |}) /\ 0 <= t < 2 ^ 64.
Proof.
  cbv zeta. unfold nextBigInt.
  rewrite !Z.shiftr_div_pow2, Z.shiftl_mul_pow2 by lia.
  replace (Z.land (state0 r * 2 ^ 23) UINT64_MASK) with ((state0 r * 2 ^ 23) mod 2 ^ 64)
    by (symmetry; apply toUint64_mod).
  assert (Hm : 0 <= (state0 r * 2 ^ 23) mod 2 ^ 64 < 2 ^ 64) by (apply Z.mod_pos_bound; lia).
  assert (Ha : 0 <= Z.lxor (state0 r) ((state0 r * 2 ^ 23) mod 2 ^ 64) < 2 ^ 64)
    by (apply lxor_range; lia).
  set (a := Z.lxor (state0 r) ((state0 r * 2 ^ 23) mod 2 ^ 64)) in *.
  assert (Hd : 0 <= a / 2 ^ 17 < 2 ^ 64).
  { rewrite <- Z.shiftr_div_pow2 by lia. apply shiftr_range; lia. }
  assert (Hb : 0 <= Z.lxor a (a / 2 ^ 17) < 2 ^ 64) by (apply lxor_range; lia).
  assert (Hd' : 0 <= state1 r / 2 ^ 26 < 2 ^ 64).
  { rewrite <- Z.shiftr_div_pow2 by lia. apply shiftr_range; lia. }
  assert (Ht : 0 <= Z.lxor (Z.lxor (Z.lxor a (a / 2 ^ 17)) (state1 r)) (state1 r / 2 ^ 26) < 2 ^ 64)
    by (apply lxor_range; [apply lxor_range|]; lia).
  rewrite (toUint64_id (Z.lxor (Z.lxor (Z.lxor a (a / 2 ^ 17)) (state1 r)) (state1 r / 2 ^ 26)))
    by exact Ht.
  rewrite toUint64_mod. split; [reflexivity | exact Ht].
Qed.

Lemma nextBigInt_step_witness :
  (0 <= 1 < 2 ^ 64 /\ 0 <= 0 < 2 ^ 64) /\
  nextBigInt {| state0 := 1; state1 := 0 |} = (8388673, {| state0 := 0; state1 := 8388673 |}).
Proof.
  split; [lia|].
  destruct (nextBigInt_step {| state0 := 1; state1 := 0 |} ltac:(simpl; lia) ltac:(simpl; lia)) as [E _].
  rewrite E. vm_compute. reflexivity.
Defined.

(** C2 counterexample: the state (1, 0), which the constructor builds
    from the seed pair [1n, 0n], steps differently from the spec's
    formula (which xorshifts word1 and adds old word0). *)
Lemma nextBigInt_spec_formula_differs :
  create (num := QNum.jsq) (Some (SeedPair 1 0)) = inr {| state0 := 1; state1 := 0 |} /\
  nextBigInt {| state0 := 1; state1 := 0 |} = (8388673, {| state0 := 0; state1 := 8388673 |}) /\
  SpecRng.spec_nextBigInt {| state0 := 1; state1 := 0 |} = (2, {| state0 := 0; state1 := 1 |}).
Proof. vm_compute. repeat split. Qed.

Lemma nextInt_loop_spec fuel b T r v r' :
  nextInt_loop fuel b T r = (inr v, r') ->
  exists k, (k < fuel)%nat /\ (forall j, (j < k)%nat -> T <= draw j r) /\
    draw k r < T /\ v = draw k r mod b /\ r' = advance (S k) r.
Proof.
  revert r. induction fuel as [|f IH]; intros r E; [discriminate|].
  cbn [nextInt_loop] in E. unfold draw. destruct (nextBigInt r) as [value r1] eqn:N.
  destruct (value <? T) eqn:Lt.
  - injection E as <- <-. exists O. cbn [advance]. rewrite N. cbn [fst snd].
    split; [lia|]. split; [intros; lia|]. apply Z.ltb_lt in Lt. auto.
  - apply IH in E. destruct E as (k & Hk & Hrej & Hacc & Hv & Hr).
    exists (S k). cbn [advance]. rewrite N. cbn [fst snd]. unfold draw in *.
    cbn [advance] in Hr.
    split; [lia|]. split; [|auto].
    intros [|j] Hj; cbn [advance].
    + rewrite N. cbn [fst]. apply Z.ltb_ge in Lt. exact Lt.
    + rewrite N. cbn [snd]. apply Hrej. lia.
Qed.

(** C3 (amended).  If maxExclusive is not a positive integer, [nextInt]
    throws a RangeError and the generator state is unchanged.  Otherwise,
    with m = maxExclusive and T = (2^64 - 1) - ((2^64 - 1) mod m), a
    multiple of m, every 64-bit draw >= T is rejected and the result is
    [Number] of the first draw d < T taken modulo m, where the residue
    d mod m lies in [0, m); the state has advanced by exactly the draws
    made. *)
Theorem nextInt_rejection {num : Type} `{JsNumber num} (fuel : nat) (m : num)
  (r : Xorshift128Plus) :
  (js_to_integer m = None -> nextInt fuel m r = (inl (RangeError range_msg), r)) /\
  (forall b, js_to_integer m = Some b -> b <= 0 ->
     nextInt fuel m r = (inl (RangeError range_msg), r)) /\
  (forall b v r', js_to_integer m = Some b -> 0 < b -> nextInt fuel m r = (inr v, r') ->
     let T := UINT64_MASK - UINT64_MASK mod b in
     T mod b = 0 /\
     exists k, (k < fuel)%nat /\ (forall j, (j < k)%nat -> T <= draw j r) /\
       draw k r < T /\ 0 <= draw k r mod b < b /\
       v = js_of_Z (draw k r mod b) /\ r' = advance (S k) r).
Proof.
  unfold nextInt. split; [|split].
  - intros E. rewrite E. reflexivity.
  - intros b E Hb. rewrite E. apply Z.leb_le in Hb. rewrite Hb. reflexivity.
  - intros b v r' E Hb R. rewrite E in R.
    assert (Hb' : (b <=? 0) = false) by (apply Z.leb_gt; exact Hb).
    rewrite Hb' in R. cbv zeta. split.
    + rewrite (Z.div_mod UINT64_MASK b) at 1 by lia.
      replace (b * (UINT64_MASK / b) + UINT64_MASK mod b - UINT64_MASK mod b)
        with ((UINT64_MASK / b) * b) by ring.
      apply Z.mod_mul. lia.
    + unfold StEx.bind, StEx.ret in R.
      destruct (nextInt_loop fuel b (UINT64_MASK - UINT64_MASK mod b) r)
        as [[e|z] r1] eqn:L; [discriminate|].
      injection R as <- <-.
      destruct (nextInt_loop_spec _ _ _ _ _ _ L) as (k & Hk & Hrej & Hacc & Hv & Hr).
      exists k. subst z. split; [exact Hk|]. split; [exact Hrej|]. split; [exact Hacc|].
      split; [apply Z.mod_pos_bound; exact Hb|]. auto.
Qed.

Definition seed42 : Xorshift128Plus :=
  {| state0 := 13679457532755275413; state1 := 2949826092126892291 |}.

Lemma nextInt_rejection_witness :
  create (num := QNum.jsq) (Some (SeedBigInt 42)) = inr seed42 /\
  fst (nextInt 1 (QNum.JFin 6) seed42) = inr (js_of_Z 2) /\ draw 0 seed42 mod 6 = 2.
Proof.
  split; [vm_compute; reflexivity|].
  split; [vm_compute; reflexivity|].
  destruct (nextInt_rejection 1 (QNum.JFin 6) seed42) as (_ & _ & H3).
  destruct (H3 6 (js_of_Z 2) (snd (nextInt 1 (QNum.JFin 6) seed42))
              ltac:(vm_compute; reflexivity) ltac:(lia) ltac:(vm_compute; reflexivity))
    as (_ & k & Hk & _ & _ & _ & _ & _).
  assert (k = O) by lia. subst k. vm_compute. reflexivity.
Defined.

(** C3 counterexample: with maxExclusive = 2^53 the spec's threshold is
    2^64 - (2^64 mod 2^53) = 2^64, so the first draw from the state
    (0, 0x7ff8000000000000) is accepted by the spec's rule; the code's
    threshold 2^64 - 2^53 rejects it and returns the next draw's
    residue instead. *)
Lemma nextInt_spec_threshold_differs :
  let r := {| state0 := 0; state1 := 0x7ff8000000000000 |} in
  draw 0 r < SpecRng.spec_threshold (2 ^ 53) /\
  UINT64_MASK - UINT64_MASK mod (2 ^ 53) <= draw 0 r /\
  fst (nextInt 10 (QNum.JFin (inject_Z (2 ^ 53))) r) = inr (js_of_Z 6825888410765311) /\
  draw 0 r mod 2 ^ 53 <> 6825888410765311.
Proof. vm_compute. repeat split; discriminate. Qed.

(** C4.  Every reachable generator state survives [serialize] followed
    by [deserialize] exactly, so the restored generator's next draw
    equals the original's; a serialized state whose two words read as
    zero (mod 2^64) is restored as (0, 1). *)
Theorem serialize_roundtrip {num : Type} `{JsNumber num} :
  (forall r, reachable (num := num) r ->
     deserialize (num := num) (serialize r) = inr r /\
     forall r', deserialize (num := num) (serialize r) = inr r' ->
                fst (nextBigInt r') = fst (nextBigInt r)) /\
  (forall a b za zb, parse_bigint a = inr za -> parse_bigint b = inr zb ->
     toUint64 za = 0 -> toUint64 zb = 0 ->
     deserialize (num := num) {| algorithm := "xorshift128+"; state := (a, b) |} =
       inr {| state0 := 0; state1 := 1 |}).
Proof.
  split.
  - intros r R. apply reachable_good in R. destruct R as (H0 & H1 & Hnz).
    assert (D : deserialize (num := num) (serialize r) = inr r).
    { unfold deserialize, create, normalizeSeed, serialize. simpl (String.eqb _ _). cbv iota.
      simpl fst. simpl snd.
      rewrite !parse_toHex by lia. rewrite !toUint64_id by assumption.
      unfold fix_zero.
      destruct ((state0 r =? 0) && (state1 r =? 0)) eqn:Z0.
      - apply andb_true_iff in Z0. destruct Z0 as [A B]. apply Z.eqb_eq in A, B. tauto.
      - rewrite Z0. destruct r; reflexivity. }
    split; [exact D|]. intros r' D'. rewrite D in D'. injection D' as ->. reflexivity.
  - intros a b za zb Pa Pb Za Zb. unfold deserialize, create, normalizeSeed. simpl (String.eqb _ _).
    cbv iota. simpl fst. simpl snd. rewrite Pa, Pb, Za, Zb. reflexivity.
Qed.

Lemma serialize_roundtrip_witness :
  deserialize (num := QNum.jsq) (serialize seed42) = inr seed42 /\
  deserialize (num := QNum.jsq)
    {| algorithm := "xorshift128+"; state := ("0x0000000000000000"%string, "0x0000000000000000"%string) |} =
    inr {| state0 := 0; state1 := 1 |}.
Proof.
  destruct (serialize_roundtrip (num := QNum.jsq)) as [P1 P2]. split.
  - apply (P1 seed42). apply (reachable_create (Some (SeedBigInt 42))). vm_compute. reflexivity.
  - apply (P2 _ _ 0 0); vm_compute; reflexivity.
Defined.
End RngClaims.

Module ExprProofs.
Import Expr SpecExpr.
Local Open Scope nat_scope.

(** Where the number loop stops: the end of the input, or a character
    that is neither a digit nor a dot. *)
Definition stops (rest : list ascii) : bool :=
  match rest with [] => true | x :: _ => negb (is_digit x || (x =? "."%char)%char) end.

Lemma list_ascii_of_string_append (x y : string) :
  list_ascii_of_string (String.append x y) = app (list_ascii_of_string x) (list_ascii_of_string y).
Proof. induction x as [|c x IH]; cbn; [reflexivity | now rewrite IH]. Qed.

Lemma tokenize_from_cons (f i : nat) (c : ascii) (r : list ascii) :
  tokenize_from (S f) i (c :: r) =
  match lex_one i c r with
  | inl e => inl e
  | inr (Skip, index', rest) => tokenize_from f index' rest
  | inr (Emit tok, index', rest) =>
    match tokenize_from f index' rest with
    | inr ts => inr (tok :: ts)
    | inl e => inl e
    end
  end.
Proof. reflexivity. Qed.

Lemma tokenize_from_succ (f : nat) :
  forall i l ts, tokenize_from f i l = inr ts -> tokenize_from (S f) i l = inr ts.
Proof.
  induction f as [|f IH]; intros i l ts H; [discriminate|].
  destruct l as [|c r]; [exact H|].
  rewrite tokenize_from_cons in H |- *.
  destruct (lex_one i c r) as [e|[[[|tok] i'] rest]]; [exact H| |].
  - apply IH. exact H.
  - destruct (tokenize_from f i' rest) as [e|ts'] eqn:E; [discriminate|].
    rewrite (IH _ _ _ E). exact H.
Qed.

Lemma tokenize_from_mono (f f' : nat) i l ts :
  (f <= f')%nat -> tokenize_from f i l = inr ts -> tokenize_from f' i l = inr ts.
Proof.
  induction 1 as [|f' _ IH]; intros H; [exact H|].
  apply tokenize_from_succ, IH, H.
Qed.

Lemma digit_not_space (d : ascii) : is_digit d = true -> is_space d = false.
Proof.
  unfold is_digit, is_space. intros Hd.
  apply andb_prop in Hd as [H1 H2]. apply Nat.leb_le in H1, H2.
  apply orb_false_intro.
  - apply andb_false_iff. right. apply Nat.leb_gt. lia.
  - apply Nat.eqb_neq. lia.
Qed.

Lemma lex_number_all (A rest : list ascii) (hasDot : bool) :
  number_chars A = true -> (dots A + (if hasDot then 1 else 0) <= 1)%nat ->
  stops rest = true -> lex_number (app A rest) hasDot = (A, rest).
Proof.
  revert hasDot. induction A as [|c A IH]; intros hasDot HA HD Hs.
  - destruct rest as [|x r]; [reflexivity|]. cbn in Hs |- *.
    destruct ((x =? "."%char)%char), (is_digit x); cbn in Hs; try discriminate; reflexivity.
  - cbn in HA. apply andb_prop in HA as [Hc HA]. cbn [app lex_number].
    cbn [dots] in HD.
    destruct ((c =? "."%char)%char) eqn:Ed.
    + destruct hasDot; [cbn in HD; lia|].
      rewrite IH by (auto; cbn in HD |- *; lia). reflexivity.
    + rewrite orb_false_r in Hc. rewrite Hc.
      rewrite IH by (auto; cbn in HD |- *; lia). reflexivity.
Qed.

Lemma tokenize_from_nil (f i : nat) : tokenize_from (S f) i [] = inr [].
Proof. reflexivity. Qed.

Lemma lex_one_number (i : nat) (d : ascii) (A' rest : list ascii) :
  is_digit d = true -> number_chars (d :: A') = true -> (dots (d :: A') <= 1)%nat ->
  stops rest = true ->
  lex_one i d (app A' rest) =
  inr (Emit (mk_token TNumber (d :: A') i (i + S (List.length A'))), i + S (List.length A'), rest).
Proof.
  intros Hd Hn HD Hs. unfold lex_one. rewrite (digit_not_space d Hd), Hd.
  change (d :: app A' rest) with (app (d :: A') rest).
  rewrite lex_number_all by (auto; lia). reflexivity.
Qed.

Lemma lex_one_caret (i : nat) (x : ascii) (r : list ascii) :
  lex_one i "^" (x :: r) = inr (Emit (mk_token TOperator ["^"%char] i (S i)), S i, x :: r).
Proof. reflexivity. Qed.

Lemma lex_one_lparen (i : nat) (r : list ascii) :
  lex_one i "(" r = inr (Emit (mk_token TParen ["("%char] i (S i)), S i, r).
Proof. reflexivity. Qed.

Lemma lex_one_rparen (i : nat) (r : list ascii) :
  lex_one i ")" r = inr (Emit (mk_token TParen [")"%char] i (S i)), S i, r).
Proof. reflexivity. Qed.

Lemma number_literal_shape (a : string) :
  is_number_literal a = true ->
  exists d A', list_ascii_of_string a = d :: A' /\ is_digit d = true /\
               number_chars (d :: A') = true /\ (dots (d :: A') <= 1)%nat /\
               a = string_of_list_ascii (d :: A').
Proof.
  unfold is_number_literal. intros H.
  destruct (list_ascii_of_string a) as [|d A'] eqn:E; [discriminate|].
  apply andb_prop in H as [H HD]. apply andb_prop in H as [Hd Hn].
  exists d, A'. repeat split; auto.
  - apply Nat.leb_le, HD.
  - rewrite <- E. symmetry. apply string_of_list_ascii_of_string.
Qed.

Lemma lex_one_number_end (i : nat) (d : ascii) (A' : list ascii) :
  is_digit d = true -> number_chars (d :: A') = true -> (dots (d :: A') <= 1)%nat ->
  lex_one i d A' =
  inr (Emit (mk_token TNumber (d :: A') i (i + S (List.length A'))), i + S (List.length A'), []).
Proof.
  intros Hd Hn HD. rewrite <- (app_nil_r A') at 1. apply lex_one_number; auto.
Qed.

Lemma length_string_of_list_ascii (l : list ascii) :
  String.length (string_of_list_ascii l) = List.length l.
Proof. induction l as [|c l IH]; cbn; congruence. Qed.

Lemma pow_chain_chars (a b c : string) :
  list_ascii_of_string (pow_chain a b c) =
  app (list_ascii_of_string a)
      ("^"%char :: app (list_ascii_of_string b) ("^"%char :: list_ascii_of_string c)).
Proof.
  unfold pow_chain. rewrite list_ascii_of_string_append. cbn.
  rewrite list_ascii_of_string_append. reflexivity.
Qed.

Lemma pow_grouped_chars (a b c : string) :
  list_ascii_of_string (pow_grouped a b c) =
  "("%char :: app (list_ascii_of_string a)
      ("^"%char :: app (list_ascii_of_string b) (")"%char :: "^"%char :: list_ascii_of_string c)).
Proof.
  unfold pow_grouped. cbn. rewrite list_ascii_of_string_append. cbn.
  rewrite list_ascii_of_string_append. reflexivity.
Qed.

Ltac lengths := repeat first [rewrite length_app | progress cbn [List.length]].

Section PowLiterals.
Variables (d e g : ascii) (A' B' C' : list ascii).
Hypotheses (Hd : is_digit d = true) (Hn : number_chars (d :: A') = true)
           (HD : (dots (d :: A') <= 1)%nat)
           (He : is_digit e = true) (Hm : number_chars (e :: B') = true)
           (HE : (dots (e :: B') <= 1)%nat)
           (Hg : is_digit g = true) (Ho : number_chars (g :: C') = true)
           (HG : (dots (g :: C') <= 1)%nat).

Let na := List.length (d :: A').
Let nb := List.length (e :: B').
Let nc := List.length (g :: C').

Lemma tokens_pow_chain :
  tokenize (pow_chain (string_of_list_ascii (d :: A')) (string_of_list_ascii (e :: B'))
                      (string_of_list_ascii (g :: C'))) = inr
    [mk_token TNumber (d :: A') 0 na; mk_token TOperator ["^"%char] na (S na);
     mk_token TNumber (e :: B') (S na) (S na + nb);
     mk_token TOperator ["^"%char] (S na + nb) (S (S na + nb));
     mk_token TNumber (g :: C') (S (S na + nb)) (S (S na + nb) + nc);
     mk_token TEof [] (S (S na + nb) + nc) (S (S na + nb) + nc)].
Proof.
  unfold tokenize. rewrite pow_chain_chars, !list_ascii_of_string_of_list_ascii.
  cbv zeta.
  assert (T : tokenize_from 6 0 (app (d :: A') ("^"%char :: app (e :: B') ("^"%char :: g :: C')))
              = inr [mk_token TNumber (d :: A') 0 na; mk_token TOperator ["^"%char] na (S na);
                     mk_token TNumber (e :: B') (S na) (S na + nb);
                     mk_token TOperator ["^"%char] (S na + nb) (S (S na + nb));
                     mk_token TNumber (g :: C') (S (S na + nb)) (S (S na + nb) + nc)]).
  { cbn [app].
    rewrite tokenize_from_cons, lex_one_number by auto. cbv beta iota.
    rewrite tokenize_from_cons, lex_one_caret. cbv beta iota.
    rewrite tokenize_from_cons, lex_one_number by auto. cbv beta iota.
    rewrite tokenize_from_cons, lex_one_caret. cbv beta iota.
    rewrite tokenize_from_cons, lex_one_number_end by auto. cbv beta iota.
    rewrite tokenize_from_nil. reflexivity. }
  rewrite (tokenize_from_mono 6 (S (List.length (app (d :: A')
             ("^"%char :: app (e :: B') ("^"%char :: g :: C'))))) 0 _ _
             ltac:(lengths; lia) T).
  lengths. unfold na, nb, nc. cbn [List.length app].
  match goal with
  | |- inr (_ :: _ :: _ :: _ :: _ :: [mk_token TEof [] ?x ?x]) =
       inr (_ :: _ :: _ :: _ :: _ :: [mk_token TEof [] ?y ?y]) =>
    replace x with y by lia
  end; reflexivity.
Qed.

Lemma parse_pow_grouped {num : Type} `{JsNumber num} :
  exists sa sb sab sc s,
    @parseExpression num _
      (pow_grouped (string_of_list_ascii (d :: A')) (string_of_list_ascii (e :: B'))
                   (string_of_list_ascii (g :: C'))) =
    inr (BinaryExpression BPow
           (BinaryExpression BPow (NumberLiteral (js_literal (string_of_list_ascii (d :: A'))) sa)
                                  (NumberLiteral (js_literal (string_of_list_ascii (e :: B'))) sb) sab)
           (NumberLiteral (js_literal (string_of_list_ascii (g :: C'))) sc) s).
Proof.
  unfold parseExpression, tokenize.
  rewrite pow_grouped_chars, !list_ascii_of_string_of_list_ascii. cbv zeta.
  set (L := "("%char :: app (d :: A') ("^"%char :: app (e :: B') (")"%char :: "^"%char :: g :: C'))).
  eassert (T : tokenize_from 8 0 L = inr _).
  { unfold L. cbn [app].
    rewrite tokenize_from_cons, lex_one_lparen. cbv beta iota.
    rewrite tokenize_from_cons, lex_one_number by auto. cbv beta iota.
    rewrite tokenize_from_cons, lex_one_caret. cbv beta iota.
    rewrite tokenize_from_cons, lex_one_number by auto. cbv beta iota.
    rewrite tokenize_from_cons, lex_one_rparen. cbv beta iota.
    rewrite tokenize_from_cons, lex_one_caret. cbv beta iota.
    rewrite tokenize_from_cons, lex_one_number_end by auto. cbv beta iota.
    rewrite tokenize_from_nil. reflexivity. }
  rewrite (tokenize_from_mono 8 (S (List.length L)) 0 _ _ ltac:(unfold L; lengths; lia) T).
  cbn. do 5 eexists. reflexivity.
Qed.
End PowLiterals.
(** Induction over ASTs, with the arguments of a call as a list. *)
Lemma ExpressionNode_ind' {num : Type} (P : ExpressionNode num -> Prop)
  (Hnum : forall v sp, P (NumberLiteral v sp))
  (Hbool : forall b sp, P (BooleanLiteral b sp))
  (Hnull : forall sp, P (NullLiteral sp))
  (Hid : forall name sp, P (Identifier name sp))
  (Hun : forall op arg sp, P arg -> P (UnaryExpression op arg sp))
  (Hbin : forall op l r sp, P l -> P r -> P (BinaryExpression op l r sp))
  (Hcall : forall callee csp args sp, Forall P args -> P (CallExpression callee csp args sp)) :
  forall e, P e.
Proof.
  refine (fix F e := match e with
                     | NumberLiteral v sp => Hnum v sp
                     | BooleanLiteral b sp => Hbool b sp
                     | NullLiteral sp => Hnull sp
                     | Identifier name sp => Hid name sp
                     | UnaryExpression op arg sp => Hun op arg sp (F arg)
                     | BinaryExpression op l r sp => Hbin op l r sp (F l) (F r)
                     | CallExpression callee csp args sp => Hcall callee csp args sp _
                     end).
  induction args as [|a args IH]; constructor; [apply F | exact IH].
Qed.

Lemma set_add_In (x y : string) (s : list string) : In x (set_add y s) <-> In x s \/ x = y.
Proof.
  unfold set_add. destruct (existsb (String.eqb y) s) eqn:E.
  - apply existsb_exists in E as (z & Hz & Ez). apply String.eqb_eq in Ez. subst z.
    split; [auto|]. intros [H|H]; [exact H|subst; exact Hz].
  - rewrite in_app_iff. cbn. intuition.
Qed.

Lemma set_add_NoDup (y : string) (s : list string) : NoDup s -> NoDup (set_add y s).
Proof.
  unfold set_add. destruct (existsb (String.eqb y) s) eqn:E; intros H; [exact H|].
  apply NoDup_app; [exact H | repeat constructor; auto |].
  intros z Hz [<-|[]]. apply Bool.not_true_iff_false in E. apply E.
  apply existsb_exists. exists y. split; [exact Hz | apply String.eqb_refl].
Qed.

(** The loop over the arguments of a call. *)
Lemma listIdentifiers_call {num : Type} callee csp (args : list (ExpressionNode num)) sp acc :
  listIdentifiers (CallExpression callee csp args sp) acc =
  fold_left (fun ids a => listIdentifiers a ids) args acc.
Proof. cbn. revert acc. induction args as [|a args IH]; intros acc; cbn; [reflexivity | apply IH]. Qed.

Lemma listIdentifiers_In {num : Type} (e : ExpressionNode num) :
  forall acc x, In x (listIdentifiers e acc) <-> In x acc \/ occurs_identifier x e.
Proof.
  induction e as [v sp|b sp|sp|name sp|op arg sp IH|op l r sp IHl IHr|callee csp args sp IHargs]
    using ExpressionNode_ind'; intros acc x.
  1-3: cbn; split; [auto | intros [H|H]; [exact H | inversion H]].
  - cbn. rewrite set_add_In. split.
    + intros [H|<-]; [auto | right; constructor].
    + intros [H|H]; [auto | inversion H; auto].
  - cbn. rewrite IH. split.
    + intros [H|H]; [auto | right; now constructor].
    + intros [H|H]; [auto | inversion H; auto].
  - cbn. rewrite IHr, IHl. split.
    + intros [[H|H]|H]; [auto | right; now apply occurs_left | right; now apply occurs_right].
    + intros [H|H]; [auto | inversion H; auto].
  - rewrite listIdentifiers_call.
    assert (G : forall acc, In x (fold_left (fun ids a => listIdentifiers a ids) args acc) <->
                            In x acc \/ exists a, In a args /\ occurs_identifier x a).
    { induction IHargs as [|a args Ha Hargs IH]; intros acc'; cbn.
      - split; [auto | intros [H|(? & [] & _)]; exact H].
      - rewrite IH, Ha. split.
        + intros [[H|H]|(a' & H1 & H2)]; [auto | right; eauto | right; eauto].
        + intros [H|(a' & [<-|H1] & H2)]; [auto | auto | eauto]. }
    rewrite G. split.
    + intros [H|(a & H1 & H2)]; [auto | right; econstructor; eauto].
    + intros [H|H]; [auto | inversion H; eauto].
Qed.

Lemma listIdentifiers_NoDup {num : Type} (e : ExpressionNode num) :
  forall acc, NoDup acc -> NoDup (listIdentifiers e acc).
Proof.
  induction e as [v sp|b sp|sp|name sp|op arg sp IH|op l r sp IHl IHr|callee csp args sp IHargs]
    using ExpressionNode_ind'; intros acc Hacc.
  1-3: exact Hacc.
  - apply set_add_NoDup, Hacc.
  - cbn. auto.
  - cbn. auto.
  - rewrite listIdentifiers_call. revert acc Hacc.
    induction IHargs as [|a args Ha Hargs IH]; intros acc Hacc; cbn; auto.
Qed.

End ExprProofs.


Module SessionProofs.
Import Expr Session SpecSession.

Lemma phase_eqb_true (p q : GamePhase) : phase_eqb p q = true <-> p = q.
Proof. destruct p, q; cbv; split; congruence. Qed.

Lemma phase_eqb_refl (p : GamePhase) : phase_eqb p p = true.
Proof. apply phase_eqb_true; reflexivity. Qed.

Lemma phase_eqb_false (p q : GamePhase) : p <> q -> phase_eqb p q = false.
Proof.
  intros Hne. destruct (phase_eqb p q) eqn:E; [apply phase_eqb_true in E; congruence | reflexivity].
Qed.

Lemma bind_fail {S A B} (m : StEx.M S A) (k : A -> StEx.M S B) s e s' :
  m s = (inl e, s') -> StEx.bind m k s = (inl e, s').
Proof. intros E. unfold StEx.bind. rewrite E. reflexivity. Qed.

Lemma bind_ok {S A B} (m : StEx.M S A) (k : A -> StEx.M S B) s a s' :
  m s = (inr a, s') -> StEx.bind m k s = k a s'.
Proof. intros E. unfold StEx.bind. rewrite E. reflexivity. Qed.

Lemma lookup_set_same {V} (k : string) (v : V) (o : Obj.t V) :
  Obj.lookup k (Obj.set k v o) = Some v.
Proof.
  induction o as [|[k' v'] r IH]; cbn.
  - rewrite String.eqb_refl. reflexivity.
  - destruct (String.eqb k k') eqn:E; cbn; rewrite E; [reflexivity | exact IH].
Qed.

Section Props.
Context {num : Type} `{JsNumber num}.

Lemma ensurePhase_ok (p : GamePhase) (s : GameSession num) :
  phase s = p -> ensurePhase p s = (inr tt, s).
Proof. intros <-. unfold ensurePhase. rewrite phase_eqb_refl. reflexivity. Qed.

Lemma ensurePhase_fail (p : GamePhase) (s : GameSession num) :
  phase s <> p -> ensurePhase p s = (inl (PlainError (phase_mismatch (phase s) p)), s).
Proof. intros Hne. unfold ensurePhase. rewrite (phase_eqb_false _ _ Hne). reflexivity. Qed.

Lemma roll_wrong_phase fuel (s : GameSession num) :
  phase s <> PRoll -> roll fuel s = (inl (PlainError (phase_mismatch (phase s) PRoll)), s).
Proof. intros Hne. apply bind_fail, ensurePhase_fail, Hne. Qed.

Lemma choose_wrong_phase actionId (s : GameSession num) :
  phase s <> PChoose -> choose actionId s = (inl (PlainError (phase_mismatch (phase s) PChoose)), s).
Proof. intros Hne. apply bind_fail, ensurePhase_fail, Hne. Qed.

Lemma apply_wrong_phase (s : GameSession num) :
  phase s <> PApply -> apply s = (inl (PlainError (phase_mismatch (phase s) PApply)), s).
Proof. intros Hne. apply bind_fail, ensurePhase_fail, Hne. Qed.

Lemma endTurn_wrong_phase (s : GameSession num) :
  phase s <> PEnd -> endTurn s = (inl (PlainError (phase_mismatch (phase s) PEnd)), s).
Proof. intros Hne. apply bind_fail, ensurePhase_fail, Hne. Qed.

Lemma new_session_phase t seed (s : GameSession num) :
  new_session t seed = inr s -> phase s = PRoll.
Proof.
  unfold new_session. destruct (Rng.create seed); intros E; inversion E; reflexivity.
Qed.

(** *** [apply()] *)

Lemma apply_effects_app t a (l1 l2 : list (CompiledActionEffect num)) acc :
  apply_effects t a (l1 ++ l2) acc =
  match apply_effects t a l1 acc with
  | inl e => inl e
  | inr acc' => apply_effects t a l2 acc'
  end.
Proof.
  revert acc. induction l1 as [|eff l1 IH]; intros acc; cbn; [reflexivity|].
  destruct (effect_step t a eff acc); [reflexivity | apply IH].
Qed.

(** Every throw of [apply()] happens before its first assignment. *)
Lemma apply_throw_unchanged (s s' : GameSession num) e :
  apply s = (inl e, s') -> s' = s.
Proof.
  unfold apply, StEx.bind.
  destruct (ensurePhase PApply s) as [[e0|[]] s0] eqn:Ep.
  - unfold ensurePhase in Ep. destruct (phase_eqb (phase s) PApply); inversion Ep; congruence.
  - unfold ensurePhase in Ep. destruct (phase_eqb (phase s) PApply); inversion Ep; subst s0.
    unfold applyChosenAction, StEx.bind, StEx.get.
    destruct (chosenAction s) as [a|].
    + destruct (apply_effects (template s) a (effects a) (apply_start s)).
      * cbn. congruence.
      * cbn. discriminate.
    + cbn. congruence.
Qed.
End Props.

(** *** The event log only grows, one timestamp per event *)
Section Log.
Context {num : Type} `{JsNumber num}.

Definition stamped (s : GameSession num) : Prop :=
  map event_timestamp (history s) = seq 1 (List.length (history s)) /\
  timestampCounter s = List.length (history s).

Definition grows (s s' : GameSession num) : Prop :=
  (exists l, history s' = history s ++ l) /\ (stamped s -> stamped s').

Definition Grows {A} (m : SessionM A) : Prop := forall s, grows s (snd (m s)).

Lemma grows_refl s : grows s s.
Proof. split; [exists []; rewrite app_nil_r; reflexivity | tauto]. Qed.

Lemma grows_trans s1 s2 s3 : grows s1 s2 -> grows s2 s3 -> grows s1 s3.
Proof.
  intros [[l1 E1] P1] [[l2 E2] P2]. split; [|tauto].
  exists (l1 ++ l2). rewrite E2, E1, app_assoc. reflexivity.
Qed.

Lemma Grows_bind {A B} (m : SessionM A) (k : A -> SessionM B) :
  Grows m -> (forall a, Grows (k a)) -> Grows (StEx.bind m k).
Proof.
  intros Hm Hk s. unfold StEx.bind. specialize (Hm s).
  destruct (m s) as [[e|a] s1]; cbn in *; [exact Hm|].
  eapply grows_trans; [exact Hm | apply Hk].
Qed.

Lemma Grows_same {A} (m : SessionM A) : (forall s, snd (m s) = s) -> Grows m.
Proof. intros E s. rewrite E. apply grows_refl. Qed.

Lemma Grows_ret {A} (a : A) : Grows (StEx.ret a).
Proof. apply Grows_same; reflexivity. Qed.

Lemma Grows_throw {A} e : Grows (A := A) (StEx.throw e).
Proof. apply Grows_same; reflexivity. Qed.

Lemma Grows_get : Grows StEx.get.
Proof. apply Grows_same; reflexivity. Qed.

Lemma Grows_liftE {A} (x : Exn + A) : Grows (StEx.liftE x).
Proof. apply Grows_same; reflexivity. Qed.

Lemma Grows_ensure p : Grows (ensurePhase p).
Proof. apply Grows_same. intros s. unfold ensurePhase. destruct (phase_eqb (phase s) p); reflexivity. Qed.

(** A step that touches neither [history] nor [timestampCounter]. *)
Lemma Grows_frame {A} (m : SessionM A) :
  (forall s, history (snd (m s)) = history s /\ timestampCounter (snd (m s)) = timestampCounter s) ->
  Grows m.
Proof.
  intros Hf s. destruct (Hf s) as [Eh Ec]. split.
  - exists []. rewrite Eh, app_nil_r. reflexivity.
  - unfold stamped. rewrite Eh, Ec. tauto.
Qed.

Lemma Grows_modify (f : GameSession num -> GameSession num) :
  (forall s, history (f s) = history s /\ timestampCounter (f s) = timestampCounter s) ->
  Grows (StEx.modify f).
Proof. intros Hf. apply Grows_frame. exact Hf. Qed.

Lemma Grows_record mk : (forall ts, event_timestamp (mk ts) = ts) -> Grows (record mk).
Proof.
  intros Hmk s. cbn. split.
  - eexists. reflexivity.
  - unfold stamped. cbn. intros [Em Ec].
    rewrite map_app, length_app, Em, Ec. cbn. rewrite Hmk, Nat.add_1_r. split; [|reflexivity].
    rewrite seq_S. reflexivity.
Qed.

Lemma Grows_update_turn_log f : Grows (update_turn_log f).
Proof. apply Grows_modify. split; reflexivity. Qed.

Lemma Grows_startTurnLog : Grows startTurnLog.
Proof. apply Grows_modify. split; reflexivity. Qed.

Lemma Grows_finalize : Grows finalizeTurnLog.
Proof.
  apply Grows_modify. intros s. cbn.
  destruct (currentReplayTurn s) as [[? [?|] [[|? ?]|] [?|]]|]; split; reflexivity.
Qed.

Lemma Grows_rng_nextInt fuel sides : Grows (rng_nextInt fuel sides).
Proof.
  apply Grows_frame. intros s. unfold rng_nextInt.
  destruct (Rng.nextInt fuel sides (rng s)). split; reflexivity.
Qed.

Lemma Grows_roll_loop fuel count sides i : Grows (roll_loop fuel count sides i).
Proof.
  revert i. induction fuel as [|f IH]; intros i; cbn [roll_loop]; [apply Grows_throw|].
  destruct (js_lt (js_of_Z i) count); [|apply Grows_ret].
  apply Grows_bind; [apply Grows_rng_nextInt | intros v].
  apply Grows_bind; [apply IH | intros rest; apply Grows_ret].
Qed.

Ltac grows_bind := apply Grows_bind; [|intro].

Ltac grows :=
  repeat first
    [ apply Grows_ret | apply Grows_throw | apply Grows_get | apply Grows_liftE
    | apply Grows_ensure | apply Grows_record; intro; reflexivity | apply Grows_update_turn_log
    | apply Grows_startTurnLog | apply Grows_finalize | apply Grows_rng_nextInt
    | apply Grows_roll_loop
    | apply Grows_modify; split; reflexivity
    | grows_bind
    | match goal with
      | |- Grows (match ?x with _ => _ end) => destruct x
      | |- Grows (if ?x then _ else _) => destruct x
      end ].

Lemma Grows_roll fuel : Grows (roll fuel).
Proof. unfold roll. cbv zeta. grows. Qed.

Lemma Grows_choose actionId : Grows (choose actionId).
Proof. unfold choose. grows. Qed.

Lemma Grows_apply : Grows apply.
Proof. unfold apply, applyChosenAction. grows. Qed.

Lemma Grows_endTurn : Grows endTurn.
Proof. unfold endTurn. grows. Qed.

Lemma new_session_stamped t seed (s : GameSession num) :
  new_session t seed = inr s -> stamped s.
Proof.
  unfold new_session. destruct (Rng.create seed); intros E; inversion E; subst.
  split; reflexivity.
Qed.

Lemma reachable_stamped (s : GameSession num) : session_reachable s -> stamped s.
Proof.
  induction 1 as [t seed s E|fuel s _ IH|actionId s _ IH|s _ IH|s _ IH].
  - exact (new_session_stamped t seed s E).
  - exact (proj2 (Grows_roll fuel s) IH).
  - exact (proj2 (Grows_choose actionId s) IH).
  - exact (proj2 (Grows_apply s) IH).
  - exact (proj2 (Grows_endTurn s) IH).
Qed.
End Log.

(** *** More fuel changes nothing once a run does not run out of it *)
Lemma bind_no_oof {S A B} (m : StEx.M S A) (k : A -> StEx.M S B) s :
  fst (StEx.bind m k s) <> inl OutOfFuel -> fst (m s) <> inl OutOfFuel.
Proof.
  unfold StEx.bind. destruct (m s) as [[e|a] s1]; cbn.
  - intros H1 H2. apply H1. inversion H2. reflexivity.
  - intros _. discriminate.
Qed.

Lemma bind_no_oof_k {S A B} (m : StEx.M S A) (k : A -> StEx.M S B) s a s1 :
  m s = (inr a, s1) -> fst (StEx.bind m k s) <> inl OutOfFuel -> fst (k a s1) <> inl OutOfFuel.
Proof. intros E. unfold StEx.bind. rewrite E. tauto. Qed.

Lemma bind_mono_step {S A B} (m m' : StEx.M S A) (k k' : A -> StEx.M S B) s :
  (fst (m s) <> inl OutOfFuel -> m' s = m s) ->
  (forall a s1, m s = (inr a, s1) -> fst (k a s1) <> inl OutOfFuel -> k' a s1 = k a s1) ->
  fst (StEx.bind m k s) <> inl OutOfFuel -> StEx.bind m' k' s = StEx.bind m k s.
Proof.
  intros Hm Hk Hf. pose proof (bind_no_oof _ _ _ Hf) as Hf1.
  unfold StEx.bind at 1. rewrite (Hm Hf1).
  unfold StEx.bind. destruct (m s) as [[e|a] s1] eqn:E; [reflexivity|].
  apply Hk; [reflexivity|]. unfold StEx.bind in Hf. rewrite E in Hf. exact Hf.
Qed.

Lemma nextInt_loop_mono f f' b T r :
  (f <= f')%nat -> fst (Rng.nextInt_loop f b T r) <> inl OutOfFuel ->
  Rng.nextInt_loop f' b T r = Rng.nextInt_loop f b T r.
Proof.
  revert f' r. induction f as [|f IH]; intros f' r Hle Hf; [cbn in Hf; congruence|].
  destruct f' as [|f']; [lia|]. cbn [Rng.nextInt_loop] in *.
  destruct (Rng.nextBigInt r) as [v r1].
  destruct (v <? T); [reflexivity|]. apply IH; [lia | exact Hf].
Qed.

Section Fuel.
Context {num : Type} `{JsNumber num}.

Definition Mono {A} (m : nat -> SessionM A) : Prop :=
  forall f f' (s : GameSession num), (f <= f')%nat -> fst (m f s) <> inl OutOfFuel ->
  m f' s = m f s.

Lemma Mono_const {A} (m : SessionM A) : Mono (fun _ => m).
Proof. intros f f' s _ _. reflexivity. Qed.

Lemma Mono_bind {A B} (m : nat -> SessionM A) (k : A -> nat -> SessionM B) :
  Mono m -> (forall a, Mono (k a)) -> Mono (fun f => StEx.bind (m f) (fun a => k a f)).
Proof.
  intros Hm Hk f f' s Hle Hf. apply bind_mono_step; [| |exact Hf].
  - apply Hm, Hle.
  - intros a s1 _. apply Hk, Hle.
Qed.

Lemma Mono_rng_nextInt sides : Mono (fun f => rng_nextInt f sides).
Proof.
  intros f f' s Hle Hf. unfold rng_nextInt, Rng.nextInt in *.
  destruct (js_to_integer sides) as [b|]; [|reflexivity].
  destruct (b <=? 0); [reflexivity|].
  cbv zeta in *. unfold StEx.bind, StEx.ret in *.
  rewrite (nextInt_loop_mono f f'); [reflexivity | exact Hle |].
  revert Hf. destruct (Rng.nextInt_loop f _ _ (rng s)) as [[e|z] r1]; cbn [fst]; congruence.
Qed.

Lemma Mono_roll_loop count sides i : Mono (fun f => roll_loop f count sides i).
Proof.
  intros f. revert i. induction f as [|f IH]; intros i f' s Hle Hf; [cbn in Hf; congruence|].
  destruct f' as [|f']; [lia|]. cbn [roll_loop] in *.
  destruct (js_lt (js_of_Z i) count); [|reflexivity].
  apply bind_mono_step; [| |exact Hf].
  - apply Mono_rng_nextInt, Hle.
  - intros v s1 _ Hk. apply bind_mono_step; [| |exact Hk].
    + apply IH. lia.
    + reflexivity.
Qed.

Ltac mono_bind := refine (Mono_bind _ (fun a f => _) _ _); [|intro].

Ltac mono :=
  repeat first
    [ apply Mono_const | apply Mono_roll_loop
    | mono_bind
    | match goal with
      | |- Mono (fun _ => match ?x with _ => _ end) => destruct x
      | |- Mono (fun _ => if ?x then _ else _) => destruct x
      end ].

Lemma Mono_roll : Mono roll.
Proof. unfold roll. cbv zeta. mono. Qed.

Lemma Mono_step (policy : DecisionPolicy num) : Mono (fun f => autoplay_step f policy).
Proof.
  unfold autoplay_step, when_phase.
  refine (Mono_bind _ (fun a f => _) _ _); [|intros ?].
  - refine (Mono_bind (fun _ => StEx.get) (fun s f => _) (Mono_const _) _). intros s.
    destruct (phase_eqb (phase s) PRoll); [|apply Mono_const].
    refine (Mono_bind _ (fun _ _ => StEx.ret tt) Mono_roll _). intros ?. apply Mono_const.
  - apply Mono_const.
Qed.

Lemma Mono_loop (policy : DecisionPolicy num) : Mono (fun f => autoplay_loop f policy).
Proof.
  intros f. induction f as [|f IH]; intros f' s Hle Hf; [cbn in Hf; congruence|].
  destruct f' as [|f']; [lia|]. cbn [autoplay_loop] in *.
  apply bind_mono_step; [reflexivity | |exact Hf].
  intros s0 s1 _ Hk. destruct (phase_eqb (phase s0) PComplete); [reflexivity|].
  apply bind_mono_step; [| |exact Hk].
  - apply Mono_step, Hle.
  - intros [] s2 _. apply IH. lia.
Qed.

Lemma autoplay_mono (policy : DecisionPolicy num) t seed f f' :
  (f <= f')%nat -> autoplay f t policy seed <> inl OutOfFuel ->
  autoplay f' t policy seed = autoplay f t policy seed.
Proof.
  intros Hle Hf. unfold autoplay in *.
  destruct (new_session t seed) as [e|s]; [reflexivity|].
  assert (Hl : fst (autoplay_loop f policy s) <> inl OutOfFuel).
  { revert Hf. destruct (autoplay_loop f policy s) as [[e|[]] s']; cbn; [|discriminate].
    intros H1 H2. apply H1. inversion H2. reflexivity. }
  rewrite (Mono_loop policy f f' s Hle Hl). reflexivity.
Qed.
End Fuel.

End SessionProofs.

Module ExprClaims.
Import Expr SpecExpr ExprProofs.

(** C8: [compile("1 + 2 * 3")] evaluates to 7 and [compile("(1+2)*3")] to 9
    in the empty context; and for any numeric literals [a], [b], [c] (and
    any number representation), ["a^b^c"] parses as [(a^b)^c], each [^]
    taking the single operand on its right, and evaluates in every context
    exactly as ["(a^b)^c"] does. *)
Theorem precedence_and_pow_left_assoc :
  (forall rng_fuel st,
      eval_source (num := QNum.jsq) rng_fuel "1 + 2 * 3" empty_context st
      = (inr (VNum (QNum.JFin 7)), st)) /\
  (forall rng_fuel st,
      eval_source (num := QNum.jsq) rng_fuel "(1+2)*3" empty_context st
      = (inr (VNum (QNum.JFin 9)), st)) /\
  (forall (num : Type) `{JsNumber num} (a b c : string),
      is_number_literal a = true -> is_number_literal b = true -> is_number_literal c = true ->
      let na := String.length a in
      let nb := String.length b in
      let nc := String.length c in
      parseExpression (pow_chain a b c) =
        inr (BinaryExpression BPow
               (BinaryExpression BPow
                  (NumberLiteral (js_literal a) {| start := 0; stop := na |})
                  (NumberLiteral (js_literal b) {| start := S na; stop := S na + nb |})
                  {| start := 0; stop := S na + nb |})
               (NumberLiteral (js_literal c) {| start := S (S na + nb); stop := S (S na + nb) + nc |})
               {| start := 0; stop := S (S na + nb) + nc |})%nat /\
      (forall rng_fuel context st,
          eval_source rng_fuel (pow_chain a b c) context st =
          eval_source rng_fuel (pow_grouped a b c) context st)).
Proof.
  split; [intros; vm_compute; reflexivity|].
  split; [intros; vm_compute; reflexivity|].
  intros num J a b c Ha Hb Hc na nb nc.
  destruct (number_literal_shape a Ha) as (d & A' & _ & Hd & Hn & HD & Ea).
  destruct (number_literal_shape b Hb) as (e & B' & _ & He & Hm & HE & Eb).
  destruct (number_literal_shape c Hc) as (g & C' & _ & Hg & Ho & HG & Ec).
  unfold na, nb, nc. clear na nb nc.
  subst a b c. rewrite !length_string_of_list_ascii.
  assert (P : @parseExpression num _
                (pow_chain (string_of_list_ascii (d :: A')) (string_of_list_ascii (e :: B'))
                           (string_of_list_ascii (g :: C'))) =
              inr (BinaryExpression BPow
                     (BinaryExpression BPow
                        (NumberLiteral (js_literal (string_of_list_ascii (d :: A')))
                           {| start := 0; stop := List.length (d :: A') |})
                        (NumberLiteral (js_literal (string_of_list_ascii (e :: B')))
                           {| start := S (List.length (d :: A'));
                              stop := S (List.length (d :: A')) + List.length (e :: B') |})
                        {| start := 0; stop := S (List.length (d :: A')) + List.length (e :: B') |})
                     (NumberLiteral (js_literal (string_of_list_ascii (g :: C')))
                        {| start := S (S (List.length (d :: A')) + List.length (e :: B'));
                           stop := S (S (List.length (d :: A')) + List.length (e :: B'))
                                   + List.length (g :: C') |})
                     {| start := 0; stop := S (S (List.length (d :: A')) + List.length (e :: B'))
                                            + List.length (g :: C') |})%nat).
  { unfold parseExpression. rewrite tokens_pow_chain by auto. reflexivity. }
  split; [exact P|].
  intros rng_fuel context st.
  destruct (parse_pow_grouped d e g A' B' C' Hd Hn HD He Hm HE Hg Ho HG (num := num))
    as (sa & sb & sab & sc & s & P').
  unfold eval_source, compileExpression. rewrite P, P'. reflexivity.
Qed.

(** The hypotheses of C8 hold for the literals 2, 3 and 2 ([2^3^2] is 64). *)
Lemma precedence_and_pow_left_assoc_witness :
  is_number_literal "2" = true /\
  parseExpression (num := QNum.jsq) (pow_chain "2" "3" "2") =
    inr (BinaryExpression BPow
           (BinaryExpression BPow (NumberLiteral (QNum.literal "2"%string) {| start := 0; stop := 1 |})
              (NumberLiteral (QNum.literal "3"%string) {| start := 2; stop := 3 |}) {| start := 0; stop := 3 |})
           (NumberLiteral (QNum.literal "2"%string) {| start := 4; stop := 5 |}) {| start := 0; stop := 5 |})%nat.
Proof.
  split; [reflexivity|].
  destruct (proj2 (proj2 precedence_and_pow_left_assoc) QNum.jsq _ "2"%string "3"%string "2"%string
              eq_refl eq_refl eq_refl) as [P _].
  exact P.
Defined.
(** C10: for every AST, [listIdentifiers(node)] holds each name of an
    Identifier node occurring outside the callee position of a call (the
    callee's own name is never added, names inside the arguments are), and
    nothing else, and holds each such name once. *)
Theorem listIdentifiers_exact {num : Type} (e : ExpressionNode num) :
  NoDup (listIdentifiers e []) /\
  (forall x, In x (listIdentifiers e []) <-> occurs_identifier x e).
Proof.
  split.
  - apply listIdentifiers_NoDup. constructor.
  - intros x. rewrite listIdentifiers_In. cbn. intuition.
Qed.

End ExprClaims.

Module SessionClaims.
Import Expr Session SpecSession SessionProofs.
Local Open Scope string_scope.

(** C1: [autoplay] reads nothing but its arguments (the template, the
    policy, which is a function, and the seed: no clock, no global
    random source), so two calls with the same arguments return the same
    value.  What needs proof is that the bound [fuel] on the loops
    ([while (!session.isComplete())], the dice loop and the rejection
    loop of [nextInt]) is not an input: any two runs that do not run out
    of it return the same [ReplayRecord] (template id and version,
    serialized seed, per-turn records, final score), or the same error. *)
Theorem autoplay_deterministic {num : Type} `{JsNumber num} (t : CompiledTemplate num)
    (policy : DecisionPolicy num) (seed : option (@Rng.SeedInput num)) (f1 f2 : nat) :
  autoplay f1 t policy seed <> inl OutOfFuel ->
  autoplay f2 t policy seed <> inl OutOfFuel ->
  autoplay f1 t policy seed = autoplay f2 t policy seed.
Proof.
  intros H1 H2. destruct (Nat.le_ge_cases f1 f2) as [Hle|Hle].
  - symmetry. apply autoplay_mono; assumption.
  - apply autoplay_mono; assumption.
Qed.

Lemma autoplay_deterministic_witness :
  autoplay 20 ore_template highestPriorityPolicy seed42 <> inl OutOfFuel /\
  autoplay 50 ore_template highestPriorityPolicy seed42 <> inl OutOfFuel /\
  autoplay 20 ore_template highestPriorityPolicy seed42 =
  autoplay 50 ore_template highestPriorityPolicy seed42.
Proof.
  assert (H1 : autoplay 20 ore_template highestPriorityPolicy seed42 <> inl OutOfFuel)
    by (vm_compute; discriminate).
  assert (H2 : autoplay 50 ore_template highestPriorityPolicy seed42 <> inl OutOfFuel)
    by (vm_compute; discriminate).
  exact (conj H1 (conj H2 (autoplay_deterministic ore_template highestPriorityPolicy seed42
                             20 50 H1 H2))).
Defined.
(** C5: [apply()] is all or nothing.  Every throw of [apply()] leaves the
    whole session (resources included) as it was; and if, with the
    session in phase [apply] and an action chosen, the effects [pre]
    before some effect [eff] succeed and [eff] fails (non-numeric
    result, unknown resource, minimum undercut, maximum exceeded without
    clamp), then [apply()] throws that error: the changes of [pre] are
    not committed. *)
Theorem apply_all_or_nothing {num : Type} `{JsNumber num} :
  (forall (s s' : GameSession num) e, apply s = (inl e, s') -> s' = s) /\
  (forall (s : GameSession num) a pre eff post acc e,
     phase s = PApply -> chosenAction s = Some a -> effects a = app pre (eff :: post) ->
     apply_effects (template s) a pre (apply_start s) = inr acc ->
     effect_step (template s) a eff acc = inl e ->
     apply s = (inl e, s) /\ resources (snd (apply s)) = resources s).
Proof.
  split; [exact apply_throw_unchanged|].
  intros s a pre eff post acc e Hp Hc He Hpre Hstep.
  assert (E : apply s = (inl e, s)).
  { unfold apply. rewrite (bind_ok _ _ _ _ _ (ensurePhase_ok _ _ Hp)).
    apply bind_fail. unfold applyChosenAction, StEx.bind, StEx.get.
    rewrite Hc. cbv beta iota. rewrite He, apply_effects_app, Hpre.
    cbn [apply_effects]. rewrite Hstep. reflexivity. }
  rewrite E. split; reflexivity.
Qed.

Lemma apply_all_or_nothing_witness :
  apply undercut_session = (inl (PlainError "Resource 'gold' cannot drop below 0"), undercut_session) /\
  resources (snd (apply undercut_session)) = resources undercut_session.
Proof.
  apply (proj2 apply_all_or_nothing undercut_session (trade undercut_effects)
           [gold_effect ("3", None)] (gold_effect ("0 - 5", None)) [] undercut_acc).
  - vm_compute. reflexivity.
  - vm_compute. reflexivity.
  - reflexivity.
  - vm_compute. reflexivity.
  - vm_compute. reflexivity.
Defined.

(** C6, as the code has it: for an effect on resource [r] whose update
    [previous + value] exceeds the declared maximum [hi], and does not
    fall below a declared minimum (checked first): with [clamp] the step
    succeeds and [r] becomes [hi] in the resulting snapshot and in the
    variables, and when no earlier effect of the action recorded a delta
    for [r], the delta recorded for it is [hi - previous], so that
    previous plus delta is the maximum; without [clamp] it throws the
    over-maximum error. *)
Theorem clamp_at_max {num : Type} `{JsNumber num} (t : CompiledTemplate num)
    (a : CompiledAction num) (eff : CompiledActionEffect num) (acc : ApplyState num)
    (value hi : num) (definition : ResourceDefinition num) :
  let r := effect_resource eff in
  let previous := lookup_or r (acc_resulting acc) js_nan in
  session_eval (effect_ast eff) (acc_variables acc) = inr (VNum value) ->
  js_is_nan value = false ->
  Obj.lookup r (resourceMap t) = Some definition ->
  max definition = Some hi ->
  js_lt hi (js_add previous value) = true ->
  match min definition with Some lo => js_lt (js_add previous value) lo = false | None => True end ->
  (effect_clamp eff = Some true ->
   exists acc', effect_step t a eff acc = inr acc' /\
     Obj.lookup r (acc_resulting acc') = Some hi /\
     Obj.lookup r (acc_variables acc') = Some (VNum hi) /\
     (Obj.lookup r (acc_deltas acc) = None ->
      Obj.lookup r (acc_deltas acc') = Some (js_sub hi previous))) /\
  (effect_clamp eff <> Some true ->
   effect_step t a eff acc = inl (PlainError (str ["Resource '"; r; "' cannot exceed "; js_to_string hi]))).
Proof.
  intros r previous Hv Hnan Hdef Hmax Hlt Hmin.
  assert (Hstep : forall (clamp : bool), match effect_clamp eff with Some true => true | _ => false end = clamp ->
    effect_step t a eff acc =
    if clamp then
      inr {| acc_deltas := Obj.set r (js_sub hi previous) (acc_deltas acc);
             acc_resulting := Obj.set r hi (acc_resulting acc);
             acc_variables := Obj.set r (VNum hi) (acc_variables acc) |}
    else inl (PlainError (str ["Resource '"; r; "' cannot exceed "; js_to_string hi]))).
  { intros clamp Hc. unfold effect_step. fold r. rewrite Hv, Hnan, Hdef. cbv zeta. fold previous.
    assert (Hb : match min definition with Some m => js_lt (js_add previous value) m | None => false end = false)
      by (destruct (min definition); [exact Hmin | reflexivity]).
    rewrite Hb, Hmax, Hlt, Hc. reflexivity. }
  split.
  - intros Hc. rewrite (Hstep true) by (rewrite Hc; reflexivity).
    eexists. split; [reflexivity|].
    cbn. rewrite !lookup_set_same. repeat split.
  - intros Hc. apply (Hstep false).
    destruct (effect_clamp eff) as [[|]|]; [congruence | reflexivity | reflexivity].
Qed.

Lemma clamp_at_max_witness :
  (exists acc', effect_step (gold_template 0 10 [("20", Some true)]) (trade [("20", Some true)])
                  (gold_effect ("20", Some true)) gold_at_5 = inr acc' /\
     Obj.lookup "gold" (acc_resulting acc') = Some (n 10) /\
     Obj.lookup "gold" (acc_variables acc') = Some (VNum (n 10)) /\
     (Obj.lookup "gold" (acc_deltas gold_at_5) = None ->
      Obj.lookup "gold" (acc_deltas acc') = Some (js_sub (n 10) (n 5)))) /\
  Obj.lookup "gold" (acc_deltas gold_at_5) = None /\
  effect_step (gold_template 0 10 [("20", None)]) (trade [("20", None)])
    (gold_effect ("20", None)) gold_at_5 =
  inl (PlainError (str ["Resource '"; "gold"; "' cannot exceed "; js_to_string (n 10)])).
Proof.
  split.
  - refine (proj1 (clamp_at_max (gold_template 0 10 [("20", Some true)]) (trade [("20", Some true)])
                     (gold_effect ("20", Some true)) gold_at_5 (n 20) (n 10) (gold_def 0 10)
                     _ _ _ _ _ _) _);
      vm_compute; reflexivity.
  - split; [reflexivity|].
    refine (proj2 (clamp_at_max (gold_template 0 10 [("20", None)]) (trade [("20", None)])
                     (gold_effect ("20", None)) gold_at_5 (n 20) (n 10) (gold_def 0 10)
                     _ _ _ _ _ _) _);
      [vm_compute; reflexivity .. | vm_compute; discriminate].
Defined.

(** C6, the claim as stated fails when the declared minimum exceeds the
    maximum (the schema does not forbid it): with [gold] in "[10, 5]" at
    0, an effect [6] marked clamp exceeds the maximum 5, yet [apply()]
    throws, because the minimum is checked first. *)
Lemma clamp_below_min_throws :
  phase (chosen (gold_template 10 5 [("6", Some true)]) "trade") = PApply /\
  js_lt (n 5) (js_add (n 0) (n 6)) = true /\
  apply (chosen (gold_template 10 5 [("6", Some true)]) "trade") =
  (inl (PlainError "Resource 'gold' cannot drop below 10"),
   chosen (gold_template 10 5 [("6", Some true)]) "trade").
Proof. vm_compute. repeat split. Qed.
(** C7: each of [roll()], [choose(actionId)], [apply()] and [endTurn()]
    called outside its phase throws the phase-mismatch error, whose
    message names the current and the expected phase, and leaves the
    whole session object (phase, turn, resources, roll, event log,
    replay buffer, RNG) as it was; in particular [choose()] on a new
    session (phase [roll]) throws and the phase stays [roll]. *)
Theorem wrong_phase_rejected {num : Type} `{JsNumber num} :
  (forall (s : GameSession num) fuel, phase s <> PRoll ->
     roll fuel s = (inl (PlainError (phase_mismatch (phase s) PRoll)), s)) /\
  (forall (s : GameSession num) actionId, phase s <> PChoose ->
     choose actionId s = (inl (PlainError (phase_mismatch (phase s) PChoose)), s)) /\
  (forall (s : GameSession num), phase s <> PApply ->
     apply s = (inl (PlainError (phase_mismatch (phase s) PApply)), s)) /\
  (forall (s : GameSession num), phase s <> PEnd ->
     endTurn s = (inl (PlainError (phase_mismatch (phase s) PEnd)), s)) /\
  (forall t seed (s : GameSession num) actionId, new_session t seed = inr s ->
     choose actionId s = (inl (PlainError "Cannot perform action in phase 'roll'. Expected 'choose'."), s) /\
     phase (snd (choose actionId s)) = PRoll).
Proof.
  split; [intros s fuel; apply roll_wrong_phase|].
  split; [intros s actionId; apply choose_wrong_phase|].
  split; [apply apply_wrong_phase|].
  split; [apply endTurn_wrong_phase|].
  intros t seed s actionId Hs. pose proof (new_session_phase t seed s Hs) as Hp.
  assert (E : choose actionId s = (inl (PlainError (phase_mismatch (phase s) PChoose)), s))
    by (apply choose_wrong_phase; rewrite Hp; discriminate).
  rewrite E. split; [rewrite Hp; reflexivity | exact Hp].
Qed.

Lemma wrong_phase_rejected_witness :
  roll 10 (rolled ore_template) =
    (inl (PlainError (phase_mismatch PChoose PRoll)), rolled ore_template) /\
  choose "mine" (applied ore_template "mine") =
    (inl (PlainError (phase_mismatch PEnd PChoose)), applied ore_template "mine") /\
  apply (rolled ore_template) =
    (inl (PlainError (phase_mismatch PChoose PApply)), rolled ore_template) /\
  endTurn (started ore_template) =
    (inl (PlainError (phase_mismatch PRoll PEnd)), started ore_template) /\
  choose "mine" (started ore_template) =
    (inl (PlainError "Cannot perform action in phase 'roll'. Expected 'choose'."), started ore_template) /\
  phase (snd (choose "mine" (started ore_template))) = PRoll.
Proof.
  destruct (@wrong_phase_rejected QNum.jsq _) as [Hr [Hc [Ha [He Hn]]]].
  assert (P1 : phase (rolled ore_template) = PChoose) by (vm_compute; reflexivity).
  assert (P2 : phase (applied ore_template "mine") = PEnd) by (vm_compute; reflexivity).
  assert (P3 : phase (started ore_template) = PRoll) by (vm_compute; reflexivity).
  assert (N : new_session ore_template seed42 = inr (started ore_template)) by (vm_compute; reflexivity).
  split; [rewrite <- P1 at 1; apply Hr; rewrite P1; discriminate|].
  split; [rewrite <- P2 at 1; apply Hc; rewrite P2; discriminate|].
  split; [rewrite <- P1 at 1; apply Ha; rewrite P1; discriminate|].
  split; [rewrite <- P3 at 1; apply He; rewrite P3; discriminate|].
  exact (Hn ore_template seed42 (started ore_template) "mine" N).
Defined.

(** C9: in every reachable session the [k]-th event of the log (from 0)
    has timestamp [k + 1], so the timestamps are [1, 2, 3, ...]: strictly
    increasing integers, the setup event at 1; and each of the four
    operations, whether it returns or throws, only appends to the log. *)
Theorem event_log_append_only {num : Type} `{JsNumber num} :
  (forall s : GameSession num, session_reachable s ->
     map event_timestamp (history s) = seq 1 (List.length (history s))) /\
  (forall (s : GameSession num) fuel, exists l, history (snd (roll fuel s)) = app (history s) l) /\
  (forall (s : GameSession num) actionId, exists l, history (snd (choose actionId s)) = app (history s) l) /\
  (forall s : GameSession num, exists l, history (snd (apply s)) = app (history s) l) /\
  (forall s : GameSession num, exists l, history (snd (endTurn s)) = app (history s) l).
Proof.
  split; [intros s Hs; exact (proj1 (reachable_stamped s Hs))|].
  split; [intros s fuel; exact (proj1 (Grows_roll fuel s))|].
  split; [intros s actionId; exact (proj1 (Grows_choose actionId s))|].
  split; [intros s; exact (proj1 (Grows_apply s))|].
  intros s; exact (proj1 (Grows_endTurn s)).
Qed.

Lemma event_log_append_only_witness :
  map event_timestamp (history (snd (endTurn (applied ore_template "mine")))) = [1; 2; 3; 4; 5]%nat.
Proof.
  assert (R : session_reachable (snd (endTurn (applied ore_template "mine")))).
  { apply reachable_endTurn, reachable_apply, reachable_choose, reachable_roll.
    apply (reachable_new ore_template seed42). vm_compute. reflexivity. }
  rewrite (proj1 (@event_log_append_only QNum.jsq _) _ R). vm_compute. reflexivity.
Defined.
End SessionClaims.

(** * Further properties of the code *)

Module JsqFacts.
Import QNum.
Lemma add_of_Z a b : add (JFin (inject_Z a)) (JFin (inject_Z b)) = JFin (inject_Z (a + b)).
Proof. cbn. unfold Qplus, inject_Z. cbn. rewrite !Z.mul_1_r. reflexivity. Qed.
Lemma cmp_of_Z a b : cmp (JFin (inject_Z a)) (JFin (inject_Z b)) = Some (Z.compare a b).
Proof. cbn. unfold Qcompare, inject_Z. cbn. rewrite !Z.mul_1_r. reflexivity. Qed.
Lemma neg_of_Z a : neg (JFin (inject_Z a)) = JFin (inject_Z (- a)).
Proof. reflexivity. Qed.
Lemma sub_of_Z a b : @js_sub jsq _ (js_of_Z a) (js_of_Z b) = js_of_Z (a - b).
Proof. cbn [js_sub jsq_number js_of_Z]. rewrite neg_of_Z, add_of_Z. reflexivity. Qed.
Lemma le_of_Z a b : @js_le jsq _ (js_of_Z a) (js_of_Z b) = (a <=? b).
Proof.
  cbn [js_le jsq_number js_of_Z]. rewrite cmp_of_Z.
  destruct (Z.compare_spec a b); symmetry; apply Z.leb_le || apply Z.leb_gt; lia.
Qed.
End JsqFacts.

Module RngMore.
Import Rng QNum JsqFacts.



Lemma nextFloat_unit r :
  exists k, 0 <= k < 2 ^ 53 /\
    fst (@nextFloat jsq _ r) = JFin (inject_Z k / inject_Z (2 ^ 53))%Q /\
    snd (@nextFloat jsq _ r) = snd (nextBigInt r).
Proof.
  unfold nextFloat. destruct (nextBigInt r) as [value r1] eqn:E.
  assert (Hv : 0 <= value < 2 ^ 64).
  { unfold nextBigInt in E. injection E as <- _. apply RngProofs.toUint64_range. }
  exists (Z.shiftr value 11). rewrite Z.shiftr_div_pow2 by lia.
  split; [split; [apply Z.div_pos; lia | apply Z.div_lt_upper_bound; lia]|].
  split; [|reflexivity].
  cbn [fst js_div js_pow js_of_Z jsq_number].
  reflexivity.
Qed.

(** X14. nextFloat (and next) always returns a finite number in [0, 1). *)
Lemma nextFloat_in_unit r :
  exists q, fst (@nextFloat jsq _ r) = JFin q /\ (0 <= q)%Q /\ (q < 1)%Q.
Proof.
  destruct (nextFloat_unit r) as (k & Hk & E & _). rewrite E.
  eexists; split; [reflexivity|].
  assert (Hp : (0 < inject_Z (2 ^ 53))%Q) by (change 0%Q with (inject_Z 0); rewrite <- Zlt_Qlt; lia).
  split.
  - apply Qle_shift_div_l; [exact Hp|]. rewrite Qmult_0_l. change 0%Q with (inject_Z 0). rewrite <- Zle_Qle. lia.
  - apply Qlt_shift_div_r; [exact Hp|]. rewrite Qmult_1_l. rewrite <- Zlt_Qlt. lia.
Qed.

(** X15. Every generator state built by the constructor or deserialize from any seed and advanced by draws has both words in [0, 2^64) and is never the all-zero state. *)
Lemma reachable_never_zero {num : Type} `{JsNumber num} (r : Xorshift128Plus) :
  Rng.reachable (num := num) r ->
  0 <= state0 r < 2 ^ 64 /\ 0 <= state1 r < 2 ^ 64 /\ ~ (state0 r = 0 /\ state1 r = 0).
Proof. exact (RngProofs.reachable_good r). Qed.
End RngMore.

Module SessionMore.
Import Expr Session SpecSession SessionProofs.

Section Inv.
Context {num : Type} `{JsNumber num}.

Definition same_core (s s' : GameSession num) : Prop :=
  phase s' = phase s /\ rollResult s' = rollResult s /\
  chosenAction s' = chosenAction s /\ finalScore s' = finalScore s.

Lemma roll_loop_core fuel c sd i (s : GameSession num) :
  same_core s (snd (roll_loop fuel c sd i s)).
Proof.
  revert i s. induction fuel as [|f IH]; intros i s; cbn [roll_loop].
  - repeat split.
  - destruct (js_lt (js_of_Z i) c); [|repeat split].
    unfold StEx.bind, rng_nextInt. destruct (Rng.nextInt (S f) sd (rng s)) as [[e|v] r'].
    + repeat split.
    + specialize (IH (i + 1) (set_rng r' s)).
      destruct (roll_loop f c sd (i + 1) (set_rng r' s)) as [[e|vs] s1]; cbn in *; exact IH.
Qed.

Lemma roll_shape fuel (s : GameSession num) :
  same_core s (snd (roll fuel s)) \/
  (phase s = PRoll /\ phase (snd (roll fuel s)) = PChoose /\
   rollResult (snd (roll fuel s)) <> None /\
   chosenAction (snd (roll fuel s)) = chosenAction s /\
   finalScore (snd (roll fuel s)) = finalScore s).
Proof.
  destruct (phase_eqb (phase s) PRoll) eqn:Ep.
  2:{ left. rewrite roll_wrong_phase by (intro E; rewrite E in Ep; discriminate). repeat split. }
  apply phase_eqb_true in Ep.
  unfold roll. rewrite (bind_ok _ _ _ _ _ (ensurePhase_ok _ _ Ep)). cbn [StEx.bind StEx.get].
  destruct (dice (template s)) as [|d ds]; [left; repeat split|].
  pose proof (roll_loop_core fuel (count d) (sides d) 0 s) as Hc.
  destruct (roll_loop fuel (count d) (sides d) 0 s) as [[e|vs] s1] eqn:El.
  { left. rewrite (bind_fail _ _ _ _ _ El). exact Hc. }
  rewrite (bind_ok _ _ _ _ _ El). right. destruct Hc as (Hp & Hr & Hch & Hf). cbn in *. repeat split; try congruence; discriminate.
Qed.

Definition session_inv (s : GameSession num) : Prop :=
  phase s <> PSetup /\
  (rollResult s = None <-> phase s = PRoll) /\
  (chosenAction s <> None <-> phase s = PApply) /\
  (finalScore s <> None <-> phase s = PComplete).

Lemma inv_core s s' : same_core s s' -> session_inv s -> session_inv s'.
Proof. unfold same_core, session_inv. intros (-> & -> & -> & ->). tauto. Qed.

Lemma inv_roll fuel s : session_inv s -> session_inv (snd (roll fuel s)).
Proof.
  intros Hi. destruct (roll_shape fuel s) as [Hc | (Hp & Hp' & Hr & Hch & Hf)];
    [exact (inv_core _ _ Hc Hi)|].
  destruct Hi as (Hs & Hir & Hic & Hif). unfold session_inv.
  rewrite Hp', Hch, Hf. rewrite Hp in Hic, Hif.
  intuition discriminate.
Qed.

Lemma inv_choose actionId s : session_inv s -> session_inv (snd (choose actionId s)).
Proof.
  intros Hi. destruct (phase_eqb (phase s) PChoose) eqn:Ep.
  2:{ rewrite choose_wrong_phase by (intro E; rewrite E in Ep; discriminate). exact Hi. }
  apply phase_eqb_true in Ep.
  unfold choose. rewrite (bind_ok _ _ _ _ _ (ensurePhase_ok _ _ Ep)).
  cbn [StEx.bind StEx.get StEx.liftE].
  destruct (listAvailableActions s) as [e|l]; [exact Hi|].
  destruct (find _ l) as [a|]; [|exact Hi].
  destruct Hi as (Hs & Hir & Hic & Hif). rewrite Ep in Hir, Hic, Hif.
  unfold session_inv; cbn. intuition discriminate.
Qed.

Lemma inv_apply s : session_inv s -> session_inv (snd (apply s)).
Proof.
  intros Hi. destruct (phase_eqb (phase s) PApply) eqn:Ep.
  2:{ rewrite apply_wrong_phase by (intro E; rewrite E in Ep; discriminate). exact Hi. }
  apply phase_eqb_true in Ep.
  unfold apply. rewrite (bind_ok _ _ _ _ _ (ensurePhase_ok _ _ Ep)).
  unfold applyChosenAction, StEx.bind, StEx.get. cbv beta.
  destruct (chosenAction s) as [a|]; [|exact Hi].
  destruct (apply_effects (template s) a (effects a) (apply_start s)) as [e|acc]; [exact Hi|].
  destruct Hi as (Hs & Hir & Hic & Hif). rewrite Ep in Hir, Hic, Hif.
  unfold session_inv; cbn. intuition discriminate.
Qed.

Lemma finalize_frame (s : GameSession num) :
  let s' := snd (finalizeTurnLog s) in
  template s' = template s /\ phase s' = phase s /\ turn s' = turn s /\
  resources s' = resources s /\ history s' = history s /\ rollResult s' = rollResult s /\
  chosenAction s' = chosenAction s /\ finalScore s' = finalScore s /\
  timestampCounter s' = timestampCounter s /\ currentReplayTurn s' = None.
Proof.
  cbn. destruct (currentReplayTurn s) as [[? [?|] [[|? ?]|] [?|]]|]; repeat split.
Qed.

Lemma record_ok mk (s : GameSession num) : record mk s = (inr tt, snd (record mk s)).
Proof. reflexivity. Qed.

Lemma finalize_ok (s : GameSession num) : finalizeTurnLog s = (inr tt, snd (finalizeTurnLog s)).
Proof. reflexivity. Qed.

(** [endTurn()] from phase [end]: [s2] is the object after the
    [endTurn] event and [finalizeTurnLog()]. *)
Lemma endTurn_cases (s : GameSession num) :
  phase s = PEnd ->
  let s2 := snd (finalizeTurnLog (snd (record (EndTurnEvent (turn s) (resources s)) s))) in
  endTurn s =
    if shouldEndGame s2 then
      match evaluateScore s2 with
      | inl e => (inl e, s2)
      | inr score =>
        (inr tt, snd (record (CompleteEvent (turn s2) score (resources s2))
                        (set_phase PComplete (set_finalScore (Some score) s2))))
      end
    else (inr tt, set_phase PRoll (set_chosenAction None (set_rollResult None
                    (set_turn (js_add (turn s2) (js_of_Z 1)) s2)))).
Proof.
  intros Hp s2. unfold endTurn. rewrite (bind_ok _ _ _ _ _ (ensurePhase_ok _ _ Hp)).
  rewrite (bind_ok _ _ _ _ _ (eq_refl : StEx.get s = (inr s, s))).
  rewrite (bind_ok _ _ _ _ _ (record_ok _ s)).
  rewrite (bind_ok _ _ _ _ _ (finalize_ok _)). fold s2.
  rewrite (bind_ok _ _ _ _ _ (eq_refl : StEx.get s2 = (inr s2, s2))).
  destruct (shouldEndGame s2); [|reflexivity].
  unfold StEx.bind at 1, StEx.liftE at 1. destruct (evaluateScore s2); reflexivity.
Qed.

Lemma inv_endTurn s : session_inv s -> session_inv (snd (endTurn s)).
Proof.
  intros Hi. destruct (phase_eqb (phase s) PEnd) eqn:Ep.
  2:{ rewrite endTurn_wrong_phase by (intro E; rewrite E in Ep; discriminate). exact Hi. }
  apply phase_eqb_true in Ep. rewrite (endTurn_cases s Ep).
  destruct (finalize_frame (snd (record (EndTurnEvent (turn s) (resources s)) s)))
    as (_ & Hp & _ & _ & _ & Hro & Hc & Hf & _).
  set (s2 := snd (finalizeTurnLog (snd (record (EndTurnEvent (turn s) (resources s)) s)))) in *.
  cbn in Hp, Hro, Hc, Hf.
  destruct Hi as (Hs & Hir & Hic & Hif). rewrite Ep in Hir, Hic, Hif.
  destruct (shouldEndGame s2); [destruct (evaluateScore s2)|];
    unfold session_inv; cbn; rewrite ?Hp, ?Hro, ?Hc, ?Hf, ?Ep; intuition discriminate.
Qed.

Lemma new_session_inv t seed s : new_session t seed = inr s -> session_inv s.
Proof.
  unfold new_session. destruct (Rng.create seed); intros E; inversion E; subst.
  unfold session_inv; cbn. intuition discriminate.
Qed.

Lemma reachable_inv s : session_reachable s -> session_inv s.
Proof.
  induction 1.
  - eapply new_session_inv; eassumption.
  - apply inv_roll; assumption.
  - apply inv_choose; assumption.
  - apply inv_apply; assumption.
  - apply inv_endTurn; assumption.
Qed.

(** Steps that keep reachability. *)
Definition RPres {A} (m : SessionM A) : Prop :=
  forall s, session_reachable s -> session_reachable (snd (m s)).

Lemma RPres_bind {A B} (m : SessionM A) (k : A -> SessionM B) :
  RPres m -> (forall a, RPres (k a)) -> RPres (StEx.bind m k).
Proof.
  intros Hm Hk s Hs. unfold StEx.bind. specialize (Hm s Hs).
  destruct (m s) as [[e|a] s1]; [exact Hm | apply Hk, Hm].
Qed.

Lemma RPres_same {A} (m : SessionM A) : (forall s, snd (m s) = s) -> RPres m.
Proof. intros E s Hs. rewrite E. exact Hs. Qed.

Lemma RPres_when {A} p (m : SessionM A) : RPres m -> RPres (when_phase p m).
Proof.
  intros Hm. unfold when_phase. apply RPres_bind; [apply RPres_same; reflexivity|intros s].
  destruct (phase_eqb (phase s) p); [|apply RPres_same; reflexivity].
  apply RPres_bind; [exact Hm | intros _; apply RPres_same; reflexivity].
Qed.

Lemma RPres_step fuel policy : RPres (autoplay_step fuel policy).
Proof.
  unfold autoplay_step.
  repeat (apply RPres_bind; [| intros _]).
  - apply RPres_when. intros s Hs. apply reachable_roll, Hs.
  - apply RPres_when. apply RPres_bind; [apply RPres_same; reflexivity|intros s0].
    apply RPres_bind; [apply RPres_same; reflexivity|intros snap].
    apply RPres_bind; [apply RPres_same; reflexivity|intros a].
    intros s Hs. apply reachable_choose, Hs.
  - apply RPres_when. intros s Hs. apply reachable_apply, Hs.
  - apply RPres_when. intros s Hs. apply reachable_endTurn, Hs.
Qed.

Lemma autoplay_loop_done fuel policy s :
  session_reachable s ->
  session_reachable (snd (autoplay_loop fuel policy s)) /\
  (fst (autoplay_loop fuel policy s) = inr tt ->
   phase (snd (autoplay_loop fuel policy s)) = PComplete).
Proof.
  revert s. induction fuel as [|f IH]; intros s Hs; cbn [autoplay_loop].
  - split; [exact Hs | discriminate].
  - rewrite (bind_ok _ _ _ _ _ (eq_refl : StEx.get s = (inr s, s))).
    destruct (phase_eqb (phase s) PComplete) eqn:Ep.
    + split; [exact Hs | intros _; apply phase_eqb_true, Ep].
    + pose proof (RPres_step (S f) policy s Hs) as Hs1. unfold StEx.bind.
      destruct (autoplay_step (S f) policy s) as [[e|[]] s1]; [split; [exact Hs1 | discriminate]|].
      apply IH, Hs1.
Qed.

(** [template] and [initialSeed] are never reassigned. *)
Definition Fixed {A} (m : SessionM (num := num) A) : Prop :=
  forall s, template (snd (m s)) = template s /\ initialSeed (snd (m s)) = initialSeed s.

Lemma Fixed_bind {A B} (m : SessionM A) (k : A -> SessionM B) :
  Fixed m -> (forall a, Fixed (k a)) -> Fixed (StEx.bind m k).
Proof.
  intros Hm Hk s. unfold StEx.bind. specialize (Hm s).
  destruct (m s) as [[e|a] s1]; [exact Hm|].
  destruct (Hk a s1) as [E1 E2]. destruct Hm as [E3 E4]. cbn in *. split; congruence.
Qed.

Lemma Fixed_same {A} (m : SessionM A) : (forall s, snd (m s) = s) -> Fixed m.
Proof. intros E s. rewrite E. split; reflexivity. Qed.

Lemma Fixed_modify (f : GameSession num -> GameSession num) :
  (forall s, template (f s) = template s /\ initialSeed (f s) = initialSeed s) ->
  Fixed (StEx.modify f).
Proof. intros Hf s. exact (Hf s). Qed.

Lemma Fixed_record mk : Fixed (record mk).
Proof. intros s. split; reflexivity. Qed.

Lemma Fixed_finalize : Fixed finalizeTurnLog.
Proof.
  apply Fixed_modify. intros s. cbn.
  destruct (currentReplayTurn s) as [[? [?|] [[|? ?]|] [?|]]|]; split; reflexivity.
Qed.

Lemma Fixed_rng_nextInt fuel sides : Fixed (rng_nextInt fuel sides).
Proof.
  intros s. unfold rng_nextInt. destruct (Rng.nextInt fuel sides (rng s)). split; reflexivity.
Qed.

Lemma Fixed_roll_loop fuel c sd i : Fixed (roll_loop fuel c sd i).
Proof.
  revert i. induction fuel as [|f IH]; intros i; cbn [roll_loop];
    [apply Fixed_same; reflexivity|].
  destruct (js_lt (js_of_Z i) c); [|apply Fixed_same; reflexivity].
  apply Fixed_bind; [apply Fixed_rng_nextInt | intros v].
  apply Fixed_bind; [apply IH | intros rest; apply Fixed_same; reflexivity].
Qed.

Ltac fixed_bind := apply Fixed_bind; [|intro].

Ltac fixed :=
  repeat first
    [ apply Fixed_record | apply Fixed_finalize | apply Fixed_rng_nextInt
    | apply Fixed_roll_loop
    | apply Fixed_same; reflexivity
    | apply Fixed_same; intro; unfold ensurePhase;
      destruct (phase_eqb _ _); reflexivity
    | apply Fixed_modify; split; reflexivity
    | fixed_bind
    | match goal with
      | |- Fixed (match ?x with _ => _ end) => destruct x
      | |- Fixed (if ?x then _ else _) => destruct x
      end ].

Lemma Fixed_roll fuel : Fixed (roll fuel).
Proof. unfold roll. cbv zeta. fixed. Qed.

Lemma Fixed_choose actionId : Fixed (choose actionId).
Proof. unfold choose. fixed. Qed.

Lemma Fixed_apply : Fixed apply.
Proof. unfold apply, applyChosenAction. fixed. Qed.

Lemma Fixed_endTurn : Fixed endTurn.
Proof. unfold endTurn. fixed. Qed.

Lemma Fixed_when {A} p (m : SessionM A) : Fixed m -> Fixed (when_phase p m).
Proof.
  intros Hm. unfold when_phase. fixed_bind; [apply Fixed_same; reflexivity|].
  match goal with |- Fixed (if ?x then _ else _) => destruct x end; fixed; exact Hm.
Qed.

Lemma Fixed_step fuel policy : Fixed (autoplay_step fuel policy).
Proof.
  unfold autoplay_step.
  apply Fixed_bind; [apply Fixed_when, Fixed_roll | intros _].
  apply Fixed_bind; [apply Fixed_when | intros _].
  { fixed_bind; [apply Fixed_same; reflexivity|].
    fixed_bind; [apply Fixed_same; reflexivity|].
    fixed_bind; [apply Fixed_same; reflexivity|]. apply Fixed_choose. }
  apply Fixed_bind; [apply Fixed_when, Fixed_apply | intros _].
  apply Fixed_when, Fixed_endTurn.
Qed.

Lemma Fixed_loop fuel policy : Fixed (autoplay_loop fuel policy).
Proof.
  induction fuel as [|f IH]; cbn [autoplay_loop]; [apply Fixed_same; reflexivity|].
  fixed_bind; [apply Fixed_same; reflexivity|].
  match goal with |- Fixed (if ?x then _ else _) => destruct x end;
    [apply Fixed_same; reflexivity|].
  fixed_bind; [apply Fixed_step | exact IH].
Qed.
End Inv.

Section Outcomes.
Context {num : Type} `{JsNumber num}.

Lemma shouldEndGame_ext (s1 s2 : GameSession num) :
  template s1 = template s2 -> turn s1 = turn s2 -> resources s1 = resources s2 ->
  shouldEndGame s1 = shouldEndGame s2.
Proof. unfold shouldEndGame. intros -> -> ->. reflexivity. Qed.

Lemma createVariables_ext (s1 s2 : GameSession num) :
  turn s1 = turn s2 -> resources s1 = resources s2 -> rollResult s1 = rollResult s2 ->
  createVariables s1 = createVariables s2.
Proof. unfold createVariables. intros -> -> ->. reflexivity. Qed.

Lemma evaluateScore_ext (s1 s2 : GameSession num) :
  template s1 = template s2 -> turn s1 = turn s2 -> resources s1 = resources s2 ->
  rollResult s1 = rollResult s2 -> evaluateScore s1 = evaluateScore s2.
Proof.
  intros Ht Hu Hr Hro. unfold evaluateScore. rewrite Ht, (createVariables_ext s1 s2 Hu Hr Hro).
  reflexivity.
Qed.

(** X2. When endTurn is called in the end phase, an end condition holds and evaluating the score throws, endTurn rethrows that error; the session is left in phase end with its turn, resources and final score unchanged, its history extended by exactly the end-turn event, and the turn's replay record closed. *)
Lemma endTurn_score_fails (s : GameSession num) e :
  phase s = PEnd -> shouldEndGame s = true -> evaluateScore s = inl e ->
  fst (endTurn s) = inl e /\
  phase (snd (endTurn s)) = PEnd /\ finalScore (snd (endTurn s)) = finalScore s /\
  turn (snd (endTurn s)) = turn s /\ resources (snd (endTurn s)) = resources s /\
  history (snd (endTurn s)) =
    app (history s) [EndTurnEvent (turn s) (resources s) (S (timestampCounter s))] /\
  currentReplayTurn (snd (endTurn s)) = None.
Proof.
  intros Hp Hend Hsc. rewrite (endTurn_cases s Hp). cbv zeta.
  pose proof (finalize_frame (snd (record (EndTurnEvent (turn s) (resources s)) s))) as F.
  cbv zeta in F.
  remember (snd (finalizeTurnLog (snd (record (EndTurnEvent (turn s) (resources s)) s)))) as s2
    eqn:Es2.
  destruct F as (Ht & Hp2 & Hu & Hr & Hh & Hro & Hc & Hf & Htc & Hcr).
  cbn in Ht, Hp2, Hu, Hr, Hh, Hro, Hc, Hf, Htc.
  rewrite (shouldEndGame_ext s2 s Ht Hu Hr), Hend, (evaluateScore_ext s2 s Ht Hu Hr Hro), Hsc.
  cbn [fst snd]. rewrite Hp2, Hf, Hu, Hr, Hh, Hcr, Hp. repeat split.
Qed.

(** X3. In a reachable session in phase apply, a chosen action always exists (the 'No action chosen' error is never raised), and apply returns the deltas and resulting resources of running that action's effects from the current resources, or the first effect error. *)
Lemma apply_runs_chosen (s : GameSession num) :
  session_reachable s -> phase s = PApply ->
  exists a, chosenAction s = Some a /\
  fst (apply s) = match apply_effects (template s) a (effects a) (apply_start s) with
                  | inl e => inl e
                  | inr acc => inr {| deltas := acc_deltas acc; resulting := acc_resulting acc |}
                  end.
Proof.
  intros Hs Hp. destruct (reachable_inv s Hs) as (_ & _ & [_ Hc] & _).
  destruct (chosenAction s) as [a|] eqn:Ea; [|exfalso; apply (Hc Hp); reflexivity].
  exists a. split; [reflexivity|].
  unfold apply. rewrite (bind_ok _ _ _ _ _ (ensurePhase_ok _ _ Hp)).
  unfold applyChosenAction, StEx.bind, StEx.get. cbv beta. rewrite Ea.
  destruct (apply_effects (template s) a (effects a) (apply_start s)); reflexivity.
Qed.

(** X4. In a reachable session, getReplay returns a record and getScore returns a score exactly when isComplete is true. *)
Lemma getReplay_complete (s : GameSession num) :
  session_reachable s ->
  (getReplay s <> None <-> isComplete s = true) /\ (getScore s <> None <-> isComplete s = true).
Proof.
  intros Hs. destruct (reachable_inv s Hs) as (_ & _ & _ & Hf).
  unfold getReplay, getScore, isComplete. rewrite phase_eqb_true.
  destruct (finalScore s); split; (split; [intros _ | intros _; discriminate]) || idtac;
    firstorder congruence.
Qed.

(** X5. When the autoplay loop on a freshly constructed session ends without error, the session has a final score and autoplay returns the replay record with the template's id and version, the session's serialized initial seed, the recorded turns and that score. *)
Lemma autoplay_replay fuel t policy seed (s s' : GameSession num) :
  new_session t seed = inr s -> autoplay_loop fuel policy s = (inr tt, s') ->
  exists score, finalScore s' = Some score /\
  autoplay fuel t policy seed =
    inr {| templateId := template_id t; templateVersion := version t; seed := initialSeed s;
           turns := replayTurns s'; replay_finalScore := score |}.
Proof.
  intros Hn Hl.
  destruct (autoplay_loop_done fuel policy s (reachable_new t seed s Hn)) as [Hr Hc].
  rewrite Hl in Hr, Hc. cbn in Hr, Hc. specialize (Hc eq_refl).
  destruct (reachable_inv s' Hr) as (_ & _ & _ & [_ Hf]).
  destruct (finalScore s') as [score|] eqn:Ef; [|exfalso; apply (Hf Hc); reflexivity].
  exists score. split; [reflexivity|].
  destruct (Fixed_loop fuel policy s) as [Ht Hi]. rewrite Hl in Ht, Hi. cbn in Ht, Hi.
  assert (Tt : template s = t).
  { revert Hn. unfold new_session. destruct (Rng.create seed); intros E; inversion E; reflexivity. }
  unfold autoplay. rewrite Hn, Hl. unfold getReplay. rewrite Ef, Ht, Hi, Tt. reflexivity.
Qed.

(** X6. A choose call that throws (wrong phase, no roll, condition error, or an action that is not available) leaves the session exactly as it was. *)
Lemma choose_all_or_nothing actionId (s s' : GameSession num) e :
  choose actionId s = (inl e, s') -> s' = s.
Proof.
  destruct (phase_eqb (phase s) PChoose) eqn:Ep.
  2:{ rewrite choose_wrong_phase by (intro E; rewrite E in Ep; discriminate). congruence. }
  apply phase_eqb_true in Ep.
  unfold choose. rewrite (bind_ok _ _ _ _ _ (ensurePhase_ok _ _ Ep)).
  cbn [StEx.bind StEx.get StEx.liftE].
  destruct (listAvailableActions s) as [e0|l]; [|destruct (find _ l) as [a|]];
    intros E; cbn in E; first [discriminate E | injection E; intros; subst; reflexivity].
Qed.
End Outcomes.


Module RollFacts.
Import QNum JsqFacts RngMore.






End RollFacts.

Section RollThm.
Import QNum JsqFacts RollFacts.

End RollThm.

Section Avail.
Context {num : Type} `{JsNumber num}.

(** Whether [listAvailableActions()] keeps an action. *)
Definition condition_holds (s : GameSession num) (a : CompiledAction num) : bool :=
  match conditionAst a with
  | None => true
  | Some c => match session_eval c (createVariables s) with inr (VBool b) => b | _ => false end
  end.

Lemma available_loop_filter s l r :
  available_loop s l = inr r -> r = filter (condition_holds s) l.
Proof.
  revert r. induction l as [|a l IH]; intros r E; cbn in E; [injection E as <-; reflexivity|].
  cbn [filter]. unfold condition_holds at 1.
  destruct (conditionAst a) as [c|].
  - destruct (session_eval c (createVariables s)) as [e|[v|b|]]; try discriminate.
    destruct (available_loop s l) as [e|r']; [discriminate|].
    injection E as <-. rewrite (IH r' eq_refl). destruct b; reflexivity.
  - destruct (available_loop s l) as [e|r']; [discriminate|].
    injection E as <-. rewrite (IH r' eq_refl). reflexivity.
Qed.

(** X8. listAvailableActions returns the empty list when there is no roll result, and otherwise the template's actions, in template order, whose condition is absent or evaluates to true. *)
Lemma listAvailable_filter (s : GameSession num) l :
  listAvailableActions s = inr l ->
  (rollResult s = None -> l = []) /\
  (rollResult s <> None -> l = filter (condition_holds s) (actions (template s))).
Proof.
  unfold listAvailableActions. destruct (rollResult s) as [r|].
  - intros E. split; [discriminate|]. intros _. apply available_loop_filter, E.
  - intros E. injection E as <-. split; [reflexivity | intros X; contradiction X; reflexivity].
Qed.
End Avail.

Section Policy.
Import QNum JsqFacts.

Lemma sub_lt_zero (a b : Q) :
  @js_lt jsq _ (js_sub (JFin b) (JFin a)) (js_of_Z 0) = true <-> (b < a)%Q.
Proof.
  cbn [js_lt js_sub jsq_number js_of_Z add neg cmp].
  destruct (Qcompare (b + - a) (inject_Z 0)) eqn:C.
  - apply Qeq_alt in C. unfold inject_Z in C. split; [discriminate | intros; lra].
  - apply Qlt_alt in C. unfold inject_Z in C. split; [intros _; lra | reflexivity].
  - apply Qgt_alt in C. unfold inject_Z in C. split; [discriminate | intros; lra].
Qed.

Definition sort_all (l : list (CompiledAction jsq)) : list (CompiledAction jsq) :=
  fold_left (fun sorted a => insert_sorted a sorted) l [].

Lemma sort_all_first (prio : CompiledAction jsq -> Q) (l : list (CompiledAction jsq)) :
  (forall a, In a l -> priority a = JFin (prio a)) -> l <> [] ->
  exists pre a post rest, l = app pre (a :: post) /\
    Forall (fun b => (prio b < prio a)%Q) pre /\ Forall (fun b => (prio b <= prio a)%Q) post /\
    sort_all l = a :: rest.
Proof.
  induction l as [|x l IH] using rev_ind; intros Hp Hne; [contradiction Hne; reflexivity|].
  unfold sort_all. rewrite fold_left_app. fold (sort_all l). cbn [fold_left].
  assert (Hl0 : l = [] \/ l <> []) by (destruct l; [left; reflexivity | right; discriminate]).
  destruct Hl0 as [-> | Hne'].
  { exists [], x, [], []. split; [reflexivity|]. split; [constructor|]. split; [constructor|].
    reflexivity. }
  assert (Hp' : forall a, In a l -> priority a = JFin (prio a)).
  { intros a Ha. apply Hp, in_or_app. left. exact Ha. }
  destruct (IH Hp' Hne') as (pre & a & post & rest & Hl & Hpre & Hpost & Hs).
  rewrite Hs. cbn [insert_sorted].
  assert (Ha : priority a = JFin (prio a)) by (apply Hp'; rewrite Hl; apply in_or_app; right; left; reflexivity).
  assert (Hx : priority x = JFin (prio x)) by (apply Hp, in_or_app; right; left; reflexivity).
  rewrite Ha, Hx.
  destruct (js_lt (js_sub (JFin (prio a)) (JFin (prio x))) (js_of_Z 0)) eqn:C.
  - apply sub_lt_zero in C. exists l, x, [], (a :: rest). split; [reflexivity|].
    split; [|split; [constructor | reflexivity]].
    rewrite Hl. apply Forall_app. split.
    + eapply Forall_impl; [|exact Hpre]. cbn. intros b Hb. lra.
    + constructor; [exact C|]. eapply Forall_impl; [|exact Hpost]. cbn. intros b Hb. lra.
  - assert (C' : ~ (prio a < prio x)%Q) by (rewrite <- sub_lt_zero, C; discriminate).
    apply Qnot_lt_le in C'.
    exists pre, a, (app post [x]), (insert_sorted x rest). split.
    + rewrite Hl, <- app_assoc. reflexivity.
    + split; [exact Hpre|]. split; [apply Forall_app; split; [exact Hpost | constructor; [exact C' | constructor]]|].
      reflexivity.
Qed.

(** X9. On a non-empty list of actions with finite priorities, highestPriorityPolicy returns the id of the first action of highest priority: every action before it has a strictly lower priority and every action after it a priority at most as high. *)
Lemma highestPriority_first_max (ctx : DecisionPolicyContext jsq) (prio : CompiledAction jsq -> Q) :
  (forall a, In a (context_actions ctx) -> priority a = JFin (prio a)) ->
  context_actions ctx <> [] ->
  exists pre a post, context_actions ctx = app pre (a :: post) /\
    Forall (fun b => (prio b < prio a)%Q) pre /\ Forall (fun b => (prio b <= prio a)%Q) post /\
    highestPriorityPolicy ctx = inr (action_id a).
Proof.
  intros Hp Hne. destruct (sort_all_first prio _ Hp Hne) as (pre & a & post & rest & Hl & H1 & H2 & Hs).
  exists pre, a, post. split; [exact Hl|]. split; [exact H1|]. split; [exact H2|].
  unfold highestPriorityPolicy. fold (sort_all (context_actions ctx)). rewrite Hs. reflexivity.
Qed.
End Policy.

Section Vars.
Context {num : Type} `{JsNumber num}.
Local Open Scope string_scope.

Lemma lookup_set {V} (k k' : string) (v : V) (o : Obj.t V) :
  Obj.lookup k (Obj.set k' v o) = if String.eqb k k' then Some v else Obj.lookup k o.
Proof.
  induction o as [|[k1 v1] o IH]; cbn.
  - destruct (String.eqb k k'); reflexivity.
  - destruct (String.eqb k' k1) eqn:E1; cbn.
    + apply String.eqb_eq in E1. subst k1. destruct (String.eqb k k'); reflexivity.
    + destruct (String.eqb k k1) eqn:E2.
      * apply String.eqb_eq in E2. subst k1.
        destruct (String.eqb k k') eqn:E3; [|reflexivity].
        apply String.eqb_eq in E3. subst. rewrite String.eqb_refl in E1. discriminate.
      * exact IH.
Qed.

Lemma lookup_fold_resources (res : ResourceSnapshot num) init k :
  NoDup (map fst res) ->
  Obj.lookup k (fold_left (fun acc kv => Obj.set (fst kv) (VNum (snd kv)) acc) res init) =
  match Obj.lookup k res with Some v => Some (VNum v) | None => Obj.lookup k init end.
Proof.
  revert init. induction res as [|[k1 v1] res IH]; intros init Hnd; [reflexivity|].
  cbn [fold_left map fst snd] in *. inversion Hnd as [|? ? Hni Hnd']; subst.
  rewrite (IH _ Hnd'), lookup_set. cbn [Obj.lookup].
  destruct (String.eqb k k1) eqn:E; [|reflexivity].
  apply String.eqb_eq in E. subst k1.
  assert (Hn : Obj.lookup k res = None).
  { clear IH Hnd Hnd'. induction res as [|[k2 v2] res IH2]; [reflexivity|]. cbn in *.
    destruct (String.eqb k k2) eqn:E2.
    - apply String.eqb_eq in E2. subst. contradiction Hni. left. reflexivity.
    - apply IH2. intros X. apply Hni. right. exact X. }
  rewrite Hn. reflexivity.
Qed.

Lemma lookup_set_roll_values k i (vs : list num) acc :
  (forall rest, k <> String.append "roll_" rest) ->
  Obj.lookup k (set_roll_values i vs acc) = Obj.lookup k acc.
Proof.
  intros Hk. revert i acc. induction vs as [|v vs IH]; intros i acc; [reflexivity|].
  cbn [set_roll_values]. rewrite IH, lookup_set.
  destruct (String.eqb k _) eqn:E; [|reflexivity].
  apply String.eqb_eq in E. contradiction (Hk _ E).
Qed.

(** X10. When resource ids are distinct, the expression variable of a name that does not start with 'roll_' is the resource of that name if there is one (a resource named 'turn' shadows the turn number), otherwise the turn number for 'turn', and is absent otherwise. *)
Lemma createVariables_lookup (s : GameSession num) k :
  NoDup (map fst (resources s)) -> (forall rest, k <> String.append "roll_" rest) ->
  Obj.lookup k (createVariables s) =
  match Obj.lookup k (resources s) with
  | Some v => Some (VNum v)
  | None => if String.eqb k "turn" then Some (VNum (turn s)) else None
  end.
Proof.
  intros Hnd Hk. unfold createVariables.
  assert (Hb : Obj.lookup k (fold_left (fun acc kv => Obj.set (fst kv) (VNum (snd kv)) acc)
                              (resources s) [("turn", VNum (turn s))]) =
               match Obj.lookup k (resources s) with
               | Some v => Some (VNum v)
               | None => if String.eqb k "turn" then Some (VNum (turn s)) else None
               end).
  { rewrite (lookup_fold_resources _ _ _ Hnd). reflexivity. }
  destruct (rollResult s) as [r|]; [|exact Hb].
  rewrite lookup_set_roll_values by exact Hk. rewrite !lookup_set.
  rewrite <- Hb.
  destruct (String.eqb k "roll_low") eqn:E1;
    [apply String.eqb_eq in E1; contradiction (Hk "low" E1)|].
  destruct (String.eqb k "roll_high") eqn:E2;
    [apply String.eqb_eq in E2; contradiction (Hk "high" E2)|].
  destruct (String.eqb k "roll_total") eqn:E3;
    [apply String.eqb_eq in E3; contradiction (Hk "total" E3)|].
  reflexivity.
Qed.

Definition starts_digit (x : string) : Prop :=
  match x with String c _ => Expr.is_digit c = true | EmptyString => False end.

Lemma digit_char (n : Z) : Expr.is_digit (ascii_of_nat (48 + Z.to_nat (n mod 10))) = true.
Proof.
  assert (B : (Z.to_nat (n mod 10) < 10)%nat).
  { pose proof (Z.mod_pos_bound n 10 ltac:(lia)). lia. }
  unfold Expr.is_digit, Expr.code. rewrite Ascii.nat_ascii_embedding by lia.
  apply andb_true_intro. split; apply Nat.leb_le; lia.
Qed.

Lemma decimal_digits_digit (f : nat) (n : Z) (acc : string) :
  starts_digit acc -> starts_digit (decimal_digits f n acc).
Proof.
  revert n acc. induction f as [|f IH]; intros n acc Ha; [exact Ha|].
  cbn [decimal_digits]. destruct (n <? 10)%Z; [apply digit_char | apply IH, digit_char].
Qed.

Lemma Z_to_decimal_digit (z : Z) : (0 <= z)%Z -> starts_digit (Z_to_decimal z).
Proof.
  intros Hz. unfold Z_to_decimal.
  replace (z <? 0)%Z with false by (symmetry; apply Z.ltb_ge; lia).
  cbn [decimal_digits]. destruct (Z.abs z <? 10)%Z; [apply digit_char | apply decimal_digits_digit, digit_char].
Qed.

Lemma append_cancel_l (p a b : string) : String.append p a = String.append p b -> a = b.
Proof. induction p as [|c p IH]; cbn; [auto | intros E; injection E; exact IH]. Qed.

Lemma roll_key_not (w : string) (i : nat) :
  ~ starts_digit w -> String.append "roll_" w <> String.append "roll_" (Z_to_decimal (Z.of_nat (S i))).
Proof.
  intros Hw E. apply append_cancel_l in E.
  pose proof (Z_to_decimal_digit (Z.of_nat (S i)) ltac:(lia)) as D. rewrite <- E in D.
  exact (Hw D).
Qed.

Lemma lookup_set_roll_values_named w i (vs : list num) acc :
  ~ starts_digit w ->
  Obj.lookup (String.append "roll_" w) (set_roll_values i vs acc) =
  Obj.lookup (String.append "roll_" w) acc.
Proof.
  intros Hw. revert i acc. induction vs as [|v vs IH]; intros i acc; [reflexivity|].
  cbn [set_roll_values]. rewrite IH, lookup_set.
  destruct (String.eqb _ _) eqn:E; [|reflexivity].
  apply String.eqb_eq in E. contradiction (roll_key_not w i Hw E).
Qed.

(** X11. When a roll result is present, the expression variables roll_total, roll_high and roll_low are the roll's total, highest and lowest values (the per-die variables roll_1, roll_2, ... never overwrite them). *)
Lemma createVariables_roll (s : GameSession num) r :
  rollResult s = Some r ->
  Obj.lookup "roll_total" (createVariables s) = Some (VNum (total r)) /\
  Obj.lookup "roll_high" (createVariables s) = Some (VNum (highest r)) /\
  Obj.lookup "roll_low" (createVariables s) = Some (VNum (lowest r)).
Proof.
  intros Hr. unfold createVariables. rewrite Hr. cbv zeta.
  split; [|split].
  - change "roll_total" with (String.append "roll_" "total").
    rewrite (lookup_set_roll_values_named "total") by (cbv; discriminate).
    rewrite !lookup_set. reflexivity.
  - change "roll_high" with (String.append "roll_" "high").
    rewrite (lookup_set_roll_values_named "high") by (cbv; discriminate).
    rewrite !lookup_set. reflexivity.
  - change "roll_low" with (String.append "roll_" "low").
    rewrite (lookup_set_roll_values_named "low") by (cbv; discriminate).
    rewrite !lookup_set. reflexivity.
Qed.

End Vars.

Section Invariant.
Context {num : Type} `{JsNumber num}.

(** X1. In every session reachable from the constructor through roll, choose, apply and endTurn (returning or throwing), the phase is never setup, the roll result is absent exactly in the roll phase, a chosen action is present exactly in the apply phase, and the final score is present exactly in the complete phase. *)
Lemma session_phase_invariant (s : GameSession num) :
  session_reachable s ->
  phase s <> PSetup /\ (rollResult s = None <-> phase s = PRoll) /\
  (chosenAction s <> None <-> phase s = PApply) /\ (finalScore s <> None <-> phase s = PComplete).
Proof. exact (reachable_inv s). Qed.
End Invariant.
End SessionMore.

Module ExprMore.
Import Expr.

Section Generic.
Context {num : Type} `{JsNumber num}.
Variables (fuel : nat) (vars : Obj.t (MiniValue num)) (funcs : Obj.t (list (MiniValue num) -> Exn + MiniValue num)).

Lemma call_thunks args :
  (fix thunks (l : list (ExpressionNode num)) : list (Thunk (num := num)) :=
     match l with [] => [] | a :: rest => evaluateNode fuel vars funcs a :: thunks rest end) args
  = map (evaluateNode fuel vars funcs) args.
Proof. induction args as [|a r IH]; cbn; [reflexivity | f_equal; exact IH]. Qed.

(** X16. When the left operand of || evaluates to a truthy value, the expression evaluates to true and the right operand is not evaluated: no error of it is raised and no die of it is rolled. *)
Lemma or_short_circuit l r sp st v st1 :
  evaluateNode fuel vars funcs l st = (inr v, st1) -> truthy v = true ->
  evaluateNode fuel vars funcs (BinaryExpression BOr l r sp) st = (inr (VBool true), st1).
Proof.
  intros E T. cbn [evaluateNode binary]. unfold StEx.bind. rewrite E, T. reflexivity.
Qed.

(** X17. When the left operand of && evaluates to a falsy value, the expression evaluates to false and the right operand is not evaluated. *)
Lemma and_short_circuit l r sp st v st1 :
  evaluateNode fuel vars funcs l st = (inr v, st1) -> truthy v = false ->
  evaluateNode fuel vars funcs (BinaryExpression BAnd l r sp) st = (inr (VBool false), st1).
Proof.
  intros E T. cbn [evaluateNode binary]. unfold StEx.bind. rewrite E, T. reflexivity.
Qed.

(** X18. Dividing or taking the modulo of two finite numbers whose right operand equals 0 throws 'Division by zero' or 'Modulo by zero', after both operands were evaluated. *)
Lemma div_mod_by_zero l r sp st x st1 y st2 :
  evaluateNode fuel vars funcs l st = (inr (VNum x), st1) -> js_is_finite x = true ->
  evaluateNode fuel vars funcs r st1 = (inr (VNum y), st2) -> js_is_finite y = true ->
  js_eqb y (js_of_Z 0) = true ->
  evaluateNode fuel vars funcs (BinaryExpression BDiv l r sp) st =
    (inl (MiniExprEvaluationError "Division by zero"), st2) /\
  evaluateNode fuel vars funcs (BinaryExpression BMod l r sp) st =
    (inl (MiniExprEvaluationError "Modulo by zero"), st2).
Proof.
  intros El Fx Er Fy Z0. cbn [evaluateNode binary].
  unfold numeric_args, number_arg, asNumber, StEx.bind, StEx.ret.
  rewrite El, Fx, Er, Fy. cbn [fst snd]. rewrite Z0. split; reflexivity.
Qed.
End Generic.

Section Jsq.
Import QNum.
Variables (fuel : nat) (vars : Obj.t (MiniValue jsq)) (funcs : Obj.t (list (MiniValue jsq) -> Exn + MiniValue jsq)).

(** X19. CLAMP(x, lo, hi) on finite arguments throws 'CLAMP minimum cannot exceed maximum' when lo > hi and otherwise returns min(max(x, lo), hi), after evaluating the three arguments in order. *)
Lemma clamp_call csp sp a0 a1 a2 st0 st1 st2 st3 x lo hi :
  Obj.lookup "CLAMP" funcs = None ->
  evaluateNode fuel vars funcs a0 st0 = (inr (VNum (JFin x)), st1) ->
  evaluateNode fuel vars funcs a1 st1 = (inr (VNum (JFin lo)), st2) ->
  evaluateNode fuel vars funcs a2 st2 = (inr (VNum (JFin hi)), st3) ->
  evaluateNode fuel vars funcs (CallExpression "CLAMP" csp [a0; a1; a2] sp) st0 =
    if Qle_bool lo hi then (inr (VNum (JFin (Qmin (Qmax x lo) hi))), st3)
    else (inl (MiniExprEvaluationError "CLAMP minimum cannot exceed maximum"), st3).
Proof.
  intros Hf E0 E1 E2. cbn [evaluateNode]. rewrite Hf.
  cbn [builtinFunctions String.eqb Ascii.eqb Bool.eqb].
  unfold number_arg, asNumber, StEx.bind, StEx.ret.
  rewrite E0. cbn [js_is_finite jsq_number]. rewrite E1. cbn [js_is_finite jsq_number].
  rewrite E2. cbn [js_is_finite jsq_number js_lt js_min js_max].
  unfold minmax, cmp, Qmin, Qmax, GenericMinMax.gmin, GenericMinMax.gmax.
  destruct (Qcompare hi lo) eqn:C.
  - rewrite <- Qeq_alt in C. rewrite (proj2 (Qle_bool_iff lo hi)) by (rewrite C; apply Qle_refl).
    destruct (x ?= lo)%Q; destruct (_ ?= hi)%Q; reflexivity.
  - rewrite <- Qlt_alt in C. destruct (Qle_bool lo hi) eqn:L; [|reflexivity].
    apply Qle_bool_iff in L. exfalso. apply (Qlt_not_le hi lo C L).
  - rewrite <- Qgt_alt in C. rewrite (proj2 (Qle_bool_iff lo hi)) by (apply Qlt_le_weak, C).
    destruct (x ?= lo)%Q; destruct (_ ?= hi)%Q; reflexivity.
Qed.

Definition pure_num (a : ExpressionNode jsq) (q : Q) : Prop :=
  forall st, evaluateNode fuel vars funcs a st = (inr (VNum (JFin q)), st).

Lemma min_loop_fold args qs m0 st :
  Forall2 pure_num args qs ->
  min_loop (map (evaluateNode fuel vars funcs) args) m0 st =
  (inr (fold_left (fun m q => if js_lt (JFin q) m then JFin q else m) qs m0), st).
Proof.
  intros F. revert m0. induction F as [|a q args qs Ha F IH]; intros m0; [reflexivity|].
  cbn [map min_loop fold_left]. unfold number_arg, asNumber, StEx.bind.
  rewrite Ha. cbn [js_is_finite jsq_number]. apply IH.
Qed.

Lemma max_loop_fold args qs m0 st :
  Forall2 pure_num args qs ->
  max_loop (map (evaluateNode fuel vars funcs) args) m0 st =
  (inr (fold_left (fun m q => if js_lt m (JFin q) then JFin q else m) qs m0), st).
Proof.
  intros F. revert m0. induction F as [|a q args qs Ha F IH]; intros m0; [reflexivity|].
  cbn [map max_loop fold_left]. unfold number_arg, asNumber, StEx.bind.
  rewrite Ha. cbn [js_is_finite jsq_number]. apply IH.
Qed.

Lemma fold_min_spec qs m0 :
  exists m, fold_left (fun m q => if @js_lt jsq _ (JFin q) m then JFin q else m) qs (JFin m0) = JFin m /\
    (m = m0 \/ In m qs) /\ (m <= m0)%Q /\ Forall (fun q => (m <= q)%Q) qs.
Proof.
  revert m0. induction qs as [|q qs IH]; intros m0.
  - exists m0. split; [reflexivity|]. split; [left; reflexivity|]. split; [apply Qle_refl | constructor].
  - cbn [fold_left js_lt jsq_number cmp].
    destruct (q ?= m0)%Q eqn:C.
    + destruct (IH m0) as (m & E & Hin & Hle & Hall). exists m. split; [exact E|].
      rewrite <- Qeq_alt in C. split; [destruct Hin; [left; assumption | right; right; assumption]|]. split; [exact Hle|].
      constructor; [rewrite C; exact Hle | exact Hall].
    + rewrite <- Qlt_alt in C. destruct (IH q) as (m & E & Hin & Hle & Hall).
      exists m. split; [exact E|]. split; [right; destruct Hin as [->|Hin]; [left|right]; auto|].
      split; [apply Qlt_le_weak, (Qle_lt_trans _ _ _ Hle C)|]. constructor; [exact Hle | exact Hall].
    + rewrite <- Qgt_alt in C. destruct (IH m0) as (m & E & Hin & Hle & Hall).
      exists m. split; [exact E|]. split; [destruct Hin; [left; assumption | right; right; assumption]|].
      split; [exact Hle|]. constructor; [apply Qlt_le_weak, (Qle_lt_trans _ _ _ Hle C) | exact Hall].
Qed.

Lemma fold_max_spec qs m0 :
  exists m, fold_left (fun m q => if @js_lt jsq _ m (JFin q) then JFin q else m) qs (JFin m0) = JFin m /\
    (m = m0 \/ In m qs) /\ (m0 <= m)%Q /\ Forall (fun q => (q <= m)%Q) qs.
Proof.
  revert m0. induction qs as [|q qs IH]; intros m0.
  - exists m0. split; [reflexivity|]. split; [left; reflexivity|]. split; [apply Qle_refl | constructor].
  - cbn [fold_left js_lt jsq_number cmp].
    destruct (m0 ?= q)%Q eqn:C.
    + destruct (IH m0) as (m & E & Hin & Hle & Hall). exists m. split; [exact E|].
      rewrite <- Qeq_alt in C. split; [destruct Hin; [left; assumption | right; right; assumption]|]. split; [exact Hle|].
      constructor; [rewrite <- C; exact Hle | exact Hall].
    + rewrite <- Qlt_alt in C. destruct (IH q) as (m & E & Hin & Hle & Hall).
      exists m. split; [exact E|]. split; [right; destruct Hin as [->|Hin]; [left|right]; auto|].
      split; [apply Qlt_le_weak, (Qlt_le_trans _ _ _ C Hle)|]. constructor; [exact Hle | exact Hall].
    + rewrite <- Qgt_alt in C. destruct (IH m0) as (m & E & Hin & Hle & Hall).
      exists m. split; [exact E|]. split; [destruct Hin; [left; assumption | right; right; assumption]|].
      split; [exact Hle|]. constructor; [apply Qlt_le_weak, (Qlt_le_trans _ _ _ C Hle) | exact Hall].
Qed.

(** X20. MIN and MAX over a non-empty list of side-effect-free finite numeric arguments return one of the argument values that is less than or equal to (MIN), respectively greater than or equal to (MAX), every argument. *)
Lemma min_max_call csp sp args qs st :
  Obj.lookup "MIN" funcs = None -> Obj.lookup "MAX" funcs = None ->
  Forall2 pure_num args qs -> qs <> [] ->
  (exists m, evaluateNode fuel vars funcs (CallExpression "MIN" csp args sp) st = (inr (VNum (JFin m)), st) /\
     In m qs /\ Forall (fun q => (m <= q)%Q) qs) /\
  (exists m, evaluateNode fuel vars funcs (CallExpression "MAX" csp args sp) st = (inr (VNum (JFin m)), st) /\
     In m qs /\ Forall (fun q => (q <= m)%Q) qs).
Proof.
  intros Hmin Hmax F Hne.
  destruct F as [|a q args' qs' Ha F']; [contradiction Hne; reflexivity|].
  split.
  - cbn [evaluateNode]. rewrite Hmin. cbn [builtinFunctions String.eqb Ascii.eqb Bool.eqb].
    replace (_ :: _) with (map (evaluateNode fuel vars funcs) (a :: args')) by (rewrite <- call_thunks; reflexivity).
    cbn [map]. unfold ret_num, StEx.bind, StEx.ret.
    rewrite <- (map_cons (evaluateNode fuel vars funcs)), (min_loop_fold _ _ _ _ (Forall2_cons _ _ Ha F')).
    cbn [fold_left]. change (@js_lt jsq _ (JFin q) js_pos_inf) with true. cbv iota.
    destruct (fold_min_spec qs' q) as (m & E & Hin & Hle & Hall). rewrite E.
    exists m. split; [reflexivity|]. split; [destruct Hin as [->|Hin]; [left|right]; auto|].
    constructor; [exact Hle | exact Hall].
  - cbn [evaluateNode]. rewrite Hmax. cbn [builtinFunctions String.eqb Ascii.eqb Bool.eqb].
    replace (_ :: _) with (map (evaluateNode fuel vars funcs) (a :: args')) by (rewrite <- call_thunks; reflexivity).
    cbn [map]. unfold ret_num, StEx.bind, StEx.ret.
    rewrite <- (map_cons (evaluateNode fuel vars funcs)), (max_loop_fold _ _ _ _ (Forall2_cons _ _ Ha F')).
    cbn [fold_left]. change (@js_lt jsq _ js_neg_inf (JFin q)) with true. cbv iota.
    destruct (fold_max_spec qs' q) as (m & E & Hin & Hle & Hall). rewrite E.
    exists m. split; [reflexivity|]. split; [destruct Hin as [->|Hin]; [left|right]; auto|].
    constructor; [exact Hle | exact Hall].
Qed.



(** X22. D(sides, count) on numeric arguments throws 'Dice functions require an RNG in the evaluation context' when the context has no RNG, whatever the arguments. *)
Lemma dice_needs_rng csp sp a0 a1 sd c :
  Obj.lookup "D" funcs = None -> pure_num a0 (inject_Z sd) -> pure_num a1 (inject_Z c) ->
  evaluateNode fuel vars funcs (CallExpression "D" csp [a0; a1] sp) None =
    (inl (MiniExprEvaluationError "Dice functions require an RNG in the evaluation context"), None).
Proof.
  intros Hf H0 H1. cbn [evaluateNode]. rewrite Hf. cbn [builtinFunctions String.eqb Ascii.eqb Bool.eqb].
  unfold number_arg, asNumber, ret_num, rollDice, StEx.bind, StEx.ret, StEx.get.
  rewrite H0. cbn [js_is_finite jsq_number]. rewrite H1. reflexivity.
Qed.
End Jsq.
End ExprMore.

Module TokMore.
Import Expr.

Lemma substring_list (n m : nat) (s : string) :
  list_ascii_of_string (substring n m s) = firstn m (skipn n (list_ascii_of_string s)).
Proof.
  revert n m. induction s as [|c s IH]; intros n m.
  - destruct n, m; reflexivity.
  - destruct n as [|n].
    + destruct m as [|m]; [reflexivity|]. cbn. f_equal.
      rewrite IH. reflexivity.
    + cbn. apply IH.
Qed.

Lemma lex_number_app l h a b : lex_number l h = (a, b) -> l = a ++ b.
Proof.
  revert h a b. induction l as [|c r IH]; intros h a b; cbn.
  - intros E; injection E as <- <-; reflexivity.
  - destruct (c =? "."%char)%char.
    + destruct h; [intros E; injection E as <- <-; reflexivity|].
      destruct (lex_number r true) as [a' b'] eqn:E'. intros E; injection E as <- <-.
      cbn. f_equal. exact (IH _ _ _ E').
    + destruct (is_digit c); [|intros E; injection E as <- <-; reflexivity].
      destruct (lex_number r h) as [a' b'] eqn:E'. intros E; injection E as <- <-.
      cbn. f_equal. exact (IH _ _ _ E').
Qed.

Lemma lex_identifier_app l a b : lex_identifier l = (a, b) -> l = a ++ b.
Proof.
  revert a b. induction l as [|c r IH]; intros a b; cbn.
  - intros E; injection E as <- <-; reflexivity.
  - destruct (is_alnum_ c); [|intros E; injection E as <- <-; reflexivity].
    pose proof (IH _ _ (surjective_pairing (lex_identifier r))) as IH'.
    destruct (lex_identifier r) as [a' b']. intros E; injection E as <- <-.
    cbn. f_equal. exact IH'.
Qed.

Definition slice_ok (L : list ascii) (t : Token) : Prop :=
  list_ascii_of_string (tvalue t) = firstn (stop (tspan t) - start (tspan t)) (skipn (start (tspan t)) L).

Lemma skipn_cons_next (L : list ascii) i c r :
  skipn i L = c :: r -> skipn (S i) L = r.
Proof.
  revert L. induction i as [|i IH]; intros L E; destruct L as [|x L]; cbn in *;
    try discriminate; [injection E as _ ->; destruct r; reflexivity | apply IH, E].
Qed.

Lemma skipn_add_app (L : list ascii) i a b :
  skipn i L = a ++ b -> skipn (i + List.length a) L = b.
Proof.
  revert i. induction a as [|x a IH]; intros i E.
  - rewrite Nat.add_0_r. exact E.
  - replace (i + List.length (x :: a))%nat with (S i + List.length a)%nat by (cbn; lia).
    apply IH. exact (skipn_cons_next L i x (a ++ b) E).
Qed.

Lemma lex_one_ok L index c r step index' rest :
  skipn index L = c :: r ->
  lex_one index c r = inr (step, index', rest) ->
  skipn index' L = rest /\ (List.length rest <= List.length r)%nat /\
  match step with Skip => True | Emit t => slice_ok L t end.
Proof.
  intros Hs. unfold lex_one.
  destruct (is_space c).
  { intros E; injection E as <- <- <-. split; [exact (skipn_cons_next L _ _ _ Hs) | auto]. }
  destruct (is_digit c) eqn:Hd.
  { destruct (lex_number (c :: r) false) as [v rest'] eqn:En.
    assert (Hv : v <> []).
    { cbn [lex_number] in En. destruct ((c =? "."%char)%char);
        [destruct (lex_number r true) | rewrite Hd in En; destruct (lex_number r false)];
        injection En as <- _; discriminate. } intros E; injection E as <- <- <-.
    pose proof (lex_number_app _ _ _ _ En) as Ap. rewrite Ap in Hs.
    split; [exact (skipn_add_app L _ _ _ Hs)|]. split.
    - apply (f_equal (@List.length ascii)) in Ap. rewrite length_app in Ap. cbn in Ap.
      destruct v; [contradiction Hv; reflexivity|]. cbn in Ap. lia.
    - unfold slice_ok, mk_token. cbn [tvalue tspan start stop]. rewrite list_ascii_of_string_of_list_ascii, Hs.
      replace (index + List.length v - index)%nat with (List.length v) by lia.
      rewrite firstn_app, Nat.sub_diag, firstn_O, app_nil_r, firstn_all. reflexivity. }
  destruct (is_alpha_ c).
  { destruct (lex_identifier r) as [v rest'] eqn:En. intros E; injection E as <- <- <-.
    pose proof (lex_identifier_app _ _ _ En) as Ap. rewrite Ap in Hs.
    change (c :: v ++ rest') with ((c :: v) ++ rest') in Hs.
    split; [exact (skipn_add_app L _ _ _ Hs)|]. split.
    - rewrite Ap, length_app. lia.
    - unfold slice_ok, mk_token. cbn [tvalue tspan start stop]. rewrite list_ascii_of_string_of_list_ascii, Hs.
      replace (index + S (List.length v) - index)%nat with (List.length (c :: v)) by (cbn; lia).
      rewrite firstn_app, Nat.sub_diag, firstn_O, app_nil_r, firstn_all. reflexivity. }
  destruct ((c =? "("%char)%char || (c =? ")"%char)%char).
  { intros E; injection E as <- <- <-. split; [exact (skipn_cons_next L _ _ _ Hs)|]. split; [lia|].
    unfold slice_ok, mk_token. cbn [tvalue tspan start stop]. rewrite Hs.
    replace (S index - index)%nat with 1%nat by lia. reflexivity. }
  destruct (c =? ","%char)%char.
  { intros E; injection E as <- <- <-. split; [exact (skipn_cons_next L _ _ _ Hs)|]. split; [lia|].
    unfold slice_ok, mk_token. cbn [tvalue tspan start stop]. rewrite Hs.
    replace (S index - index)%nat with 1%nat by lia. reflexivity. }
  destruct (is_operator (string_of_list_ascii (firstn 2 (c :: r)))).
  { intros E; injection E as <- <- <-. split.
    - pose proof (skipn_cons_next L _ _ _ Hs) as H1.
      destruct r as [|y r'].
      + replace (index + 2)%nat with (S (S index)) by lia.
        revert H1. clear. revert L. induction (S index) as [|k IH]; intros L H1.
        * cbn in *. subst. reflexivity.
        * destruct L; [reflexivity|]. cbn in *. apply IH, H1.
      + replace (index + 2)%nat with (S (S index)) by lia. exact (skipn_cons_next L _ _ _ H1).
    - split; [destruct r; cbn; lia|].
      unfold slice_ok, mk_token. cbn [tvalue tspan start stop].
      rewrite list_ascii_of_string_of_list_ascii, Hs.
      replace (index + 2 - index)%nat with 2%nat by lia. reflexivity. }
  destruct (is_operator (String c EmptyString)); [|discriminate].
  intros E; injection E as <- <- <-. split; [exact (skipn_cons_next L _ _ _ Hs)|]. split; [lia|].
  unfold slice_ok, mk_token. cbn [tvalue tspan start stop]. rewrite Hs.
  replace (S index - index)%nat with 1%nat by lia. reflexivity.
Qed.

Definition lex_unexpected (index : nat) (c : ascii) : Exn :=
  MiniExprSyntaxError (String.append "Unexpected character '" (String c "'")) index (S index).

Lemma lex_one_error index c r e :
  lex_one index c r = inl e -> e = lex_unexpected index c.
Proof.
  unfold lex_one.
  destruct (is_space c); [discriminate|].
  destruct (is_digit c); [destruct (lex_number _ _); discriminate|].
  destruct (is_alpha_ c); [destruct (lex_identifier _); discriminate|].
  destruct (_ || _); [discriminate|].
  destruct (c =? ","%char)%char; [discriminate|].
  destruct (is_operator _); [discriminate|].
  destruct (is_operator _); [discriminate|].
  intros E; injection E as <-; reflexivity.
Qed.

Lemma skipn_nth_error (L : list ascii) i c r : skipn i L = c :: r -> nth_error L i = Some c.
Proof.
  revert L. induction i as [|i IH]; intros L E; destruct L as [|x L]; cbn in *;
    try discriminate; [injection E as -> _; reflexivity | apply IH, E].
Qed.

Lemma tokenize_from_ok L fuel index l :
  skipn index L = l -> (List.length l < fuel)%nat ->
  match tokenize_from fuel index l with
  | inr ts => Forall (slice_ok L) ts
  | inl e => exists i c, nth_error L i = Some c /\ e = lex_unexpected i c
  end.
Proof.
  revert index l. induction fuel as [|f IH]; intros index l Hs Hf; [lia|].
  cbn [tokenize_from]. destruct l as [|c r]; [constructor|].
  destruct (lex_one index c r) as [e|[[step index'] rest]] eqn:E.
  - exists index, c. split; [exact (skipn_nth_error L _ _ _ Hs) | exact (lex_one_error _ _ _ _ E)].
  - destruct (lex_one_ok L index c r step index' rest Hs E) as (Hs' & Hl & Ht).
    assert (Hf' : (List.length rest < f)%nat) by (cbn in Hf; lia).
    pose proof (IH index' rest Hs' Hf') as IH'.
    destruct step as [|tok]; [exact IH'|].
    destruct (tokenize_from f index' rest) as [e|ts]; [exact IH'|].
    constructor; [exact Ht | exact IH'].
Qed.

(** X23. tokenize either throws an 'Unexpected character' syntax error spanning one character that is in the source at that position, or returns tokens ending in an eof token at (length, length), where every token's value is the slice of the source given by its span. *)
Lemma tokenize_ok source :
  match tokenize source with
  | inr ts =>
      (exists ts', ts = app ts' [mk_token TEof [] (String.length source) (String.length source)]) /\
      Forall (fun t => tvalue t =
        substring (start (tspan t)) (stop (tspan t) - start (tspan t)) source) ts
  | inl e => exists i c, String.get i source = Some c /\
      e = MiniExprSyntaxError (String.append "Unexpected character '" (String c "'")) i (S i)
  end.
Proof.
  unfold tokenize.
  pose proof (tokenize_from_ok (list_ascii_of_string source) (S (List.length (list_ascii_of_string source))) 0
                (list_ascii_of_string source) eq_refl ltac:(lia)) as H.
  destruct (tokenize_from _ 0 _) as [e|ts].
  - destruct H as (i & c & Hn & ->). exists i, c. split; [|reflexivity].
    revert i Hn. clear. induction source as [|x s IH]; intros i Hn; destruct i; cbn in *; try discriminate;
      [exact Hn | apply IH, Hn].
  - split.
    + assert (Ln : forall s, List.length (list_ascii_of_string s) = String.length s)
        by (induction s as [|x s IH]; cbn; [reflexivity | f_equal; exact IH]).
      eexists. rewrite Ln. reflexivity.
    + assert (Fe : forall t, slice_ok (list_ascii_of_string source) t ->
                     tvalue t = substring (start (tspan t)) (stop (tspan t) - start (tspan t)) source).
      { intros t Ht. unfold slice_ok in Ht. rewrite <- substring_list in Ht.
        rewrite <- (string_of_list_ascii_of_string (tvalue t)), Ht, string_of_list_ascii_of_string.
        reflexivity. }
      apply Forall_app. split; [eapply Forall_impl; [exact Fe | exact H]|].
      constructor; [|constructor]. apply Fe. unfold slice_ok, mk_token. cbn.
      rewrite Nat.sub_diag. reflexivity.
Qed.
End TokMore.

(** * Instances of the further properties on concrete inputs *)
Module MoreWitnesses.
Import Expr Session SpecSession MoreInputs.
Local Open Scope string_scope.

Lemma session_phase_invariant_witness :
  phase (applied ore_template "mine") <> PSetup /\
  (rollResult (applied ore_template "mine") = None <-> phase (applied ore_template "mine") = PRoll) /\
  (chosenAction (applied ore_template "mine") <> None <-> phase (applied ore_template "mine") = PApply) /\
  (finalScore (applied ore_template "mine") <> None <-> phase (applied ore_template "mine") = PComplete).
Proof.
  apply (SessionMore.session_phase_invariant (applied ore_template "mine")).
  apply reachable_apply, reachable_choose, reachable_roll, (reachable_new ore_template seed42).
  vm_compute. reflexivity.
Defined.

Lemma endTurn_score_fails_witness :
  let s := applied bool_score_template "mine" in
  fst (endTurn s) = inl (MiniExprEvaluationError "Scoring expression must resolve to a number") /\
  phase (snd (endTurn s)) = PEnd /\ finalScore (snd (endTurn s)) = finalScore s /\
  turn (snd (endTurn s)) = turn s /\ resources (snd (endTurn s)) = resources s /\
  history (snd (endTurn s)) =
    app (history s) [EndTurnEvent (turn s) (resources s) (S (timestampCounter s))] /\
  currentReplayTurn (snd (endTurn s)) = None.
Proof.
  intros s.
  apply (SessionMore.endTurn_score_fails s (MiniExprEvaluationError "Scoring expression must resolve to a number")).
  - vm_compute. reflexivity.
  - vm_compute. reflexivity.
  - vm_compute. reflexivity.
Defined.

Lemma apply_runs_chosen_witness :
  exists a, chosenAction (chosen ore_template "mine") = Some a /\
  fst (apply (chosen ore_template "mine")) =
    match apply_effects (template (chosen ore_template "mine")) a (effects a)
                        (apply_start (chosen ore_template "mine")) with
    | inl e => inl e
    | inr acc => inr {| deltas := acc_deltas acc; resulting := acc_resulting acc |}
    end.
Proof.
  apply (SessionMore.apply_runs_chosen (chosen ore_template "mine")).
  - apply reachable_choose, reachable_roll, (reachable_new ore_template seed42).
    vm_compute. reflexivity.
  - vm_compute. reflexivity.
Defined.

Lemma getReplay_complete_witness :
  (getReplay (applied ore_template "mine") <> None <-> isComplete (applied ore_template "mine") = true) /\
  (getScore (applied ore_template "mine") <> None <-> isComplete (applied ore_template "mine") = true).
Proof.
  apply (SessionMore.getReplay_complete (applied ore_template "mine")).
  apply reachable_apply, reachable_choose, reachable_roll, (reachable_new ore_template seed42).
  vm_compute. reflexivity.
Defined.

Lemma autoplay_replay_witness :
  exists score,
  finalScore (snd (autoplay_loop 20 highestPriorityPolicy (started ore_template))) = Some score /\
  autoplay 20 ore_template highestPriorityPolicy seed42 =
    inr {| templateId := template_id ore_template; templateVersion := version ore_template;
           seed := initialSeed (started ore_template);
           turns := replayTurns (snd (autoplay_loop 20 highestPriorityPolicy (started ore_template)));
           replay_finalScore := score |}.
Proof.
  apply (SessionMore.autoplay_replay 20 ore_template highestPriorityPolicy seed42 (started ore_template)).
  - vm_compute. reflexivity.
  - vm_compute. reflexivity.
Defined.

Lemma choose_all_or_nothing_witness :
  choose "nope" (rolled ore_template) =
    (inl (PlainError "Action 'nope' is not available during turn 1"), rolled ore_template) /\
  rolled ore_template = rolled ore_template.
Proof.
  split; [vm_compute; reflexivity|].
  apply (SessionMore.choose_all_or_nothing "nope" (rolled ore_template) (rolled ore_template)
           (PlainError "Action 'nope' is not available during turn 1")).
  vm_compute. reflexivity.
Defined.


Lemma listAvailable_filter_witness :
  (rollResult (rolled ore_template) = None -> [mine] = []) /\
  (rollResult (rolled ore_template) <> None ->
   [mine] = filter (SessionMore.condition_holds (rolled ore_template)) (actions (template (rolled ore_template)))).
Proof.
  apply (SessionMore.listAvailable_filter (rolled ore_template) [mine]).
  vm_compute. reflexivity.
Defined.

Lemma highestPriority_first_max_witness :
  exists pre a post, context_actions prio_context = app pre (a :: post) /\
    Forall (fun b => ((fun c => match priority c with QNum.JFin q => q | _ => 0%Q end) b <
                      (fun c => match priority c with QNum.JFin q => q | _ => 0%Q end) a)%Q) pre /\
    Forall (fun b => ((fun c => match priority c with QNum.JFin q => q | _ => 0%Q end) b <=
                      (fun c => match priority c with QNum.JFin q => q | _ => 0%Q end) a)%Q) post /\
    highestPriorityPolicy prio_context = inr (action_id a).
Proof.
  apply (SessionMore.highestPriority_first_max prio_context
           (fun c => match priority c with QNum.JFin q => q | _ => 0%Q end)).
  - intros a Ha. simpl in Ha. destruct Ha as [<-|[<-|[<-|[]]]]; reflexivity.
  - discriminate.
Defined.

Lemma createVariables_lookup_witness :
  Obj.lookup "ore" (createVariables (rolled ore_template)) =
  match Obj.lookup "ore" (resources (rolled ore_template)) with
  | Some v => Some (VNum v)
  | None => if String.eqb "ore" "turn" then Some (VNum (turn (rolled ore_template))) else None
  end.
Proof.
  apply (SessionMore.createVariables_lookup (rolled ore_template) "ore").
  - vm_compute. constructor; [intros []|constructor].
  - intros rest E. discriminate E.
Defined.

Lemma createVariables_roll_witness :
  Obj.lookup "roll_total" (createVariables (rolled ore_template)) = Some (VNum (total first_roll)) /\
  Obj.lookup "roll_high" (createVariables (rolled ore_template)) = Some (VNum (highest first_roll)) /\
  Obj.lookup "roll_low" (createVariables (rolled ore_template)) = Some (VNum (lowest first_roll)).
Proof.
  apply (SessionMore.createVariables_roll (rolled ore_template) first_roll).
  vm_compute. reflexivity.
Defined.

Lemma reachable_never_zero_witness :
  let r := {| Rng.state0 := 0; Rng.state1 := 1 |} in
  0 <= Rng.state0 r < 2 ^ 64 /\ 0 <= Rng.state1 r < 2 ^ 64 /\ ~ (Rng.state0 r = 0 /\ Rng.state1 r = 0).
Proof.
  intros r.
  apply (RngMore.reachable_never_zero (num := QNum.jsq) r).
  apply (Rng.reachable_create (Some (Rng.SeedPair 0 0))). vm_compute. reflexivity.
Defined.

Lemma or_short_circuit_witness :
  evaluateNode 10 [] [] (BinaryExpression BOr (lit 1) (Identifier "missing" nospan) nospan) None =
    (inr (VBool true), None).
Proof.
  apply (ExprMore.or_short_circuit 10 [] [] (lit 1) (Identifier "missing" nospan) nospan None (VNum (n 1)) None).
  - reflexivity.
  - vm_compute. reflexivity.
Defined.

Lemma and_short_circuit_witness :
  evaluateNode 10 [] [] (BinaryExpression BAnd (lit 0) (Identifier "missing" nospan) nospan) None =
    (inr (VBool false), None).
Proof.
  apply (ExprMore.and_short_circuit 10 [] [] (lit 0) (Identifier "missing" nospan) nospan None (VNum (n 0)) None).
  - reflexivity.
  - vm_compute. reflexivity.
Defined.

Lemma div_mod_by_zero_witness :
  evaluateNode 10 [] [] (BinaryExpression BDiv (lit 5) (lit 0) nospan) None =
    (inl (MiniExprEvaluationError "Division by zero"), None) /\
  evaluateNode 10 [] [] (BinaryExpression BMod (lit 5) (lit 0) nospan) None =
    (inl (MiniExprEvaluationError "Modulo by zero"), None).
Proof.
  apply (ExprMore.div_mod_by_zero 10 [] [] (lit 5) (lit 0) nospan None (n 5) None (n 0) None);
    vm_compute; reflexivity.
Defined.

Lemma clamp_call_witness :
  evaluateNode 10 [] [] (CallExpression "CLAMP" nospan [lit 12; lit 0; lit 10] nospan) None =
    if Qle_bool 0 10 then (inr (VNum (QNum.JFin (Qmin (Qmax 12 0) 10))), None)
    else (inl (MiniExprEvaluationError "CLAMP minimum cannot exceed maximum"), None).
Proof.
  apply (ExprMore.clamp_call 10 [] [] nospan nospan (lit 12) (lit 0) (lit 10) None None None None);
    reflexivity.
Defined.

Lemma min_max_call_witness :
  (exists m, evaluateNode 10 [] [] (CallExpression "MIN" nospan [lit 3; lit 1; lit 2] nospan) None =
               (inr (VNum (QNum.JFin m)), None) /\ In m [3; 1; 2]%Q /\ Forall (fun q => (m <= q)%Q) [3; 1; 2]%Q) /\
  (exists m, evaluateNode 10 [] [] (CallExpression "MAX" nospan [lit 3; lit 1; lit 2] nospan) None =
               (inr (VNum (QNum.JFin m)), None) /\ In m [3; 1; 2]%Q /\ Forall (fun q => (q <= m)%Q) [3; 1; 2]%Q).
Proof.
  apply (ExprMore.min_max_call 10 [] [] nospan nospan [lit 3; lit 1; lit 2] [3; 1; 2]%Q None).
  - reflexivity.
  - reflexivity.
  - repeat constructor.
  - discriminate.
Defined.


Lemma dice_needs_rng_witness :
  evaluateNode 10 [] [] (CallExpression "D" nospan [lit 6; lit 3] nospan) None =
    (inl (MiniExprEvaluationError "Dice functions require an RNG in the evaluation context"), None).
Proof.
  apply (ExprMore.dice_needs_rng 10 [] [] nospan nospan (lit 6) (lit 3) 6 3).
  - reflexivity.
  - intros st. reflexivity.
  - intros st. reflexivity.
Defined.
End MoreWitnesses.
